(** * dcyfr-ai-agents: execution loop, tool dispatch, memory stores

  A shallow embedding of the TypeScript sources

  - [src/agent/core/agent.ts]         (class [Agent])
  - the Phase 0 revision of that file (constructor, [getName], [run])
  - [src/agent/tools/registry.ts]     (class [ToolRegistry])
  - [src/agent/memory/short-term.ts]  (class [ShortTermMemory])
  - [src/agent/memory/long-term.ts]   (class [LongTermMemory])
  - the router kept with [src/agent/index.ts] (class [AgentRouter])

  together with the properties the specification states about them.

  Conventions of the embedding.

  - [async]/[await] is sequential composition: the sources never start two
    promises at once, so a resolved promise is a returned value and a
    rejected promise is a thrown value.
  - A JavaScript [number] that the code only counts with (iteration counter,
    [maxIterations], capacities) is a [Z]; a [number] that is data (tool
    inputs and outputs, memory values) is a binary64 float.
  - A [Map<string, V>] is an association list in insertion order
    ([Js.map_set] overwrites in place, appends otherwise), because the
    sources enumerate maps ([values()], [keys()]).
  - [Date] stamps and the [metadata] block of a result are left out: no
    control flow reads them.
  - Listeners, tools and the decision procedure are functions supplied by
    the embedding application; each either resolves or throws. *)

From Stdlib Require Import ZArith NArith List String Ascii Bool Lia.
From Stdlib Require Import DecimalString PrimFloat Permutation Sorted.
From Stdlib Require QArith.
Import ListNotations.
Local Open Scope string_scope.
Local Open Scope Z_scope.

Set Implicit Arguments.
Set Warnings "-register-all".

(* ================================================================== *)
(** * JavaScript values, thrown values, ordered maps, strings *)
(* ================================================================== *)

Module Js.

(** Numbers: IEEE 754 binary64, with [NaN], the infinities and the two
    zeros. *)
Definition JsNumber : Type := float.

(** [Object.is(x, -0)] *)
Definition is_neg_zero (x : JsNumber) : bool :=
  PrimFloat.is_zero x && PrimFloat.get_sign x.

(** The part of [unknown] that tool inputs, tool outputs and memory values
    range over: primitive values, arrays and plain objects.  An object is
    its list of own enumerable properties, in the order JavaScript
    enumerates them.  There are no functions and no symbols among them.
    [VBigInt] is there as a value that [JSON.stringify] throws on; a
    cyclic object, which it throws on as well, is not a value of this
    type. *)
Inductive JsValue : Type :=
| VUndefined
| VNull
| VBool (b : bool)
| VNumber (n : JsNumber)
| VBigInt (z : Z)
| VString (s : string)
| VArray (items : list JsValue)
| VObject (props : list (string * JsValue)).

(** An [Error] object.  [code] is the errno code of a Node.js system
    error ([ENOENT], [EACCES], ...). *)
Record JsError : Type := mkJsError {
  err_name : string;
  message : string;
  code : option string
}.

Definition Error (msg : string) : JsError :=
  {| err_name := "Error"; message := msg; code := None |}.

(** What a [throw] carries: an [Error], or any other value, kept as the
    text [String(x)] gives for it. *)
Inductive Thrown : Type :=
| ThrowError (e : JsError)
| ThrowOther (text : string).

(** [error instanceof Error ? error : new Error(String(error))] *)
Definition asError (t : Thrown) : JsError :=
  match t with
  | ThrowError e => e
  | ThrowOther text => Error text
  end.

(** An array index: the canonical decimal text of an integer from 0 to
    2^32 - 2. *)
Definition array_index (k : string) : option N :=
  match NilZero.uint_of_string k with
  | Some u =>
      let n := N.of_uint u in
      if String.eqb (NilZero.string_of_uint (N.to_uint n)) k
         && (n <=? 4294967294)%N
      then Some n else None
  | None => None
  end.

(** ** [Map<string, V>] *)
Section JsMap.
Variable V : Type.

Definition JsMap : Type := list (string * V).

Fixpoint map_get (k : string) (m : JsMap) : option V :=
  match m with
  | [] => None
  | (k', v) :: rest => if String.eqb k' k then Some v else map_get k rest
  end.

Definition map_has (k : string) (m : JsMap) : bool :=
  match map_get k m with Some _ => true | None => false end.

(** [Map.prototype.set]: an existing key keeps its position. *)
Fixpoint map_set (k : string) (v : V) (m : JsMap) : JsMap :=
  match m with
  | [] => [(k, v)]
  | (k', v') :: rest =>
      if String.eqb k' k then (k', v) :: rest
      else (k', v') :: map_set k v rest
  end.

Fixpoint map_delete (k : string) (m : JsMap) : JsMap :=
  match m with
  | [] => []
  | (k', v') :: rest =>
      if String.eqb k' k then rest else (k', v') :: map_delete k rest
  end.

Definition map_keys (m : JsMap) : list string := List.map fst m.
Definition map_values (m : JsMap) : list V := List.map snd m.
Definition map_size (m : JsMap) : Z := Z.of_nat (List.length m).

(** [new Map(entries)] and, on the model of objects used here,
    [Object.fromEntries(entries)]: the entries are set one by one. *)
Definition map_of_entries (entries : list (string * V)) : JsMap :=
  fold_left (fun m kv => map_set (fst kv) (snd kv) m) entries [].

(** The order of the own properties of an object (OrdinaryOwnPropertyKeys):
    the array indices in ascending order, then the other keys in the
    order they were created. *)
Fixpoint place (n : N) (e : string * V) (l : list (N * (string * V)))
    : list (N * (string * V)) :=
  match l with
  | [] => [(n, e)]
  | (n', e') :: rest =>
      if (n <=? n')%N then (n, e) :: l else (n', e') :: place n e rest
  end.

Fixpoint index_entries (l : JsMap) : list (N * (string * V)) :=
  match l with
  | [] => []
  | (k, v) :: rest =>
      match array_index k with
      | Some n => place n (k, v) (index_entries rest)
      | None => index_entries rest
      end
  end.

Definition own_order (l : JsMap) : JsMap :=
  (List.map snd (index_entries l)
   ++ filter (fun kv => match array_index (fst kv) with
                        | Some _ => false
                        | None => true
                        end) l)%list.

(** The properties of the object that the entries build, set one by one
    ([Object.fromEntries], an object literal, [JSON.parse]). *)
Definition js_object (entries : list (string * V)) : JsMap :=
  own_order (map_of_entries entries).
End JsMap.

(** ** Strings *)

Definition nl : string := String (ascii_of_nat 10) EmptyString.

(** [Array.prototype.join] *)
Fixpoint join (sep : string) (parts : list string) : string :=
  match parts with
  | [] => EmptyString
  | [p] => p
  | p :: rest => p ++ sep ++ join sep rest
  end.

(** [String.prototype.includes] *)
Fixpoint includes (needle hay : string) : bool :=
  if String.prefix needle hay then true
  else match hay with
       | EmptyString => false
       | String _ rest => includes needle rest
       end.

(** Truthiness of a string: only [''] is falsy. *)
Definition truthy (s : string) : bool :=
  match s with EmptyString => false | _ => true end.

Definition string_of_nat (n : nat) : string :=
  NilZero.string_of_uint (Nat.to_uint n).

End Js.
Export Js.

(* ================================================================== *)
(** * JSON *)
(* ================================================================== *)

Module JSON.

(** A JSON document.  The characters [JSON.stringify] writes are not
    modelled: a JSON text is identified with the document it denotes, so
    that [JSON.parse] of a text written by [JSON.stringify] is the
    document that was written (ECMA-262, 25.5).  A number token is
    identified with the double it denotes: the text [JSON.stringify]
    writes for a finite double other than [-0] reads back as that double
    (ECMA-262, 6.1.6.1.20). *)
Inductive Json : Type :=
| JNull
| JBool (b : bool)
| JNumber (x : float)
| JString (s : string)
| JArray (items : list Json)
| JObject (members : list (string * Json)).

Definition TypeError (msg : string) : JsError :=
  {| err_name := "TypeError"; message := msg; code := None |}.

Definition BigIntError : Thrown :=
  ThrowError (TypeError "Do not know how to serialize a BigInt").

(** [SerializeJSONProperty]: it throws on a BigInt, wherever it is in the
    value; otherwise [None] is the [undefined] result.  A property whose
    value is [undefined] is left out of an object, an [undefined] array
    element becomes [null], and so does a number that is not finite; [-0]
    is written as [0]. *)
Fixpoint serialize (v : JsValue) : option Json + Thrown :=
  match v with
  | VUndefined => inl None
  | VNull => inl (Some JNull)
  | VBool b => inl (Some (JBool b))
  | VNumber x =>
      inl (Some (if PrimFloat.is_finite x
                 then JNumber (if is_neg_zero x then PrimFloat.zero else x)
                 else JNull))
  | VBigInt _ => inr BigIntError
  | VString s => inl (Some (JString s))
  | VArray items =>
      match
        (fix elements (l : list JsValue) : list Json + Thrown :=
           match l with
           | [] => inl []
           | x :: rest =>
               match serialize x with
               | inr t => inr t
               | inl j =>
                   match elements rest with
                   | inr t => inr t
                   | inl js =>
                       inl (match j with Some j => j | None => JNull end :: js)
                   end
               end
           end) items
      with
      | inr t => inr t
      | inl js => inl (Some (JArray js))
      end
  | VObject props =>
      match
        (fix members (ps : list (string * JsValue))
             : list (string * Json) + Thrown :=
           match ps with
           | [] => inl []
           | (k, x) :: rest =>
               match serialize x with
               | inr t => inr t
               | inl j =>
                   match members rest with
                   | inr t => inr t
                   | inl ms =>
                       inl (match j with
                            | Some j => (k, j) :: ms
                            | None => ms
                            end)
                   end
               end
           end) props
      with
      | inr t => inr t
      | inl ms => inl (Some (JObject ms))
      end
  end.

(** [JSON.stringify(v)] / [JSON.stringify(v, null, 2)]: the text, or
    [undefined], or what it throws. *)
Definition stringify (v : JsValue) : option Json + Thrown := serialize v.

(** The value [JSON.parse] builds for a document: the members of an
    object are set one by one, a later member of the same name replacing
    the earlier one. *)
Fixpoint value (j : Json) : JsValue :=
  match j with
  | JNull => VNull
  | JBool b => VBool b
  | JNumber x => VNumber x
  | JString s => VString s
  | JArray items => VArray (List.map value items)
  | JObject members =>
      VObject
        (js_object
           ((fix props (ms : list (string * Json)) : list (string * JsValue) :=
               match ms with
               | [] => []
               | (k, x) :: rest => (k, value x) :: props rest
               end) members))
  end.

(** The contents of a file: a JSON text, or text that is not JSON. *)
Inductive FileData : Type :=
| JsonText (doc : Json)
| RawText (text : string).

Definition SyntaxError (msg : string) : JsError :=
  {| err_name := "SyntaxError"; message := msg; code := None |}.

(** [JSON.parse(data)] *)
Definition parse (data : FileData) : JsValue + Thrown :=
  match data with
  | JsonText doc => inl (value doc)
  | RawText _ => inr (ThrowError (SyntaxError "Unexpected token in JSON"))
  end.

Fixpoint indexed (i : nat) (items : list JsValue) : list (string * JsValue) :=
  match items with
  | [] => []
  | x :: rest => (string_of_nat i, x) :: indexed (S i) rest
  end.

Fixpoint chars (i : nat) (s : string) : list (string * JsValue) :=
  match s with
  | EmptyString => []
  | String c rest =>
      (string_of_nat i, VString (String c EmptyString)) :: chars (S i) rest
  end.

(** [Object.entries(x)] *)
Definition Object_entries (x : JsValue) : list (string * JsValue) + Thrown :=
  match x with
  | VUndefined | VNull =>
      inr (ThrowError (TypeError "Cannot convert undefined or null to object"))
  | VObject props => inl props
  | VArray items => inl (indexed 0 items)
  | VString s => inl (chars 0 s)
  | VBool _ | VNumber _ | VBigInt _ => inl []
  end.

(** [Object.fromEntries(map)] *)
Definition Object_fromEntries (entries : list (string * JsValue)) : JsValue :=
  VObject (js_object entries).

(** Values that JSON represents exactly: no [undefined], no BigInt, no
    number that is not finite, no [-0].  An object lists its properties
    as JavaScript does: each key once, the array indices first. *)
Fixpoint json_safe (v : JsValue) : Prop :=
  match v with
  | VUndefined | VBigInt _ => False
  | VNull | VBool _ | VString _ => True
  | VNumber x => PrimFloat.is_finite x = true /\ is_neg_zero x = false
  | VArray items =>
      (fix all (l : list JsValue) : Prop :=
         match l with [] => True | x :: rest => json_safe x /\ all rest end) items
  | VObject props =>
      js_object props = props /\
      (fix all (l : list (string * JsValue)) : Prop :=
         match l with [] => True | (_, x) :: rest => json_safe x /\ all rest end) props
  end.

End JSON.

(* ================================================================== *)
(** * [src/types/index.ts] *)
(* ================================================================== *)

Module Types.

(** [AgentConfig], with every optional field filled in
    ([Required<AgentConfig>]).  [temperature] is advisory and never read
    by the loop; it is kept as a rational. *)
Record AgentConfig : Type := {
  cfg_name : string;
  cfg_description : string;
  maxIterations : Z;
  temperature : QArith_base.Q;
  verbose : bool;
  systemPrompt : string
}.

(** [Tool]: [inputSchema] stands for [inputSchema.parse], which returns the
    validated input or throws. *)
Record Tool : Type := {
  name : string;
  description : string;
  inputSchema : JsValue -> JsValue + Thrown;
  execute : JsValue -> JsValue + Thrown
}.

Record Action : Type := {
  tool : string;
  input : JsValue
}.

(** [AgentStep].  An absent optional field is [None]. *)
Record AgentStep : Type := {
  step_iteration : Z;
  thought : string;
  action : option Action;
  observation : option JsValue;
  error : option JsError
}.

Inductive Role : Type := RoleSystem | RoleUser | RoleAssistant | RoleTool.

(** Message text: a string of the program, or the text
    [JSON.stringify] gave for a tool result ([None] when it gave
    [undefined]). *)
Inductive Content : Type :=
| Plain (s : string)
| Serialized (text : option JSON.Json).

Record AgentMessage : Type := {
  role : Role;
  content : Content;
  msg_name : option string
}.

Record AgentState : Type := {
  iteration : Z;
  messages : list AgentMessage;
  steps : list AgentStep;
  isFinished : bool;
  finalOutput : option string
}.

Record AgentResult : Type := {
  output : string;
  res_steps : list AgentStep;
  iterations : Z;
  success : bool;
  res_error : option JsError
}.

Inductive AgentEvent : Type :=
| EvStart (config : AgentConfig) (input : string)
| EvStep (step : AgentStep)
| EvToolCall (tool : string) (input : JsValue)
| EvToolResult (tool : string) (output : JsValue)
| EvError (error : JsError) (step : Z)
| EvFinish (result : AgentResult).



(** [AgentEventListener]: resolves ([None]) or throws. *)
Definition AgentEventListener : Type := AgentEvent -> option Thrown.

End Types.
Export Types.

(* ================================================================== *)
(** * [src/agent/core/agent.ts] *)
(* ================================================================== *)

Module Core.

Record AgentOptions : Type := {
  opt_name : string;
  opt_description : string;
  opt_maxIterations : option Z;
  opt_temperature : option QArith_base.Q;
  opt_verbose : option bool;
  opt_systemPrompt : option string;
  opt_tools : option (list Tool);
  opt_listeners : option (list AgentEventListener)
}.

(** What [makeDecision] resolves to. *)
Record Decision : Type := {
  d_thought : string;
  d_action : option Action
}.

(** The private fields of an [Agent].  [makeDecision] is the method the
    tests replace in subclasses; it reads the instance and resolves to a
    decision or throws: a function of the state it reads. *)
Record Agent : Type := {
  config : AgentConfig;
  tools : JsMap Tool;
  listeners : list AgentEventListener;
  state : AgentState;
  makeDecision : AgentState -> Decision + Thrown
}.

(** What the listeners have been called with, oldest first: the index of
    the listener in [listeners] and the event it was handed. *)
Definition Log : Type := list (nat * AgentEvent).

(** How a call of an [async] method ends. *)
Inductive Outcome (A : Type) : Type :=
| Returned (result : A)
| Rejected (t : Thrown).
Arguments Rejected {A} t.

Definition with_state (a : Agent) (s : AgentState) : Agent :=
  {| config := config a; tools := tools a; listeners := listeners a;
     state := s; makeDecision := makeDecision a |}.

Definition with_tools (a : Agent) (ts : JsMap Tool) : Agent :=
  {| config := config a; tools := ts; listeners := listeners a;
     state := state a; makeDecision := makeDecision a |}.

(** The placeholder body of [makeDecision]. *)
Definition placeholderDecision (_ : AgentState) : Decision + Thrown :=
  inl {| d_thought := "Analyzing the request and determining next steps...";
         d_action := None |}.

(** [defaultSystemPrompt()], reading [this.config] and [this.tools]. *)
Definition defaultSystemPrompt (cfg : AgentConfig) (ts : JsMap Tool) : string :=
  let toolList :=
    join nl (List.map (fun t => "- " ++ name t ++ ": " ++ description t)
                      (map_values ts)) in
  "You are " ++ cfg_name cfg ++ ", an autonomous AI agent." ++ nl
  ++ nl
  ++ "Description: " ++ cfg_description cfg ++ nl
  ++ nl
  ++ "Available Tools:" ++ nl
  ++ (if truthy toolList then toolList else "(No tools available)") ++ nl
  ++ nl
  ++ "Instructions:" ++ nl
  ++ "1. Think step-by-step about the user's request" ++ nl
  ++ "2. Use tools when needed to gather information or take actions" ++ nl
  ++ "3. Provide clear, helpful responses" ++ nl
  ++ "4. If you cannot complete the task, explain why" ++ nl
  ++ nl
  ++ "When using a tool, respond in this format:" ++ nl
  ++ "Thought: [Your reasoning]" ++ nl
  ++ "Action: [tool name]" ++ nl
  ++ "Action Input: [JSON input for the tool]" ++ nl
  ++ nl
  ++ "When you have a final answer, respond:" ++ nl
  ++ "Thought: [Your reasoning]" ++ nl
  ++ "Final Answer: [Your response to the user]".

(** The state the constructor and [reset()] build. *)
Definition initialState (prompt : string) : AgentState :=
  {| iteration := 0;
     messages := [ {| role := RoleSystem; content := Plain prompt;
                      msg_name := None |} ];
     steps := [];
     isFinished := false;
     finalOutput := None |}.

(** [registerTool(tool)]: [this.tools.set(tool.name, tool)]. *)
Definition registerTool (t : Tool) (a : Agent) : Agent :=
  with_tools a (map_set (name t) t (tools a)).

Definition default {A : Type} (o : option A) (d : A) : A :=
  match o with Some x => x | None => d end.

(** [new Agent(options)] of [agent.ts].  The system prompt is assigned
    first, while [this.tools] is still the empty map; the tools of the
    options are registered after it. *)
Definition constructor (decide : AgentState -> Decision + Thrown)
    (options : AgentOptions) : Agent :=
  let config0 :=
    {| cfg_name := opt_name options;
       cfg_description := opt_description options;
       maxIterations := default (opt_maxIterations options) 10;
       temperature := default (opt_temperature options) (QArith_base.Qmake 7 10);
       verbose := default (opt_verbose options) false;
       systemPrompt := EmptyString |} in
  let tools0 : JsMap Tool := [] in
  let prompt :=
    default (opt_systemPrompt options) (defaultSystemPrompt config0 tools0) in
  let config1 :=
    {| cfg_name := cfg_name config0;
       cfg_description := cfg_description config0;
       maxIterations := maxIterations config0;
       temperature := temperature config0;
       verbose := verbose config0;
       systemPrompt := prompt |} in
  let this :=
    {| config := config1; tools := tools0; listeners := [];
       state := initialState EmptyString; makeDecision := decide |} in
  let this :=
    match opt_tools options with
    | Some ts => fold_left (fun self t => registerTool t self) ts this
    | None => this
    end in
  {| config := config this;
     tools := tools this;
     listeners := default (opt_listeners options) [];
     state := initialState (systemPrompt (config this));
     makeDecision := makeDecision this |}.

(** [reset()] *)
Definition reset (a : Agent) : Agent :=
  with_state a (initialState (systemPrompt (config a))).

(** [getState()] *)
Definition getState (a : Agent) : AgentState := state a.

(** [emitEvent(event)]: the listeners are called one after the other, in
    the order of the array; the first one that throws ends the loop. *)
Fixpoint emit_from (i : nat) (ls : list AgentEventListener) (ev : AgentEvent)
    (log : Log) : option Thrown * Log :=
  match ls with
  | [] => (None, log)
  | listener :: rest =>
      let log := (log ++ [(i, ev)])%list in
      match listener ev with
      | Some t => (Some t, log)
      | None => emit_from (S i) rest ev log
      end
  end.

Definition emitEvent (a : Agent) (ev : AgentEvent) (log : Log)
    : option Thrown * Log :=
  emit_from 0 (listeners a) ev log.

Definition push_message (s : AgentState) (m : AgentMessage) : AgentState :=
  {| iteration := iteration s; messages := (messages s ++ [m])%list;
     steps := steps s; isFinished := isFinished s;
     finalOutput := finalOutput s |}.

Definition push_step (s : AgentState) (st : AgentStep) : AgentState :=
  {| iteration := iteration s; messages := messages s;
     steps := (steps s ++ [st])%list; isFinished := isFinished s;
     finalOutput := finalOutput s |}.

(** [this.state.iteration++] *)
Definition next_iteration (s : AgentState) : AgentState :=
  {| iteration := iteration s + 1; messages := messages s;
     steps := steps s; isFinished := isFinished s;
     finalOutput := finalOutput s |}.

(** [this.state.isFinished = true; this.state.finalOutput = step.thought] *)
Definition finished (s : AgentState) (out : string) : AgentState :=
  {| iteration := iteration s; messages := messages s;
     steps := steps s; isFinished := true;
     finalOutput := Some out |}.

Definition with_decision (st : AgentStep) (d : Decision) : AgentStep :=
  {| step_iteration := step_iteration st; thought := d_thought d;
     action := d_action d; observation := observation st;
     error := error st |}.

Definition with_observation (st : AgentStep) (v : JsValue) : AgentStep :=
  {| step_iteration := step_iteration st; thought := thought st;
     action := action st; observation := Some v; error := error st |}.

Definition with_error (st : AgentStep) (e : JsError) : AgentStep :=
  {| step_iteration := step_iteration st; thought := thought st;
     action := action st; observation := observation st; error := Some e |}.

(** The [try] block of [executeStep]: what was thrown, if anything, the
    step object as the block left it, the state, the log.  The message
    for the tool result is built after the [tool_result] event, and
    [JSON.stringify] may throw while it is built. *)
Definition executeStep_try (a : Agent) (s : AgentState) (st : AgentStep)
    (log : Log) : option Thrown * AgentStep * AgentState * Log :=
  match makeDecision a s with
  | inr t => (Some t, st, s, log)
  | inl decision =>
      let st := with_decision st decision in
      match d_action decision with
      | None => (None, st, s, log)
      | Some act =>
          match emitEvent a (EvToolCall (tool act) (input act)) log with
          | (Some t, log) => (Some t, st, s, log)
          | (None, log) =>
              match map_get (tool act) (tools a) with
              | None =>
                  (Some (ThrowError (Error ("Tool not found: " ++ tool act))),
                   st, s, log)
              | Some tl =>
                  match inputSchema tl (input act) with
                  | inr t => (Some t, st, s, log)
                  | inl validatedInput =>
                      match execute tl validatedInput with
                      | inr t => (Some t, st, s, log)
                      | inl result =>
                          let st := with_observation st result in
                          match emitEvent a (EvToolResult (tool act) result) log with
                          | (Some t, log) => (Some t, st, s, log)
                          | (None, log) =>
                              match JSON.stringify result with
                              | inr t => (Some t, st, s, log)
                              | inl text =>
                                  (None, st,
                                   push_message s
                                     {| role := RoleTool;
                                        content := Serialized text;
                                        msg_name := Some (tool act) |},
                                   log)
                              end
                          end
                      end
                  end
              end
          end
      end
  end.

(** [executeStep()]: the step, or what escaped the [catch] block. *)
Definition executeStep (a : Agent) (s : AgentState) (log : Log)
    : (AgentStep + Thrown) * AgentState * Log :=
  let st := {| step_iteration := iteration s; thought := EmptyString;
               action := None; observation := None; error := None |} in
  match executeStep_try a s st log with
  | (None, st, s, log) => (inl st, s, log)
  | (Some t, st, s, log) =>
      let st := with_error st (asError t) in
      match emitEvent a (EvError (asError t) (iteration s)) log with
      | (Some t', log) => (inr t', s, log)
      | (None, log) => (inl st, s, log)
      end
  end.

(** The condition of the [while] loop of [run]. *)
Definition loop_guard (a : Agent) (s : AgentState) : bool :=
  (iteration s <? maxIterations (config a)) && negb (isFinished s).

(** One pass through the body of the loop: [None] when it reached the end
    of the body, [Some t] when [t] was thrown out of it. *)
Definition loop_body (a : Agent) (s : AgentState) (log : Log)
    : option Thrown * AgentState * Log :=
  let s := next_iteration s in
  match executeStep a s log with
  | (inr t, s, log) => (Some t, s, log)
  | (inl st, s, log) =>
      let s := push_step s st in
      match emitEvent a (EvStep st) log with
      | (Some t, log) => (Some t, s, log)
      | (None, log) =>
          (None,
           match action st with
           | None => finished s (thought st)
           | Some _ => s
           end,
           log)
      end
  end.

(** The [while] loop, by recursion on a bound on the passes left. *)
Fixpoint run_loop_fuel (fuel : nat) (a : Agent) (s : AgentState) (log : Log)
    : option Thrown * AgentState * Log :=
  match fuel with
  | O => (None, s, log)
  | S fuel' =>
      if loop_guard a s then
        match loop_body a s log with
        | (Some t, s', log') => (Some t, s', log')
        | (None, s', log') => run_loop_fuel fuel' a s' log'
        end
      else (None, s, log)
  end.

(** The loop makes at most [maxIterations - iteration] passes (see
    [run_loop_unfold] below, which shows that this is the loop). *)
Definition run_loop (a : Agent) (s : AgentState) (log : Log)
    : option Thrown * AgentState * Log :=
  run_loop_fuel (Z.to_nat (maxIterations (config a) - iteration s)) a s log.

Definition has_error (st : AgentStep) : bool :=
  match error st with Some _ => true | None => false end.

(** The result built at the end of the [try] block of [run]. *)
Definition result_of (s : AgentState) : AgentResult :=
  {| output := match finalOutput s with
               | Some o => if truthy o then o else "No output generated"
               | None => "No output generated"
               end;
     res_steps := steps s;
     iterations := iteration s;
     success := isFinished s && negb (existsb has_error (steps s));
     res_error := None |}.

(** The [catch] block of [run]. *)
Definition run_catch (a : Agent) (s : AgentState) (t : Thrown) (log : Log)
    : Outcome AgentResult * Agent * Log :=
  let agentError := asError t in
  match emitEvent a (EvError agentError (iteration s)) log with
  | (Some t', log) => (Rejected t', with_state a s, log)
  | (None, log) =>
      (Returned {| output := EmptyString; res_steps := steps s;
                   iterations := iteration s; success := false;
                   res_error := Some agentError |},
       with_state a s, log)
  end.

(** [run(input)] *)
Definition run (a : Agent) (input : string) (log : Log)
    : Outcome AgentResult * Agent * Log :=
  match emitEvent a (EvStart (config a) input) log with
  | (Some t, log) => (Rejected t, a, log)
  | (None, log) =>
      let s := push_message (state a)
                 {| role := RoleUser; content := Plain input;
                    msg_name := None |} in
      match run_loop a s log with
      | (Some t, s, log) => run_catch a s t log
      | (None, s, log) =>
          let result := result_of s in
          match emitEvent a (EvFinish result) log with
          | (Some t, log) => run_catch a s t log
          | (None, log) => (Returned result, with_state a s, log)
          end
      end
  end.

End Core.

(* ================================================================== *)
(** * The Phase 0 revision of [agent.ts]: the constructor *)
(* ================================================================== *)

Module Phase0.
Import Core.

(** [new Agent(options)] in the Phase 0 revision: "Register tools BEFORE
    generating default system prompt so that tools are available in the
    prompt".  [defaultSystemPrompt] and [registerTool] are the same as in
    [agent.ts]; the runtime initialisation the constructor starts is
    outside the model.  (The [run] of this revision differs from the one
    above in one statement: it sets [isFinished] to false on entry.) *)
Definition constructor (decide : AgentState -> Decision + Thrown)
    (options : AgentOptions) : Agent :=
  let config0 :=
    {| cfg_name := opt_name options;
       cfg_description := opt_description options;
       maxIterations := default (opt_maxIterations options) 10;
       temperature := default (opt_temperature options) (QArith_base.Qmake 7 10);
       verbose := default (opt_verbose options) false;
       systemPrompt := EmptyString |} in
  let this :=
    {| config := config0; tools := []; listeners := [];
       state := initialState EmptyString; makeDecision := decide |} in
  let this :=
    match opt_tools options with
    | Some ts => fold_left (fun self t => registerTool t self) ts this
    | None => this
    end in
  let prompt :=
    default (opt_systemPrompt options)
            (defaultSystemPrompt (config this) (tools this)) in
  {| config :=
       {| cfg_name := cfg_name config0;
          cfg_description := cfg_description config0;
          maxIterations := maxIterations config0;
          temperature := temperature config0;
          verbose := verbose config0;
          systemPrompt := prompt |};
     tools := tools this;
     listeners := default (opt_listeners options) [];
     state := initialState prompt;
     makeDecision := makeDecision this |}.

(** [getName()] *)
Definition getName (a : Agent) : string := cfg_name (config a).

(** [this.state.isFinished = false], the first statement of [run] in this
    revision. *)
Definition unfinished (s : AgentState) : AgentState :=
  {| iteration := iteration s; messages := messages s;
     steps := steps s; isFinished := false;
     finalOutput := finalOutput s |}.

(** [run(input)] of the Phase 0 revision: the flag is reset (also when the
    [start] event then throws); the rest is the [run] of [agent.ts]. *)
Definition run (a : Agent) (input : string) (log : Log)
    : Outcome AgentResult * Agent * Log :=
  Core.run (with_state a (unfinished (state a))) input log.

End Phase0.

(* ================================================================== *)
(** * [src/agent/tools/registry.ts] *)
(* ================================================================== *)

Module Registry.

(** A [Set<string>] of a category, in insertion order. *)
Definition set_add (x : string) (xs : list string) : list string :=
  if existsb (String.eqb x) xs then xs else (xs ++ [x])%list.

Definition set_delete (x : string) (xs : list string) : list string :=
  filter (fun y => negb (String.eqb y x)) xs.

Record ToolRegistry : Type := {
  reg_tools : JsMap Tool;
  categories : JsMap (list string)
}.

Definition empty : ToolRegistry := {| reg_tools := []; categories := [] |}.

(** [register(tool, category?)]: throws when the name is taken. *)
Definition register (t : Tool) (category : option string) (r : ToolRegistry)
    : ToolRegistry + Thrown :=
  if map_has (name t) (reg_tools r) then
    inr (ThrowError (Error ("Tool already registered: " ++ name t)))
  else
    let ts := map_set (name t) t (reg_tools r) in
    match category with
    | Some c =>
        if truthy c then
          let cats := if map_has c (categories r) then categories r
                      else map_set c [] (categories r) in
          let members := match map_get c cats with
                         | Some ms => ms
                         | None => []
                         end in
          inl {| reg_tools := ts;
                 categories := map_set c (set_add (name t) members) cats |}
        else inl {| reg_tools := ts; categories := categories r |}
    | None => inl {| reg_tools := ts; categories := categories r |}
    end.

(** [unregister(toolName)] *)
Definition unregister (toolName : string) (r : ToolRegistry)
    : bool * ToolRegistry :=
  (map_has toolName (reg_tools r),
   {| reg_tools := map_delete toolName (reg_tools r);
      categories := List.map (fun c => (fst c, set_delete toolName (snd c)))
                             (categories r) |}).

Definition get (toolName : string) (r : ToolRegistry) : option Tool :=
  map_get toolName (reg_tools r).

Definition has (toolName : string) (r : ToolRegistry) : bool :=
  map_has toolName (reg_tools r).

Definition getNames (r : ToolRegistry) : list string := map_keys (reg_tools r).

(** [execute(toolName, input)] *)
Definition execute (toolName : string) (input : JsValue) (r : ToolRegistry)
    : JsValue + Thrown :=
  match map_get toolName (reg_tools r) with
  | None => inr (ThrowError (Error ("Tool not found: " ++ toolName)))
  | Some t =>
      match inputSchema t input with
      | inr e => inr e
      | inl validatedInput => Types.execute t validatedInput
      end
  end.

Definition clear (_ : ToolRegistry) : ToolRegistry := empty.

(** [getAll()] *)
Definition getAll (r : ToolRegistry) : list Tool := map_values (reg_tools r).

(** [getCategories()] *)
Definition getCategories (r : ToolRegistry) : list string :=
  map_keys (categories r).

(** [.map((name) => this.tools.get(name)).filter((tool) => tool !== undefined)] *)
Fixpoint lookup_all (names : list string) (ts : JsMap Tool) : list Tool :=
  match names with
  | [] => []
  | n :: rest =>
      match map_get n ts with
      | Some t => t :: lookup_all rest ts
      | None => lookup_all rest ts
      end
  end.

(** [getByCategory(category)] *)
Definition getByCategory (category : string) (r : ToolRegistry) : list Tool :=
  match map_get category (categories r) with
  | None => []
  | Some toolNames => lookup_all toolNames (reg_tools r)
  end.

End Registry.

(* ================================================================== *)
(** * [src/agent/memory/short-term.ts] *)
(* ================================================================== *)

Module ShortTerm.

Record ShortTermMemory : Type := {
  store : JsMap JsValue;
  maxSize : Z;
  insertionOrder : list string
}.

(** [new ShortTermMemory(maxSize = 100)] *)
Definition constructor (size : option Z) : ShortTermMemory :=
  {| store := [];
     maxSize := match size with Some n => n | None => 100 end;
     insertionOrder := [] |}.

(** The eviction loop of [save]:
    [while (insertionOrder.length > maxSize) { oldestKey = shift(); if (oldestKey) store.delete(oldestKey) }].
    On the empty array [shift()] returns [undefined] and changes nothing,
    so with a negative [maxSize] the loop does not end: [None]. *)
Fixpoint evict (limit : Z) (order : list string) (st : JsMap JsValue)
    : option (list string * JsMap JsValue) :=
  if Z.of_nat (List.length order) >? limit then
    match order with
    | [] => None
    | oldestKey :: rest =>
        evict limit rest
              (if truthy oldestKey then map_delete oldestKey st else st)
    end
  else Some (order, st).

(** [save(key, value)]; [None] when the call does not return. *)
Definition save (key : string) (v : JsValue) (m : ShortTermMemory)
    : option ShortTermMemory :=
  let order :=
    if map_has key (store m)
    then filter (fun k => negb (String.eqb k key)) (insertionOrder m)
    else insertionOrder m in
  let st := map_set key v (store m) in
  let order := (order ++ [key])%list in
  match evict (maxSize m) order st with
  | Some (order', st') =>
      Some {| store := st'; maxSize := maxSize m; insertionOrder := order' |}
  | None => None
  end.

(** [get(key)]: [undefined] for a key the map does not hold. *)
Definition get (key : string) (m : ShortTermMemory) : JsValue :=
  match map_get key (store m) with
  | Some v => v
  | None => VUndefined
  end.

Definition delete (key : string) (m : ShortTermMemory) : ShortTermMemory :=
  {| store := map_delete key (store m);
     maxSize := maxSize m;
     insertionOrder :=
       filter (fun k => negb (String.eqb k key)) (insertionOrder m) |}.

Definition clear (m : ShortTermMemory) : ShortTermMemory :=
  {| store := []; maxSize := maxSize m; insertionOrder := [] |}.

Definition keys (m : ShortTermMemory) : list string := map_keys (store m).

Definition size (m : ShortTermMemory) : Z := map_size (store m).

(** Saving a list of entries one after the other. *)
Fixpoint save_all (entries : list (string * JsValue)) (m : ShortTermMemory)
    : option ShortTermMemory :=
  match entries with
  | [] => Some m
  | (k, v) :: rest =>
      match save k v m with
      | Some m' => save_all rest m'
      | None => None
      end
  end.

(** [Array.prototype.slice(start)]: a negative [start] counts from the
    end, and both ends are clamped. *)
Definition slice_from (A : Type) (start : Z) (l : list A) : list A :=
  let len := Z.of_nat (List.length l) in
  let k := if start <? 0 then Z.max (len + start) 0 else Z.min start len in
  skipn (Z.to_nat k) l.

Definition is_undefined (v : JsValue) : bool :=
  match v with VUndefined => true | _ => false end.

(** [getRecent(count)]: [this.insertionOrder.slice(-count)], each key with
    [this.store.get(key)], without the entries whose value is
    [undefined]. *)
Definition getRecent (count : Z) (m : ShortTermMemory)
    : list (string * JsValue) :=
  filter (fun entry => negb (is_undefined (snd entry)))
         (List.map (fun key => (key, get key m))
                   (slice_from (- count) (insertionOrder m))).

End ShortTerm.

(* ================================================================== *)
(** * [src/agent/memory/long-term.ts] *)
(* ================================================================== *)

Module LongTerm.
Import JSON.

(** The file system as this class sees it: the files that exist, by
    path; the directories that exist, besides the root and the working
    directory; the paths (files or directories) that the process may not
    touch; and the paths on which a write is cut short after the file was
    opened (the disk is full, say), each with the text the file is left
    with: a proper part of the text, so not a JSON text. *)
Record FileSystem : Type := {
  files : JsMap FileData;
  dirs : list string;
  denied : list string;
  interrupted : JsMap string
}.

(** The file system and the lines written by [console.error]. *)
Record Host : Type := {
  fs : FileSystem;
  console : list string
}.

Definition errno (c msg : string) : Thrown :=
  ThrowError {| err_name := "Error"; message := msg; code := Some c |}.

Definition is_denied (path : string) (f : FileSystem) : bool :=
  existsb (String.eqb path) (denied f).

(** [fs.readFile(path, 'utf-8')] *)
Definition readFile (path : string) (f : FileSystem) : FileData + Thrown :=
  if is_denied path f then
    inr (errno "EACCES" ("EACCES: permission denied, open '" ++ path ++ "'"))
  else
    match map_get path (files f) with
    | Some data => inl data
    | None =>
        inr (errno "ENOENT"
               ("ENOENT: no such file or directory, open '" ++ path ++ "'"))
    end.

(** The part of [path] before its last ['/'], if it has one. *)
Fixpoint before_last_slash (path : string) : option string :=
  match path with
  | EmptyString => None
  | String c rest =>
      match before_last_slash rest with
      | Some d => Some (String c d)
      | None => if Ascii.eqb c "/" then Some EmptyString else None
      end
  end.

(** [dirname(path)] of [node:path], for paths without a trailing slash. *)
Definition dirname (path : string) : string :=
  match before_last_slash path with
  | None => "."
  | Some EmptyString => "/"
  | Some d => d
  end.

Definition is_root (dir : string) : bool :=
  String.eqb dir "/" || String.eqb dir ".".

Definition dir_exists (dir : string) (f : FileSystem) : bool :=
  is_root dir || existsb (String.eqb dir) (dirs f).

(** A directory and the directories above it, nearest first. *)
Fixpoint chain (fuel : nat) (dir : string) : list string :=
  match fuel with
  | O => []
  | S n => if is_root dir then [] else dir :: chain n (dirname dir)
  end.

Definition with_ancestors (dir : string) : list string :=
  chain (S (String.length dir)) dir.

Definition add_dir (ds : list string) (d : string) : list string :=
  if existsb (String.eqb d) ds then ds else (ds ++ [d])%list.

(** [fs.mkdir(dir, { recursive: true })]: the directory and the missing
    ones above it are made. *)
Definition mkdir (dir : string) (f : FileSystem) : FileSystem + Thrown :=
  if is_denied dir f then
    inr (errno "EACCES" ("EACCES: permission denied, mkdir '" ++ dir ++ "'"))
  else
    inl {| files := files f;
           dirs := fold_left add_dir (with_ancestors dir) (dirs f);
           denied := denied f;
           interrupted := interrupted f |}.

(** [fs.writeFile(path, data, 'utf-8')]: the file system it leaves and
    what it throws, if anything.  The file is opened with flag ['w'],
    which empties it, before anything is written: a write that fails
    after that leaves the file with part of the text. *)
Definition writeFile (path : string) (data : FileData) (f : FileSystem)
    : FileSystem * option Thrown :=
  if is_denied path f then
    (f, Some (errno "EACCES"
                ("EACCES: permission denied, open '" ++ path ++ "'")))
  else if negb (dir_exists (dirname path) f) then
    (f, Some (errno "ENOENT"
                ("ENOENT: no such file or directory, open '" ++ path ++ "'")))
  else
    match map_get path (interrupted f) with
    | Some part =>
        ({| files := map_set path (RawText part) (files f);
            dirs := dirs f; denied := denied f;
            interrupted := interrupted f |},
         Some (errno "ENOSPC" "ENOSPC: no space left on device, write"))
    | None =>
        ({| files := map_set path data (files f);
            dirs := dirs f; denied := denied f;
            interrupted := interrupted f |},
         None)
    end.

(** [autoSaveTimer] holds the interval of the timer, when one was set. *)
Record LongTermMemory : Type := {
  store : JsMap JsValue;
  storagePath : string;
  autoSaveTimer : option Z;
  isDirty : bool
}.

Record LongTermMemoryOptions : Type := {
  opt_storagePath : string;
  opt_autoSaveInterval : option Z
}.

(** [new LongTermMemory(options)] *)
Definition constructor (options : LongTermMemoryOptions) : LongTermMemory :=
  {| store := [];
     storagePath := opt_storagePath options;
     autoSaveTimer :=
       match opt_autoSaveInterval options with
       | Some ms => if 0 <? ms then Some ms else None
       | None => None
       end;
     isDirty := false |}.

(** The [catch] block of [load]. *)
Definition load_catch (t : Thrown) (m : LongTermMemory) (h : Host)
    : LongTermMemory * Host :=
  let is_enoent :=
    match t with
    | ThrowError e =>
        match code e with
        | Some c => String.eqb c "ENOENT"
        | None => false
        end
    | ThrowOther _ => false
    end in
  ({| store := []; storagePath := storagePath m;
      autoSaveTimer := autoSaveTimer m; isDirty := isDirty m |},
   if is_enoent then h
   else {| fs := fs h;
           console := (console h ++ ["Error loading long-term memory:"])%list |}).

(** [load()] *)
Definition load (m : LongTermMemory) (h : Host) : LongTermMemory * Host :=
  match readFile (storagePath m) (fs h) with
  | inr t => load_catch t m h
  | inl data =>
      match JSON.parse data with
      | inr t => load_catch t m h
      | inl parsed =>
          match Object_entries parsed with
          | inr t => load_catch t m h
          | inl entries =>
              ({| store := map_of_entries entries;
                  storagePath := storagePath m;
                  autoSaveTimer := autoSaveTimer m;
                  isDirty := false |}, h)
          end
      end
  end.

(** The [catch] block of [persist]: report and throw again. *)
Definition persist_catch (t : Thrown) (m : LongTermMemory) (f : FileSystem)
    (h : Host) : option Thrown * LongTermMemory * Host :=
  (Some t, m,
   {| fs := f;
      console := (console h ++ ["Error persisting long-term memory:"])%list |}).

(** [persist()]: [None] when it resolves, [Some t] when it rejects. *)
Definition persist (m : LongTermMemory) (h : Host)
    : option Thrown * LongTermMemory * Host :=
  match mkdir (dirname (storagePath m)) (fs h) with
  | inr t => persist_catch t m (fs h) h
  | inl f =>
      let obj := Object_fromEntries (store m) in
      match JSON.stringify obj with
      | inr t => persist_catch t m f h
      | inl None =>
          persist_catch
            (ThrowError (TypeError "The data argument must be of type string"))
            m f h
      | inl (Some text) =>
          match writeFile (storagePath m) (JsonText text) f with
          | (f', Some t) => persist_catch t m f' h
          | (f', None) =>
              (None,
               {| store := store m; storagePath := storagePath m;
                  autoSaveTimer := autoSaveTimer m; isDirty := false |},
               {| fs := f'; console := console h |})
          end
      end
  end.

Definition save (key : string) (v : JsValue) (m : LongTermMemory)
    : LongTermMemory :=
  {| store := map_set key v (store m); storagePath := storagePath m;
     autoSaveTimer := autoSaveTimer m; isDirty := true |}.

Definition get (key : string) (m : LongTermMemory) : JsValue :=
  match map_get key (store m) with
  | Some v => v
  | None => VUndefined
  end.

Definition delete (key : string) (m : LongTermMemory) : LongTermMemory :=
  {| store := map_delete key (store m); storagePath := storagePath m;
     autoSaveTimer := autoSaveTimer m; isDirty := true |}.

Definition clear (m : LongTermMemory) : LongTermMemory :=
  {| store := []; storagePath := storagePath m;
     autoSaveTimer := autoSaveTimer m; isDirty := true |}.

Definition keys (m : LongTermMemory) : list string := map_keys (store m).

(** [export()]: [Object.fromEntries(this.store)] *)
Definition export (m : LongTermMemory) : JsValue :=
  Object_fromEntries (store m).

(** [import(data)], [data] given by its own properties. *)
Definition import (data : list (string * JsValue)) (m : LongTermMemory)
    : LongTermMemory :=
  {| store := fold_left (fun st kv => map_set (fst kv) (snd kv) st) data (store m);
     storagePath := storagePath m;
     autoSaveTimer := autoSaveTimer m; isDirty := true |}.

(** [dispose()] *)
Definition dispose (m : LongTermMemory) (h : Host)
    : option Thrown * LongTermMemory * Host :=
  if isDirty m then persist m h else (None, m, h).

(** [getStats()] *)
Record Stats : Type := {
  totalEntries : Z;
  stats_isDirty : bool;
  stats_storagePath : string
}.

Definition getStats (m : LongTermMemory) : Stats :=
  {| totalEntries := map_size (store m);
     stats_isDirty := isDirty m;
     stats_storagePath := storagePath m |}.

(** Saving a list of entries one after the other. *)
Definition save_all (entries : list (string * JsValue)) (m : LongTermMemory)
    : LongTermMemory :=
  fold_left (fun acc kv => save (fst kv) (snd kv) acc) entries m.

(** [getAll()] *)
Definition getAll (m : LongTermMemory) : list (string * JsValue) := store m.

End LongTerm.

(* ================================================================== *)
(** * [AgentRouter], the router kept with [src/agent/index.ts] *)
(* ================================================================== *)

Module Router.
Import Core.

(** [ExecutionStats].  [runtimeAvailabilityRate] is the quotient the code
    computes, kept exact. *)
Record ExecutionStats : Type := {
  totalExecutions : Z;
  runtimeExecutions : Z;
  placeholderExecutions : Z;
  runtimeAvailabilityRate : QArith_base.Q
}.

Record RouterConfig : Type := {
  preferRuntime : bool;
  telemetryEnabled : bool;
  verbose : bool
}.

(** The agents are objects shared with the caller; the router holds them
    by name, and a run through the router leaves its mark on the agent
    held. *)
Record AgentRouter : Type := {
  agents : JsMap Agent;
  config : RouterConfig;
  stats : ExecutionStats
}.

Definition zero_stats : ExecutionStats :=
  {| totalExecutions := 0; runtimeExecutions := 0;
     placeholderExecutions := 0;
     runtimeAvailabilityRate := QArith_base.Qmake 0 1 |}.

(** [new AgentRouter(config)], the optional fields given as options. *)
Definition constructor (prefer telemetry verb : option bool) : AgentRouter :=
  {| agents := [];
     config := {| preferRuntime := default prefer true;
                  telemetryEnabled := default telemetry true;
                  verbose := default verb false |};
     stats := zero_stats |}.

(** [registerAgent(agent)] *)
Definition registerAgent (a : Agent) (r : AgentRouter) : AgentRouter :=
  {| agents := map_set (Phase0.getName a) a (agents r);
     config := config r; stats := stats r |}.

(** [detectRuntimeUsage(result)].  The [metadata] that [run] builds has no
    [sessionId], so the second test of the source is never met. *)
Definition detectRuntimeUsage (result : AgentResult) : bool :=
  (1 <? Z.of_nat (List.length (res_steps result))).

(** [updateStats(usedRuntime)] *)
Definition updateStats (usedRuntime : bool) (st : ExecutionStats)
    : ExecutionStats :=
  let total := totalExecutions st + 1 in
  let runtime := if usedRuntime then runtimeExecutions st + 1
                 else runtimeExecutions st in
  {| totalExecutions := total;
     runtimeExecutions := runtime;
     placeholderExecutions :=
       if usedRuntime then placeholderExecutions st
       else placeholderExecutions st + 1;
     runtimeAvailabilityRate := QArith_base.Qmake runtime (Z.to_pos total) |}.

(** What [executeWithFallback] resolves to: the result and [usedRuntime]. *)
Record RoutedResult : Type := {
  result : AgentResult;
  usedRuntime : bool
}.

(** [executeWithFallback(agentName, input)].  [runtimeAvailable] is what
    [isRuntimeAvailable()] finds (whether [@dcyfr/ai] can be imported).
    The telemetry the method may log is not modelled. *)
Definition executeWithFallback (runtimeAvailable : bool) (agentName : string)
    (input : string) (r : AgentRouter) (log : Log)
    : Outcome RoutedResult * AgentRouter * Log :=
  match map_get agentName (agents r) with
  | None =>
      (Rejected (ThrowError
                   (Error ("Agent '" ++ agentName ++ "' not registered"))),
       r, log)
  | Some agent =>
      match Phase0.run agent input log with
      | (Rejected t, agent', log') =>
          (Rejected t,
           {| agents := map_set agentName agent' (agents r);
              config := config r; stats := stats r |},
           log')
      | (Returned res, agent', log') =>
          let used := runtimeAvailable && detectRuntimeUsage res in
          (Returned {| result := res; usedRuntime := used |},
           {| agents := map_set agentName agent' (agents r);
              config := config r;
              stats := updateStats used (stats r) |},
           log')
      end
  end.

(** [getStats()] *)
Definition getStats (r : AgentRouter) : ExecutionStats := stats r.

(** [resetStats()] *)
Definition resetStats (r : AgentRouter) : AgentRouter :=
  {| agents := agents r; config := config r; stats := zero_stats |}.

End Router.

(* ================================================================== *)
(** * Vocabulary of the properties *)
(* ================================================================== *)

Module Observations.
Import Core.

(** One event handed to [n] listeners in the order of registration. *)
Definition deliveries (n : nat) (ev : AgentEvent) : Log :=
  List.map (fun i => (i, ev)) (seq 0 n).


(** No listener throws. *)
Definition quiet (ls : list AgentEventListener) : Prop :=
  forall l ev, In l ls -> l ev = None.

(** [isFinished] is set exactly when a recorded step has no action: so
    it is on a new agent, after [reset()], and after every run that
    returned from the [try] block. *)
Definition settled (s : AgentState) : Prop :=
  isFinished s = true <-> exists st, In st (steps s) /\ action st = None.

(** What the state of an agent satisfies before and after every run, for
    the ceiling [k]. *)
Definition within (k : Z) (s : AgentState) : Prop :=
  iteration s <= k /\
  (isFinished s = true -> exists st, In st (steps s) /\ action st = None).

(** A step leaves the counter, the recorded steps and the finish flag to
    the loop around it. *)
Definition same_control (s s' : AgentState) : Prop :=
  iteration s' = iteration s /\ steps s' = steps s /\
  isFinished s' = isFinished s /\ finalOutput s' = finalOutput s.



(** The ways the dispatch of an action fails inside a step: the name is
    not registered, the input does not validate, the tool throws. *)
Inductive dispatch_fails (a : Agent) (act : Action) : Thrown -> Prop :=
| fails_not_found :
    map_get (tool act) (tools a) = None ->
    dispatch_fails a act
      (ThrowError (Error ("Tool not found: " ++ tool act)))
| fails_validation tl t :
    map_get (tool act) (tools a) = Some tl ->
    inputSchema tl (input act) = inr t ->
    dispatch_fails a act t
| fails_execute tl v t :
    map_get (tool act) (tools a) = Some tl ->
    inputSchema tl (input act) = inl v ->
    execute tl v = inr t ->
    dispatch_fails a act t.

End Observations.

(* ================================================================== *)
(** * Agents, tools and listeners used as concrete inputs *)
(* ================================================================== *)

Module Examples.
Import Core.

Definition number_field (k : string) (v : JsValue) : option JsNumber :=
  match v with
  | VObject props =>
      match map_get k props with
      | Some (VNumber x) => Some x
      | _ => None
      end
  | _ => None
  end.

Definition ZodError (msg : string) : Thrown :=
  ThrowError {| err_name := "ZodError"; message := msg; code := None |}.

(** A stand-in for the calculator of the examples: the input is an object
    with numbers [a] and [b]; the output is their sum. *)
Definition calculator : Tool :=
  {| name := "calculator";
     description := "Performs basic arithmetic operations";
     inputSchema := fun v =>
       match number_field "a" v, number_field "b" v with
       | Some _, Some _ => inl v
       | _, _ => inr (ZodError "Invalid input")
       end;
     execute := fun v =>
       match number_field "a" v, number_field "b" v with
       | Some x, Some y => inl (VNumber (PrimFloat.add x y))
       | _, _ => inr (ThrowError (Error "Tool execution failed"))
       end |}.

(** Two tools that share a name. *)
Definition lookup_v1 : Tool :=
  {| name := "lookup"; description := "first";
     inputSchema := fun v => inl v;
     execute := fun _ => inl (VString "v1") |}.

Definition lookup_v2 : Tool :=
  {| name := "lookup"; description := "second";
     inputSchema := fun v => inl v;
     execute := fun _ => inl (VString "v2") |}.

(** A listener that only records. *)
Definition recorder : AgentEventListener := fun _ => None.

Definition options (max : Z) (ts : list Tool)
    (ls : list AgentEventListener) : AgentOptions :=
  {| opt_name := "Test Agent";
     opt_description := "Agent for testing";
     opt_maxIterations := Some max;
     opt_temperature := None;
     opt_verbose := None;
     opt_systemPrompt := None;
     opt_tools := Some ts;
     opt_listeners := Some ls |}.

(** Always asks for a tool nobody registered. *)
Definition ask_ghost (_ : AgentState) : Decision + Thrown :=
  inl {| d_thought := "x";
         d_action := Some {| tool := "ghost"; input := VObject [] |} |}.

(** Always asks for the sum of 5 and 3. *)
Definition ask_sum (_ : AgentState) : Decision + Thrown :=
  inl {| d_thought := "Using calculator";
         d_action :=
           Some {| tool := "calculator";
                   input := VObject [("a", VNumber 5%float);
                                     ("b", VNumber 3%float)] |} |}.


Definition ghost_agent : Agent :=
  constructor ask_ghost (options 2 [] [recorder; recorder]).


Definition idle_agent : Agent :=
  constructor placeholderDecision (options 5 [] [recorder]).


(** Hosts and stores for the durable memory. *)
Definition memory_options : LongTerm.LongTermMemoryOptions :=
  {| LongTerm.opt_storagePath := "/tmp/test-memory.json";
     LongTerm.opt_autoSaveInterval := Some 0 |}.

(** Nothing on disk, nothing forbidden. *)
Definition empty_host : LongTerm.Host :=
  {| LongTerm.fs := {| LongTerm.files := []; LongTerm.dirs := [];
                       LongTerm.denied := []; LongTerm.interrupted := [] |};
     LongTerm.console := [] |}.

(** The storage file holds text that is not JSON. *)
Definition corrupted_host : LongTerm.Host :=
  {| LongTerm.fs :=
       {| LongTerm.files :=
            [("/tmp/test-memory.json", JSON.RawText "invalid json {[}")];
          LongTerm.dirs := ["/tmp"];
          LongTerm.denied := []; LongTerm.interrupted := [] |};
     LongTerm.console := [] |}.

(** A durable store after two saves of JSON values. *)
Definition saved_memory : LongTerm.LongTermMemory :=
  LongTerm.save "key2" (VObject [("nested", VString "value")])
    (LongTerm.save "key1" (VString "value1")
       (LongTerm.constructor memory_options)).

(** A durable store after one save. *)
Definition dirty_memory : LongTerm.LongTermMemory :=
  LongTerm.save "key1" (VString "value1")
    (LongTerm.constructor memory_options).

(** A durable store holding [undefined] under a key. *)
Definition memory_with_undefined : LongTerm.LongTermMemory :=
  LongTerm.save "k" VUndefined (LongTerm.constructor memory_options).

(** A durable store holding [NaN] under a key. *)
Definition memory_with_nan : LongTerm.LongTermMemory :=
  LongTerm.save "score" (VNumber nan) (LongTerm.constructor memory_options).

(** A durable store holding [-0] under a key. *)
Definition memory_with_negative_zero : LongTerm.LongTermMemory :=
  LongTerm.save "delta" (VNumber (-0)%float)
    (LongTerm.constructor memory_options).

(** A durable store holding a BigInt under a key. *)
Definition memory_with_bigint : LongTerm.LongTermMemory :=
  LongTerm.save "big" (VBigInt 1) (LongTerm.constructor memory_options).

(** A durable store whose keys include array indices, saved in another
    order than an object lists them, and whose values include a number
    that is not an integer. *)
Definition memory_with_index_keys : LongTerm.LongTermMemory :=
  LongTerm.save "1" (VNumber 0.5%float)
    (LongTerm.save "b" (VString "bee")
       (LongTerm.save "10" (VObject [("nested", VString "value")])
          (LongTerm.constructor memory_options))).




(** Options that bring the calculator and no prompt. *)
Definition calculator_options : AgentOptions :=
  options 5 [calculator] [].

End Examples.

(* ================================================================== *)
(** * Vocabulary of the further properties *)
(* ================================================================== *)

Module Invariants.
Import Core.

(** ** Objects *)

(** The order of the array indices among the properties of an object. *)
Definition by_index (V : Type) (p q : N * (string * V)) : Prop :=
  (fst p <= fst q)%N.

(** An entry filed under the array index its key denotes. *)
Definition filed (V : Type) (p : N * (string * V)) : Prop :=
  array_index (fst (snd p)) = Some (fst p).

(** A key that is not an array index. *)
Definition plain_key (V : Type) (kv : string * V) : bool :=
  match array_index (fst kv) with Some _ => false | None => true end.

(** ** The agent *)

(** The events one recorded step stands for. *)
Definition step_events (st : AgentStep) : list AgentEvent :=
  (match action st with
   | Some act => [EvToolCall (tool act) (input act)]
   | None => []
   end
   ++ match action st, observation st with
      | Some act, Some out => [EvToolResult (tool act) out]
      | _, _ => []
      end
   ++ match error st with
      | Some e => [EvError e (step_iteration st)]
      | None => []
      end
   ++ [EvStep st])%list.

(** The message one recorded step left in the history, if any: the one
    for the output of the tool, when the step got one and did not fail
    after it. *)
Definition step_messages (st : AgentStep) : list AgentMessage :=
  match action st, observation st, error st with
  | Some act, Some out, None =>
      match JSON.stringify out with
      | inl text =>
          [ {| role := RoleTool; content := Serialized text;
               msg_name := Some (tool act) |} ]
      | inr _ => []
      end
  | _, _, _ => []
  end.

(** The message [run] puts into the history for its input. *)
Definition user_message (goal : string) : AgentMessage :=
  {| role := RoleUser; content := Plain goal; msg_name := None |}.

(** Each of [events] handed to [n] listeners, one event after the other. *)
Definition broadcast (n : nat) (events : list AgentEvent) : Log :=
  flat_map (Observations.deliveries n) events.

(** The steps are numbered 1, 2, ... and the counter is their number. *)
Definition numbered (s : AgentState) : Prop :=
  List.map step_iteration (steps s) =
    List.map Z.of_nat (seq 1 (List.length (steps s))) /\
  iteration s = Z.of_nat (List.length (steps s)).

(** ** The registry *)

(** The registries the methods build. *)
Inductive built : Registry.ToolRegistry -> Prop :=
| built_empty : built Registry.empty
| built_register t category r r' :
    built r -> Registry.register t category r = inl r' -> built r'
| built_unregister toolName r :
    built r -> built (snd (Registry.unregister toolName r))
| built_clear r : built r -> built (Registry.clear r).

(** The names recorded in a category; none for a category that is not
    there. *)
Definition members_of (c : string) (r : Registry.ToolRegistry) : list string :=
  match map_get c (Registry.categories r) with Some ms => ms | None => [] end.

(** Every tool is stored under its own name, every member of a category
    is a registered tool and is listed once, and no name is in two
    categories.  (The two [NoDup] on keys say that the lists stand for
    maps.) *)
Definition consistent (r : Registry.ToolRegistry) : Prop :=
  NoDup (map_keys (Registry.reg_tools r)) /\
  NoDup (map_keys (Registry.categories r)) /\
  (forall n t, map_get n (Registry.reg_tools r) = Some t -> name t = n) /\
  (forall c members,
     map_get c (Registry.categories r) = Some members ->
     NoDup members /\
     forall n, In n members -> map_has n (Registry.reg_tools r) = true) /\
  (forall c1 c2 m1 m2 n,
     map_get c1 (Registry.categories r) = Some m1 ->
     map_get c2 (Registry.categories r) = Some m2 ->
     In n m1 -> In n m2 -> c1 = c2).

(** ** The bounded store *)

(** The stores the methods build from a capacity that is not negative,
    with keys other than the empty string. *)
Inductive kept : ShortTerm.ShortTermMemory -> Prop :=
| kept_new n : 0 <= n -> kept (ShortTerm.constructor (Some n))
| kept_save k v m m' :
    kept m -> k <> EmptyString -> ShortTerm.save k v m = Some m' -> kept m'
| kept_delete k m : kept m -> kept (ShortTerm.delete k m)
| kept_clear m : kept m -> kept (ShortTerm.clear m).

(** The insertion order lists the keys of the map, once each, and is
    within the capacity. *)
Definition in_step (m : ShortTerm.ShortTermMemory) : Prop :=
  NoDup (ShortTerm.insertionOrder m) /\
  NoDup (map_keys (ShortTerm.store m)) /\
  (forall k, In k (ShortTerm.insertionOrder m) <->
             In k (map_keys (ShortTerm.store m))) /\
  (forall k, In k (ShortTerm.insertionOrder m) -> k <> EmptyString) /\
  Z.of_nat (List.length (ShortTerm.insertionOrder m)) <= ShortTerm.maxSize m.

(** ** The router *)

(** The counters add up. *)
Definition tallied (st : Router.ExecutionStats) : Prop :=
  0 <= Router.runtimeExecutions st /\
  0 <= Router.placeholderExecutions st /\
  Router.totalExecutions st =
    Router.runtimeExecutions st + Router.placeholderExecutions st.

End Invariants.

(* ================================================================== *)
(** * Further concrete inputs *)
(* ================================================================== *)

Module MoreExamples.
Import Core Examples.

(** A listener that throws on every event. *)
Definition thrower : AgentEventListener :=
  fun _ => Some (ThrowError (Error "listener failed")).

(** Asks for the sum once, then finishes. *)
Definition sum_then_done (s : AgentState) : Decision + Thrown :=
  if iteration s =? 1 then ask_sum s
  else inl {| d_thought := "Task complete"; d_action := None |}.

Definition two_step_agent : Agent :=
  constructor sum_then_done (options 2 [calculator] [recorder]).

(** The step a run of the agent that asks for the unregistered tool
    records, and the agent after such a run. *)
Definition ghost_step : AgentStep :=
  {| step_iteration := 1; thought := "x";
     action := Some {| tool := "ghost"; input := VObject [] |};
     observation := None;
     error := Some (Error "Tool not found: ghost") |}.

Definition after_ghost_run : Agent :=
  snd (fst (run ghost_agent "Test" [])).

(** A new agent whose middle listener throws. *)
Definition guarded_agent : Agent :=
  constructor placeholderDecision (options 5 [] [recorder; thrower; recorder]).

(** A registry with the calculator under "math" and a lookup tool without
    category. *)
Definition sample_registry : Registry.ToolRegistry :=
  {| Registry.reg_tools := [("calculator", calculator); ("lookup", lookup_v1)];
     Registry.categories := [("math", ["calculator"])] |}.

(** A bounded store of capacity 2 holding two keys. *)
Definition full_store : ShortTerm.ShortTermMemory :=
  {| ShortTerm.store := [("k1", VNumber 1%float); ("k2", VNumber 2%float)];
     ShortTerm.maxSize := 2;
     ShortTerm.insertionOrder := ["k1"; "k2"] |}.

(** A host with an older storage file, on which the next write of that
    file is cut short after the opening brace. *)
Definition full_disk_host : LongTerm.Host :=
  {| LongTerm.fs :=
       {| LongTerm.files :=
            [("/tmp/test-memory.json", JSON.JsonText (JSON.JObject []));
             ("/tmp/other.json", JSON.JsonText (JSON.JObject []))];
          LongTerm.dirs := ["/tmp"];
          LongTerm.denied := [];
          LongTerm.interrupted := [("/tmp/test-memory.json", "{")] |};
     LongTerm.console := [] |}.

(** A new agent of the Phase 0 revision with the placeholder decision. *)
Definition placeholder_agent : Agent :=
  Phase0.constructor placeholderDecision (options 5 [] [recorder]).


(** A router that holds it. *)
Definition sample_router : Router.AgentRouter :=
  Router.registerAgent placeholder_agent (Router.constructor None None None).

End MoreExamples.

(* ================================================================== *)
(** * Properties *)
(* ================================================================== *)

Local Open Scope list_scope.

(** ** Ordered maps *)

Module MapFacts.

Section WithValues.
Variable V : Type.
Implicit Types (m : JsMap V) (k : string) (v : V).

Lemma map_get_set_same k v m : map_get k (map_set k v m) = Some v.
Proof.
  induction m as [|[k' v'] m IH]; simpl.
  - rewrite String.eqb_refl. reflexivity.
  - destruct (String.eqb k' k) eqn:E; simpl; rewrite E; [reflexivity|exact IH].
Qed.

Lemma map_get_set_other k k' v m :
  k' <> k -> map_get k' (map_set k v m) = map_get k' m.
Proof.
  intros Hne. induction m as [|[k0 v0] m IH]; simpl.
  - destruct (String.eqb_spec k k'); [congruence|reflexivity].
  - destruct (String.eqb_spec k0 k) as [->|Hk]; simpl.
    + destruct (String.eqb_spec k k'); [congruence|reflexivity].
    + destruct (String.eqb k0 k'); [reflexivity|exact IH].
Qed.

Lemma map_has_set k v m : map_has k (map_set k v m) = true.
Proof. unfold map_has. rewrite map_get_set_same. reflexivity. Qed.

Lemma map_get_absent k m : ~ In k (map_keys m) -> map_get k m = None.
Proof.
  induction m as [|[k' v'] m IH]; simpl; intros H; [reflexivity|].
  destruct (String.eqb_spec k' k) as [->|Hk].
  - exfalso. apply H. left. reflexivity.
  - apply IH. intros Hin. apply H. right. exact Hin.
Qed.

Lemma map_get_present k v m :
  NoDup (map_keys m) -> In (k, v) m -> map_get k m = Some v.
Proof.
  induction m as [|[k' v'] m IH]; simpl; intros Hnd Hin; [contradiction|].
  inversion Hnd as [|? ? Hnotin Hnd']; subst.
  destruct Hin as [Heq|Hin].
  - inversion Heq; subst. rewrite String.eqb_refl. reflexivity.
  - destruct (String.eqb_spec k' k) as [->|Hk]; [|apply IH; assumption].
    exfalso. apply Hnotin. apply (in_map fst) in Hin. exact Hin.
Qed.

Lemma map_set_absent k v m :
  ~ In k (map_keys m) -> map_set k v m = m ++ [(k, v)].
Proof.
  induction m as [|[k' v'] m IH]; simpl; intros H; [reflexivity|].
  destruct (String.eqb_spec k' k) as [->|Hk].
  - exfalso. apply H. left. reflexivity.
  - rewrite IH; [reflexivity|]. intros Hin. apply H. right. exact Hin.
Qed.

Lemma map_set_keys k v m :
  map_keys (map_set k v m) =
  if map_has k m then map_keys m else map_keys m ++ [k].
Proof.
  unfold map_has. induction m as [|[k' v'] m IH]; simpl; [reflexivity|].
  destruct (String.eqb_spec k' k) as [->|Hk]; simpl; [reflexivity|].
  rewrite IH. destruct (map_get k m); reflexivity.
Qed.

Lemma map_has_in k m : map_has k m = true <-> In k (map_keys m).
Proof.
  unfold map_has. induction m as [|[k' v'] m IH]; simpl.
  - split; [discriminate|contradiction].
  - destruct (String.eqb_spec k' k) as [->|Hk].
    + split; auto.
    + rewrite IH. split; [auto|]. intros [H|H]; [congruence|exact H].
Qed.

Lemma map_set_nodup k v m :
  NoDup (map_keys m) -> NoDup (map_keys (map_set k v m)).
Proof.
  intros H. rewrite map_set_keys.
  destruct (map_has k m) eqn:E; [exact H|].
  apply NoDup_app; [exact H|repeat constructor; intros []|].
  intros x Hx [<-|[]]. apply map_has_in in Hx. congruence.
Qed.

Lemma fold_set_nodup (l : list (string * V)) m :
  NoDup (map_keys m) ->
  NoDup (map_keys (fold_left (fun acc kv => map_set (fst kv) (snd kv) acc) l m)).
Proof.
  revert m. induction l as [|[k v] l IH]; intros m H; simpl; [exact H|].
  apply IH, map_set_nodup, H.
Qed.

Lemma map_of_entries_nodup (l : list (string * V)) :
  NoDup (map_keys (map_of_entries l)).
Proof. apply fold_set_nodup. constructor. Qed.

Lemma fold_set_fresh (l : list (string * V)) m :
  NoDup (map_keys (m ++ l)) ->
  fold_left (fun acc kv => map_set (fst kv) (snd kv) acc) l m = m ++ l.
Proof.
  revert m. induction l as [|[k v] l IH]; intros m H; simpl.
  - rewrite app_nil_r. reflexivity.
  - assert (Hm : ~ In k (map_keys m)).
    { unfold map_keys in *. rewrite map_app in H. simpl in H.
      apply NoDup_remove_2 in H. intros Hin. apply H.
      apply in_or_app. left. exact Hin. }
    rewrite (map_set_absent k v m Hm).
    rewrite IH; rewrite <- app_assoc; [reflexivity|exact H].
Qed.

(** Entries with distinct keys are the map they build. *)
Lemma map_of_entries_fresh (l : list (string * V)) :
  NoDup (map_keys l) -> map_of_entries l = l.
Proof. intros H. unfold map_of_entries. apply (fold_set_fresh l []). exact H. Qed.

Lemma map_of_entries_idempotent (l : list (string * V)) :
  map_of_entries (map_of_entries l) = map_of_entries l.
Proof. apply map_of_entries_fresh, map_of_entries_nodup. Qed.

End WithValues.
End MapFacts.



(* ================================================================== *)
(** * The order of the properties of an object *)
(* ================================================================== *)

Module OrderFacts.
Import MapFacts Invariants.

Section WithValues.
Variable V : Type.
Implicit Types (l : JsMap V) (k : string) (v : V).

Lemma own_order_eq l :
  own_order l = List.map snd (index_entries l) ++ filter (@plain_key V) l.
Proof. reflexivity. Qed.

Lemma place_perm n (e : string * V) s :
  Permutation (place n e s) ((n, e) :: s).
Proof.
  induction s as [|[n' e'] s IH]; cbn; [apply Permutation_refl|].
  destruct (n <=? n')%N; [apply Permutation_refl|].
  eapply Permutation_trans; [apply perm_skip; exact IH|apply perm_swap].
Qed.

Lemma place_front n (e : string * V) s :
  HdRel (@by_index V) (n, e) s -> place n e s = (n, e) :: s.
Proof.
  intros H. destruct s as [|[n' e'] s]; [reflexivity|].
  inversion H as [|? ? Hle]; subst. unfold by_index in Hle. cbn in Hle.
  cbn. apply N.leb_le in Hle. rewrite Hle. reflexivity.
Qed.

Lemma place_hdrel n (e : string * V) p s :
  by_index p (n, e) -> HdRel (@by_index V) p s ->
  HdRel (@by_index V) p (place n e s).
Proof.
  intros Hp H. destruct s as [|[n' e'] s]; cbn.
  - constructor. exact Hp.
  - destruct (n <=? n')%N; constructor; [exact Hp|].
    inversion H; assumption.
Qed.

Lemma place_sorted n (e : string * V) s :
  Sorted (@by_index V) s -> Sorted (@by_index V) (place n e s).
Proof.
  induction 1 as [|[n' e'] s Hs IH Hh]; cbn.
  - repeat constructor.
  - destruct (n <=? n')%N eqn:E.
    + constructor; [constructor; assumption|].
      constructor. unfold by_index. cbn. apply N.leb_le. exact E.
    + constructor; [exact IH|].
      apply place_hdrel; [|exact Hh].
      unfold by_index. cbn. apply N.leb_gt in E. lia.
Qed.

Lemma place_filed n (e : string * V) s :
  filed (n, e) -> Forall (@filed V) s -> Forall (@filed V) (place n e s).
Proof.
  intros He Hs.
  apply Forall_forall. intros x Hx.
  apply (Permutation_in _ (place_perm n e s)) in Hx.
  destruct Hx as [<-|Hx]; [exact He|].
  rewrite Forall_forall in Hs. apply Hs. exact Hx.
Qed.

Lemma index_entries_sorted l : Sorted (@by_index V) (index_entries l).
Proof.
  induction l as [|[k v] l IH]; cbn; [constructor|].
  destruct (array_index k); [apply place_sorted|]; exact IH.
Qed.

Lemma index_entries_filed l : Forall (@filed V) (index_entries l).
Proof.
  induction l as [|[k v] l IH]; cbn; [constructor|].
  destruct (array_index k) as [n|] eqn:E; [|exact IH].
  apply place_filed; [exact E|exact IH].
Qed.

Lemma index_entries_of_sorted (s : list (N * (string * V))) :
  Sorted (@by_index V) s -> Forall (@filed V) s ->
  index_entries (List.map snd s) = s.
Proof.
  induction 1 as [|[n [k v]] s Hs IH Hh]; intros Hf; [reflexivity|].
  inversion Hf as [|? ? Hp Hf']; subst. unfold filed in Hp. cbn in Hp.
  cbn. rewrite Hp, (IH Hf'). apply place_front. exact Hh.
Qed.

Lemma index_entries_plain l :
  forallb (@plain_key V) l = true -> index_entries l = [].
Proof.
  induction l as [|[k v] l IH]; cbn; [reflexivity|].
  unfold plain_key at 1. cbn. destruct (array_index k); [discriminate|].
  exact IH.
Qed.

Lemma index_entries_app (s : list (N * (string * V))) l :
  Forall (@filed V) s -> forallb (@plain_key V) l = true ->
  index_entries (List.map snd s ++ l) = index_entries (List.map snd s).
Proof.
  intros Hf Hl. induction s as [|[n [k v]] s IH]; cbn.
  - apply index_entries_plain. exact Hl.
  - inversion Hf as [|? ? Hp Hf']; subst. rewrite (IH Hf'). reflexivity.
Qed.

Lemma filter_plain_filed (s : list (N * (string * V))) :
  Forall (@filed V) s -> filter (@plain_key V) (List.map snd s) = [].
Proof.
  induction 1 as [|[n [k v]] s Hp _ IH]; cbn; [reflexivity|].
  unfold filed in Hp. cbn in Hp. unfold plain_key at 1. cbn.
  rewrite Hp. exact IH.
Qed.

Lemma filter_plain_twice l :
  filter (@plain_key V) (filter (@plain_key V) l) = filter (@plain_key V) l.
Proof.
  apply forallb_filter_id. apply forallb_forall.
  intros x Hx. apply filter_In in Hx. apply Hx.
Qed.

(** Ordering the properties changes nothing the second time. *)
Lemma own_order_idempotent l : own_order (own_order l) = own_order l.
Proof.
  rewrite (own_order_eq (own_order l)), (own_order_eq l).
  pose proof (index_entries_filed l) as Hf.
  pose proof (index_entries_sorted l) as Hs.
  assert (Hp : forallb (@plain_key V) (filter (@plain_key V) l) = true).
  { apply forallb_forall. intros x Hx. apply filter_In in Hx. apply Hx. }
  rewrite (index_entries_app _ Hf Hp), (index_entries_of_sorted Hs Hf).
  rewrite filter_app, (filter_plain_filed Hf), filter_plain_twice.
  reflexivity.
Qed.

(** It keeps the properties and moves them only. *)
Lemma own_order_perm l : Permutation (own_order l) l.
Proof.
  induction l as [|[k v] l IH]; [apply Permutation_refl|].
  rewrite own_order_eq. rewrite own_order_eq in IH. cbn.
  unfold plain_key at 1. cbn.
  destruct (array_index k) as [n|].
  - eapply Permutation_trans.
    + apply Permutation_app_tail. apply Permutation_map. apply place_perm.
    + cbn. apply perm_skip. exact IH.
  - eapply Permutation_trans.
    + apply Permutation_sym. apply Permutation_middle.
    + apply perm_skip. exact IH.
Qed.

Lemma own_order_in l e : In e (own_order l) <-> In e l.
Proof.
  split; apply Permutation_in;
    [apply own_order_perm|apply Permutation_sym; apply own_order_perm].
Qed.

Lemma own_order_nodup l :
  NoDup (map_keys l) -> NoDup (map_keys (own_order l)).
Proof.
  intros H. unfold map_keys in *.
  eapply Permutation_NoDup; [|exact H].
  apply Permutation_map. apply Permutation_sym. apply own_order_perm.
Qed.

Lemma own_order_get k l :
  NoDup (map_keys l) -> map_get k (own_order l) = map_get k l.
Proof.
  intros H. pose proof (@own_order_nodup l H) as H'.
  destruct (map_get k l) as [v|] eqn:E.
  - apply map_get_present; [exact H'|]. apply own_order_in.
    clear H H'. induction l as [|[k0 v0] l IH]; cbn in *; [discriminate|].
    destruct (String.eqb_spec k0 k) as [->|Hk].
    + inversion E; subst. left. reflexivity.
    + right. apply IH. exact E.
  - apply map_get_absent. intros Hin.
    apply in_map_iff in Hin. destruct Hin as ([k' v'] & Hk & Hin). cbn in Hk.
    subst k'. apply (proj1 (own_order_in l (k, v'))) in Hin.
    rewrite (@map_get_present V k v' l H Hin) in E. discriminate.
Qed.

Lemma js_object_nodup (entries : list (string * V)) :
  NoDup (map_keys (js_object entries)).
Proof. apply own_order_nodup. apply map_of_entries_nodup. Qed.

Lemma js_object_fixed (entries : list (string * V)) :
  js_object (js_object entries) = js_object entries.
Proof.
  unfold js_object at 1.
  rewrite (map_of_entries_fresh (js_object entries) (js_object_nodup entries)).
  apply own_order_idempotent.
Qed.

Lemma js_object_in (entries : list (string * V)) e :
  In e (js_object entries) <-> In e (map_of_entries entries).
Proof. apply own_order_in. Qed.

Lemma js_object_get k (entries : list (string * V)) :
  map_get k (js_object entries) = map_get k (map_of_entries entries).
Proof. apply own_order_get. apply map_of_entries_nodup. Qed.

End WithValues.

End OrderFacts.

(** ** The execution loop *)

Module AgentFacts.
Import Core Observations Examples.

(** ** Listeners *)

Lemma emit_from_log i ls ev log r log' :
  emit_from i ls ev log = (r, log') ->
  exists n, (n <= List.length ls)%nat /\
    log' = (log ++ List.map (fun j => (j, ev)) (seq i n))%list /\
    (r = None -> n = List.length ls).
Proof.
  revert i log. induction ls as [|l ls IH]; intros i log H; simpl in H.
  - inversion H; subst. exists 0%nat. simpl. rewrite app_nil_r. auto.
  - destruct (l ev) as [t|] eqn:El.
    + inversion H; subst. exists 1%nat. simpl. split; [lia|].
      split; [reflexivity|discriminate].
    + apply IH in H. destruct H as (n & Hn & Hlog & Hr).
      exists (S n). simpl. split; [lia|]. split.
      * rewrite Hlog, <- app_assoc. reflexivity.
      * intros E. rewrite (Hr E). reflexivity.
Qed.

Lemma emitEvent_done a ev log log' :
  emitEvent a ev log = (None, log') ->
  log' = (log ++ deliveries (List.length (listeners a)) ev)%list.
Proof.
  unfold emitEvent, deliveries. intros H.
  apply emit_from_log in H. destruct H as (n & _ & Hlog & Hn).
  rewrite Hn in Hlog by reflexivity. exact Hlog.
Qed.

Lemma emit_from_quiet ls : quiet ls ->
  forall i ev log,
    emit_from i ls ev log =
    (None, (log ++ List.map (fun j => (j, ev)) (seq i (List.length ls)))%list).
Proof.
  induction ls as [|l ls IH]; intros Q i ev log; simpl.
  - rewrite app_nil_r. reflexivity.
  - rewrite (Q l ev) by (left; reflexivity).
    rewrite IH by (intros l' ev' Hin; apply Q; right; exact Hin).
    rewrite <- app_assoc. reflexivity.
Qed.

(** ** What a step leaves alone *)

Lemma same_control_refl s : same_control s s.
Proof. repeat split. Qed.

Lemma executeStep_try_control a s st log r st' s' log' :
  executeStep_try a s st log = (r, st', s', log') -> same_control s s'.
Proof.
  unfold executeStep_try. intros H.
  repeat match type of H with
  | context [match ?x with _ => _ end] => destruct x eqn:?
  end; inversion H; subst; try apply same_control_refl.
  repeat split.
Qed.

Lemma executeStep_control a s log r s' log' :
  executeStep a s log = (r, s', log') -> same_control s s'.
Proof.
  unfold executeStep. intros H.
  destruct (executeStep_try _ _ _ _) as [[[r0 st0] s0] log0] eqn:Et.
  apply executeStep_try_control in Et.
  destruct r0 as [t|].
  - destruct (emitEvent _ _ _) as [[t'|] l]; inversion H; subst; exact Et.
  - inversion H; subst. exact Et.
Qed.

(** One pass of the loop: the counter goes up by one whatever happens;
    a pass that reaches its end has recorded one step, and has set
    [isFinished] exactly when that step has no action. *)
Lemma loop_body_iteration a s log r s' log' :
  loop_body a s log = (r, s', log') -> iteration s' = iteration s + 1.
Proof.
  unfold loop_body. intros H.
  destruct (executeStep _ _ _) as [[[st|t] s1] log1] eqn:Ee;
    apply executeStep_control in Ee; destruct Ee as (Hi & _).
  - destruct (emitEvent _ _ _) as [[t|] l]; inversion H; subst.
    + simpl. rewrite Hi. reflexivity.
    + destruct (action st); simpl; rewrite Hi; reflexivity.
  - inversion H; subst. rewrite Hi. reflexivity.
Qed.

Lemma loop_body_steps a s log r s' log' :
  loop_body a s log = (r, s', log') ->
  (steps s' = steps s /\ isFinished s' = isFinished s /\ r <> None) \/
  (exists st, steps s' = (steps s ++ [st])%list /\
     ((r <> None /\ isFinished s' = isFinished s) \/
      (r = None /\ action st <> None /\ isFinished s' = isFinished s) \/
      (r = None /\ action st = None /\ isFinished s' = true))).
Proof.
  unfold loop_body. intros H.
  destruct (executeStep _ _ _) as [[[st|t] s1] log1] eqn:Ee;
    apply executeStep_control in Ee; destruct Ee as (_ & Hs & Hf & _);
    simpl in Hs, Hf.
  - right. exists st.
    destruct (emitEvent _ _ _) as [[t|] l]; inversion H; subst.
    + simpl. rewrite Hs. split; [reflexivity|]. left. split; [discriminate|exact Hf].
    + destruct (action st) eqn:Ea; simpl; rewrite Hs;
        (split; [reflexivity|]); right; [left|right]; repeat split;
        try assumption; discriminate.
  - left. inversion H; subst. repeat split; try assumption. discriminate.
Qed.

(** ** The loop *)

(** [run_loop] is the [while] loop of the source. *)
Lemma run_loop_unfold a s log :
  run_loop a s log =
  if loop_guard a s then
    match loop_body a s log with
    | (Some t, s', log') => (Some t, s', log')
    | (None, s', log') => run_loop a s' log'
    end
  else (None, s, log).
Proof.
  unfold run_loop.
  destruct (loop_guard a s) eqn:G.
  - pose proof G as G'. unfold loop_guard in G'.
    apply andb_true_iff in G'. destruct G' as (Hlt & _).
    apply Z.ltb_lt in Hlt.
    replace (Z.to_nat (maxIterations (config a) - iteration s))
      with (S (Z.to_nat (maxIterations (config a) - (iteration s + 1)))) by lia.
    simpl. rewrite G.
    destruct (loop_body a s log) as [[[t|] s'] log'] eqn:B; [reflexivity|].
    apply loop_body_iteration in B. rewrite B. reflexivity.
  - destruct (Z.to_nat _); simpl; [reflexivity|]. rewrite G. reflexivity.
Qed.

(** Induction along the passes of the loop. *)
Lemma run_loop_ind a (P : AgentState -> Log -> option Thrown * AgentState * Log -> Prop) :
  (forall s log, loop_guard a s = false -> P s log (None, s, log)) ->
  (forall s log t s' log',
     loop_guard a s = true -> loop_body a s log = (Some t, s', log') ->
     P s log (Some t, s', log')) ->
  (forall s log s' log',
     loop_guard a s = true -> loop_body a s log = (None, s', log') ->
     P s' log' (run_loop a s' log') -> P s log (run_loop a s' log')) ->
  forall s log, P s log (run_loop a s log).
Proof.
  intros Hexit Hthrow Hpass s.
  remember (Z.to_nat (maxIterations (config a) - iteration s)) as n eqn:En.
  revert s En. induction n as [|n IH]; intros s En log.
  - rewrite run_loop_unfold.
    destruct (loop_guard a s) eqn:G.
    + unfold loop_guard in G. apply andb_true_iff in G.
      destruct G as (G & _). apply Z.ltb_lt in G. lia.
    + apply Hexit, G.
  - rewrite run_loop_unfold.
    destruct (loop_guard a s) eqn:G; [|apply Hexit, G].
    destruct (loop_body a s log) as [[[t|] s'] log'] eqn:B.
    + eapply Hthrow; eassumption.
    + eapply Hpass; try eassumption.
      apply IH. apply loop_body_iteration in B. lia.
Qed.

Lemma loop_guard_true a s :
  loop_guard a s = true ->
  iteration s < maxIterations (config a) /\ isFinished s = false.
Proof.
  unfold loop_guard. intros G. apply andb_true_iff in G.
  destruct G as (G1 & G2). apply Z.ltb_lt in G1.
  apply negb_true_iff in G2. auto.
Qed.

Lemma loop_guard_false a s :
  loop_guard a s = false ->
  maxIterations (config a) <= iteration s \/ isFinished s = true.
Proof.
  unfold loop_guard. intros G. apply andb_false_iff in G.
  destruct G as [G|G].
  - left. apply Z.ltb_ge in G. exact G.
  - right. apply negb_false_iff in G. exact G.
Qed.

Lemma loop_body_within a s log r s' log' :
  loop_guard a s = true -> loop_body a s log = (r, s', log') ->
  within (maxIterations (config a)) s' /\
  (r = None -> settled s -> settled s').
Proof.
  intros G B. apply loop_guard_true in G. destruct G as (Hlt & Hf).
  pose proof B as Hi. apply loop_body_iteration in Hi.
  apply loop_body_steps in B.
  split; [split; [lia|]|].
  - intros F.
    destruct B as [(_ & Hf' & _)|(st & Hs & [(_ & Hf')|[(_ & _ & Hf')|(_ & Ha & _)]])];
      try congruence.
    exists st. split; [|exact Ha]. rewrite Hs. apply in_or_app. right. left. reflexivity.
  - intros Hr S. unfold settled in *.
    assert (Hnone : ~ exists st, In st (steps s) /\ action st = None).
    { intros E. apply S in E. congruence. }
    destruct B as [(_ & _ & Hn)|(st & Hs & [(Hn & _)|[(_ & Ha & Hf')|(_ & Ha & Hf')]])];
      try congruence; rewrite Hs.
    + split; [congruence|]. intros (st' & Hin & Ha').
      apply in_app_or in Hin. destruct Hin as [Hin|[<-|[]]].
      * exfalso. apply Hnone. eauto.
      * congruence.
    + split; [|intros _; exact Hf'].
      intros _. exists st. split; [|exact Ha]. apply in_or_app. right. left. reflexivity.
Qed.

(** The loop keeps the counter within the ceiling, also when something
    is thrown out of it, and stops only when its condition is false. *)
Lemma run_loop_within a s log r s' log' :
  within (maxIterations (config a)) s ->
  run_loop a s log = (r, s', log') ->
  within (maxIterations (config a)) s' /\
  (r = None -> loop_guard a s' = false) /\
  (r = None -> settled s -> settled s').
Proof.
  intros W H. revert W r s' log' H.
  pattern s, log, (run_loop a s log). apply run_loop_ind; clear s log.
  - intros s log G W r s' log' H. inversion H; subst. auto.
  - intros s log t s1 log1 G B W r s' log' H. inversion H; subst.
    apply loop_body_within in B; [|exact G]. destruct B as (W' & _).
    split; [exact W'|]. split; discriminate.
  - intros s log s1 log1 G B IH W r s' log' H.
    apply loop_body_within in B; [|exact G]. destruct B as (W' & S').
    specialize (IH W' _ _ _ H). destruct IH as (W'' & Hg & Hs).
    split; [exact W''|]. split; [exact Hg|].
    intros Hr St. apply Hs; auto.
Qed.

(** A loop that ends without a throw ends with its condition false, and
    has kept [isFinished] meaning that a step had no action. *)
Lemma run_loop_exit a s log s' log' :
  run_loop a s log = (None, s', log') ->
  loop_guard a s' = false /\ (settled s -> settled s').
Proof.
  revert s' log'. pattern s, log, (run_loop a s log).
  apply run_loop_ind; clear s log.
  - intros s log G s' log' H. inversion H; subst. auto.
  - intros s log t s1 log1 _ _ s' log' H. discriminate.
  - intros s log s1 log1 G B IH s' log' H.
    apply loop_body_within in B; [|exact G]. destruct B as (_ & B).
    destruct (IH _ _ H) as (Hg & Hs). auto.
Qed.

(** The shape of a call of [run]. *)
Lemma run_inv a input log out a' log' :
  run a input log = (out, a', log') ->
  (exists t, out = Rejected t) \/
  exists log1 r0 s2 log2,
    emitEvent a (EvStart (config a) input) log = (None, log1) /\
    run_loop a (push_message (state a)
                  {| role := RoleUser; content := Plain input;
                     msg_name := None |}) log1 = (r0, s2, log2) /\
    a' = with_state a s2 /\
    ((r0 = None /\ out = Returned (result_of s2) /\
      emitEvent a (EvFinish (result_of s2)) log2 = (None, log')) \/
     (exists e, out = Returned {| output := EmptyString; res_steps := steps s2;
                                  iterations := iteration s2;
                                  success := false;
                                  res_error := Some e |})).
Proof.
  unfold run. intros H.
  destruct (emitEvent a (EvStart _ _) log) as [[t|] log1] eqn:E1.
  { inversion H; subst. left. eauto. }
  destruct (run_loop _ _ _) as [[r0 s2] log2] eqn:E2.
  assert (C : forall t lg, run_catch a s2 t lg = (out, a', log') ->
            (exists t', out = Rejected t') \/
            (a' = with_state a s2 /\
             exists e, out = Returned {| output := EmptyString; res_steps := steps s2;
                                  iterations := iteration s2;
                                  success := false;
                                  res_error := Some e |})).
  { intros t lg Hc. unfold run_catch in Hc.
    destruct (emitEvent a (EvError _ _) lg) as [[t'|] lg'];
      inversion Hc; subst; eauto. }
  destruct r0 as [t|].
  - apply C in H. destruct H as [H|(Ha & H)]; [left; exact H|].
    right. exists log1, (Some t), s2, log2.
    split; [reflexivity|]. split; [exact E2|]. split; [exact Ha|].
    right. exact H.
  - destruct (emitEvent a (EvFinish _) log2) as [[t|] log3] eqn:E3.
    + apply C in H. destruct H as [H|(Ha & H)]; [left; exact H|].
      right. exists log1, None, s2, log2.
      split; [reflexivity|]. split; [exact E2|]. split; [exact Ha|].
      right. exact H.
    + inversion H; subst. right. exists log1, None, s2, log2.
      split; [reflexivity|]. split; [exact E2|]. split; [reflexivity|].
      left. auto.
Qed.

Lemma push_message_within k s m : within k s -> within k (push_message s m).
Proof. intros W. exact W. Qed.

Lemma push_message_settled s m : settled s -> settled (push_message s m).
Proof. intros W. exact W. Qed.

Lemma initialState_within k p : 0 <= k -> within k (initialState p).
Proof. intros H. split; [exact H|]. simpl. discriminate. Qed.

Lemma initialState_settled p : settled (initialState p).
Proof.
  split; simpl; [discriminate|]. intros (st & [] & _).
Qed.

Lemma constructor_state decide options :
  state (constructor decide options) =
  initialState (systemPrompt (config (constructor decide options))).
Proof. reflexivity. Qed.

Lemma constructor_maxIterations decide options :
  maxIterations (config (constructor decide options)) =
  default (opt_maxIterations options) 10.
Proof.
  unfold constructor. cbn [config maxIterations].
  destruct (opt_tools options) as [ts|]; [|reflexivity].
  set (a0 := {| config := _ |}).
  assert (G : forall l a, maxIterations (config (fold_left (fun self t => registerTool t self) l a)) = maxIterations (config a)).
  { induction l as [|t l IH]; intros a; simpl; [reflexivity|]. rewrite IH. reflexivity. }
  rewrite G. reflexivity.
Qed.


Lemma constructor_within decide options :
  0 <= default (opt_maxIterations options) 10 ->
  within (maxIterations (config (constructor decide options)))
         (state (constructor decide options)).
Proof.
  intros H. rewrite constructor_maxIterations, constructor_state.
  apply initialState_within, H.
Qed.

Lemma reset_within a :
  0 <= maxIterations (config a) ->
  within (maxIterations (config (reset a))) (state (reset a)).
Proof. intros H. apply initialState_within, H. Qed.

(** ** Runs whose listeners do not throw *)

Section QuietListeners.
Variable a : Agent.
Hypothesis Q : quiet (listeners a).

Lemma emitEvent_quiet ev log :
  emitEvent a ev log =
  (None, log ++ deliveries (List.length (listeners a)) ev).
Proof. unfold emitEvent, deliveries. apply emit_from_quiet, Q. Qed.

Lemma executeStep_quiet s log :
  exists st s' log', executeStep a s log = (inl st, s', log').
Proof.
  unfold executeStep.
  destruct (executeStep_try _ _ _ _) as [[[[t|] st0] s0] log0]; [|eauto].
  rewrite emitEvent_quiet. eauto.
Qed.

Lemma loop_body_quiet s log :
  exists s' log', loop_body a s log = (None, s', log').
Proof.
  unfold loop_body.
  destruct (executeStep_quiet (next_iteration s) log) as (st & s1 & log1 & E).
  rewrite E, emitEvent_quiet. eauto.
Qed.

Lemma run_loop_quiet s log :
  exists s' log', run_loop a s log = (None, s', log').
Proof.
  pattern s, log, (run_loop a s log). apply run_loop_ind; clear s log.
  - eauto.
  - intros s log t s' log' _ B.
    destruct (loop_body_quiet s log) as (s1 & log1 & B'). congruence.
  - intros s log s' log' _ _ IH. exact IH.
Qed.

(** The loop ends normally and [run] returns from its [try] block. *)
Lemma run_quiet goal log :
  exists s' lg,
    run_loop a
      (push_message (state a)
         {| role := RoleUser; content := Plain goal; msg_name := None |})
      (log ++ deliveries (List.length (listeners a))
                         (EvStart (config a) goal)) = (None, s', lg) /\
    run a goal log =
      (Returned (result_of s'), with_state a s',
       lg ++ deliveries (List.length (listeners a)) (EvFinish (result_of s'))).
Proof.
  unfold run. rewrite emitEvent_quiet.
  destruct (run_loop_quiet
              (push_message (state a)
                 {| role := RoleUser; content := Plain goal;
                    msg_name := None |})
              (log ++ deliveries (List.length (listeners a))
                                 (EvStart (config a) goal)))
    as (s' & log' & E).
  rewrite E, emitEvent_quiet. eauto.
Qed.

Lemma run_returns goal log :
  exists s' log',
    run a goal log = (Returned (result_of s'), with_state a s', log').
Proof.
  destruct (run_quiet goal log) as (s' & lg & _ & H). eauto.
Qed.

End QuietListeners.

(** ** The iteration bound *)


(** ** Success *)

Lemma existsb_has_error l :
  existsb has_error l = false <-> forall st, In st l -> error st = None.
Proof.
  induction l as [|x l IH]; simpl.
  - split; [intros _ st []|reflexivity].
  - unfold has_error at 1. rewrite orb_false_iff, IH. split.
    + intros (Hx & Hl) st [<-|Hin]; [|auto].
      destruct (error x); [discriminate|reflexivity].
    + intros H. split; [|intros st Hin; apply H; right; exact Hin].
      rewrite (H x); [reflexivity|left; reflexivity].
Qed.

(** C2.  For a run that returns from the [try] block (no [error] on the
    result): [success] holds exactly when [isFinished] is set and no
    recorded step carries an error; [isFinished] is set exactly when a
    recorded step has no action; and a run that stops without having
    finished has used up [maxIterations] and returns [success = false]
    with no [error]. *)
Theorem success_iff_finished_without_errors a input log r a' log' :
  settled (state a) ->
  run a input log = (Returned r, a', log') ->
  res_error r = None ->
  (success r = true <->
   isFinished (state a') = true /\
   forall st, In st (res_steps r) -> error st = None) /\
  (isFinished (state a') = true <->
   exists st, In st (res_steps r) /\ action st = None) /\
  (isFinished (state a') = false ->
   success r = false /\ res_error r = None /\
   maxIterations (config a) <= iterations r).
Proof.
  intros S H Herr. apply run_inv in H.
  destruct H as [(t & H)|(log1 & r0 & s2 & log2 & _ & Hloop & -> & H)];
    [discriminate|].
  destruct H as [(-> & H & _)|(e & H)]; inversion H; subst;
    [|discriminate].
  clear H Herr. simpl.
  apply run_loop_exit in Hloop. destruct Hloop as (G2 & S2).
  specialize (S2 (push_message_settled _ S)).
  split; [|split].
  - rewrite andb_true_iff, negb_true_iff, existsb_has_error. reflexivity.
  - exact S2.
  - intros F. rewrite F. simpl. repeat split.
    apply loop_guard_false in G2. destruct G2 as [G2|G2]; [exact G2|congruence].
Qed.

(** ** Errors inside a step *)


Lemma executeStep_dispatch_fails a s log d act t :
  quiet (listeners a) ->
  makeDecision a s = inl d ->
  d_action d = Some act ->
  dispatch_fails a act t ->
  executeStep a s log =
  (inl {| step_iteration := iteration s; thought := d_thought d;
          action := Some act; observation := None;
          error := Some (asError t) |},
   s,
   (log ++ deliveries (List.length (listeners a))
                      (EvToolCall (tool act) (input act))
        ++ deliveries (List.length (listeners a))
                      (EvError (asError t) (iteration s)))%list).
Proof.
  intros Q Hd Ha Hf. unfold executeStep, executeStep_try.
  rewrite Hd, Ha, (emitEvent_quiet _ Q).
  destruct Hf as [Hg|tl t Hg Hp|tl v t Hg Hp He]; rewrite Hg;
    try rewrite Hp; try rewrite He;
    rewrite (emitEvent_quiet _ Q); unfold with_error, with_decision;
    simpl; rewrite Ha, <- app_assoc; reflexivity.
Qed.


(** ** The order of events *)




(** In a branch of [executeStep] where something was thrown, the step
    returned carries an error. *)
Ltac step_has_error H He :=
  destruct (emitEvent _ (EvError _ _) _) as [[?|] ?];
  inversion H; subst; simpl in He; discriminate.

(** A step that carries an action and no error went all the way through
    the [try] block: the tool was found, its input validated, it returned
    the observation, and the listeners were handed [tool_call] and
    [tool_result]. *)
Lemma executeStep_success a s log st s' log' act :
  executeStep a s log = (inl st, s', log') ->
  action st = Some act ->
  error st = None ->
  exists tl v out,
    map_get (tool act) (tools a) = Some tl /\
    inputSchema tl (input act) = inl v /\
    execute tl v = inl out /\
    observation st = Some out /\
    (exists text, JSON.stringify out = inl text) /\
    log' = (log ++ deliveries (List.length (listeners a))
                              (EvToolCall (tool act) (input act))
                ++ deliveries (List.length (listeners a))
                              (EvToolResult (tool act) out))%list.
Proof.
  unfold executeStep, executeStep_try. intros H Ha He.
  destruct (makeDecision a s) as [d|t] eqn:Hd.
  2:{ step_has_error H He. }
  destruct (d_action d) as [act'|] eqn:Hda.
  2:{ inversion H; subst. simpl in Ha. congruence. }
  destruct (emitEvent a (EvToolCall _ _) log) as [[t1|] l1] eqn:E1.
  { step_has_error H He. }
  destruct (map_get (tool act') (tools a)) as [tl|] eqn:Hg.
  2:{ step_has_error H He. }
  destruct (inputSchema tl (input act')) as [v|t2] eqn:Hp.
  2:{ step_has_error H He. }
  destruct (execute tl v) as [out|t3] eqn:Hx.
  2:{ step_has_error H He. }
  destruct (emitEvent a (EvToolResult _ _) l1) as [[t4|] l2] eqn:E2.
  { step_has_error H He. }
  destruct (JSON.stringify out) as [text|t5] eqn:Hs.
  2:{ step_has_error H He. }
  inversion H; subst. simpl in Ha.
  assert (act' = act) as -> by congruence.
  apply emitEvent_done in E1. apply emitEvent_done in E2. subst.
  exists tl, v, out. rewrite <- app_assoc. eauto 8.
Qed.

Lemma run_loop_steps_prefix a s log r s' log' :
  run_loop a s log = (r, s', log') ->
  exists more, steps s' = (steps s ++ more)%list.
Proof.
  revert r s' log'. pattern s, log, (run_loop a s log).
  apply run_loop_ind; clear s log.
  - intros s log _ r s' log' H. inversion H; subst.
    exists []. rewrite app_nil_r. reflexivity.
  - intros s log t s1 log1 _ B r s' log' H. inversion H; subst.
    apply loop_body_steps in B.
    destruct B as [(Hs & _)|(st & Hs & _)]; rewrite Hs.
    + exists []. rewrite app_nil_r. reflexivity.
    + eauto.
  - intros s log s1 log1 _ B IH r s' log' H.
    destruct (IH _ _ _ H) as (more & Hm).
    apply loop_body_steps in B.
    destruct B as [(_ & _ & Hn)|(st & Hs & _)]; [congruence|].
    rewrite Hm, Hs, <- app_assoc. eauto.
Qed.



(** ** Two scenarios of the specification *)

Lemma executeStep_try_decided a s st log r st' s' log' d :
  makeDecision a s = inl d ->
  executeStep_try a s st log = (r, st', s', log') ->
  action st' = d_action d /\ thought st' = d_thought d.
Proof.
  unfold executeStep_try. intros Hd H. rewrite Hd in H.
  repeat match type of H with
  | context [match ?x with _ => _ end] => destruct x eqn:?
  end; inversion H; subst; simpl; auto.
Qed.

Lemma executeStep_decided a s log st s' log' d :
  makeDecision a s = inl d ->
  executeStep a s log = (inl st, s', log') ->
  action st = d_action d /\ thought st = d_thought d.
Proof.
  unfold executeStep. intros Hd H.
  destruct (executeStep_try _ _ _ _) as [[[r0 st0] s0] log0] eqn:Et.
  eapply executeStep_try_decided in Et; [|exact Hd].
  destruct r0 as [t|].
  - destruct (emitEvent a (EvError _ _) log0) as [[t'|] l];
      inversion H; subst; exact Et.
  - inversion H; subst. exact Et.
Qed.

(** A step records an error exactly when something was thrown in its
    [try] block; with listeners that do not throw, that is a failed
    decision or a failed dispatch. *)
Lemma executeStep_unregistered a s log st s' log' d act :
  quiet (listeners a) ->
  makeDecision a s = inl d ->
  d_action d = Some act ->
  map_get (tool act) (tools a) = None ->
  executeStep a s log = (inl st, s', log') ->
  error st = Some (Error ("Tool not found: " ++ tool act)%string).
Proof.
  intros Q Hd Ha Hg H.
  rewrite (@executeStep_dispatch_fails a s log d act
             (ThrowError (Error ("Tool not found: " ++ tool act)%string))
             Q Hd Ha (fails_not_found a act Hg)) in H.
  inversion H; subst. reflexivity.
Qed.

Lemma loop_body_keeps_action a s log s' log' (P : AgentStep -> Prop) :
  (forall s0 log0 st s1 log1,
     executeStep a s0 log0 = (inl st, s1, log1) -> P st /\ action st <> None) ->
  Forall P (steps s) ->
  loop_body a s log = (None, s', log') ->
  Forall P (steps s') /\ isFinished s' = isFinished s.
Proof.
  intros HP Hall B. unfold loop_body in B.
  destruct (executeStep a (next_iteration s) log) as [[[st|t] s1] log1] eqn:E;
    [|discriminate].
  pose proof E as Hc. apply executeStep_control in Hc.
  destruct Hc as (_ & Hs & Hf & _). simpl in Hs, Hf.
  apply HP in E. destruct E as (Hst & Hact).
  destruct (emitEvent a (EvStep st) log1) as [[t|] l]; [discriminate|].
  destruct (action st); [|congruence].
  inversion B; subst. simpl. rewrite Hs, Hf. split; [|reflexivity].
  apply Forall_app. split; [exact Hall|]. constructor; [exact Hst|constructor].
Qed.

Lemma run_loop_keeps_action a (P : AgentStep -> Prop) :
  (forall s0 log0 st s1 log1,
     executeStep a s0 log0 = (inl st, s1, log1) -> P st /\ action st <> None) ->
  forall s log s' log',
    Forall P (steps s) ->
    run_loop a s log = (None, s', log') ->
    Forall P (steps s') /\ isFinished s' = isFinished s.
Proof.
  intros HP s log. pattern s, log, (run_loop a s log).
  apply run_loop_ind; clear s log.
  - intros s log _ s' log' Hall H. inversion H; subst. auto.
  - intros s log t s1 log1 _ _ s' log' _ H. discriminate.
  - intros s log s1 log1 _ B IH s' log' Hall H.
    eapply loop_body_keeps_action in B; [|exact HP|exact Hall].
    destruct B as (Hall1 & Hf1).
    destruct (IH _ _ Hall1 H) as (Hall' & Hf'). split; [exact Hall'|congruence].
Qed.

(** "Missing capability", for any ceiling: a new agent whose decisions
    always name a tool that is not registered runs [maxIterations]
    iterations, every step records an error, and the result is a failure
    without an [error] of its own. *)
Lemma run_always_unregistered a goal log k :
  maxIterations (config a) = k ->
  0 <= k ->
  state a = initialState (systemPrompt (config a)) ->
  quiet (listeners a) ->
  (forall s, exists d act,
     makeDecision a s = inl d /\ d_action d = Some act /\
     map_get (tool act) (tools a) = None) ->
  exists r a' log',
    run a goal log = (Returned r, a', log') /\
    iterations r = k /\ success r = false /\ res_error r = None /\
    Forall (fun st => action st <> None /\ error st <> None) (res_steps r).
Proof.
  intros Hk Hpos Hfresh Q Hdec.
  destruct (run_quiet a Q goal log) as (s' & lg & Hloop & Hrun).
  eexists _, _, _. split; [exact Hrun|].
  assert (HP : forall s0 log0 st s1 log1,
            executeStep a s0 log0 = (inl st, s1, log1) ->
            (action st <> None /\ error st <> None) /\ action st <> None).
  { intros s0 log0 st s1 log1 E.
    destruct (Hdec s0) as (d & act & Hd & Ha & Hg).
    pose proof (@executeStep_decided a s0 log0 st s1 log1 d Hd E) as (Hact & _).
    pose proof (@executeStep_unregistered a s0 log0 st s1 log1 d act
                  Q Hd Ha Hg E) as Herr.
    rewrite Hact, Ha, Herr. repeat split; discriminate. }
  pose proof Hloop as Hall.
  eapply run_loop_keeps_action in Hall; [|exact HP|].
  2:{ simpl. rewrite Hfresh. constructor. }
  destruct Hall as (Hall & Hfin). simpl in Hfin. rewrite Hfresh in Hfin.
  simpl in Hfin.
  pose proof Hloop as Hex. apply run_loop_within in Hex.
  2:{ apply push_message_within. rewrite Hfresh, Hk.
      apply initialState_within, Hpos. }
  destruct Hex as ((Hle & _) & Hg & _). specialize (Hg eq_refl).
  apply loop_guard_false in Hg.
  split; [|split; [|split; [reflexivity|exact Hall]]].
  - simpl. destruct Hg as [Hg|Hg]; [lia|congruence].
  - simpl. rewrite Hfin. reflexivity.
Qed.

(** "Immediate finish": a new agent whose first decision carries no
    action runs one iteration and succeeds with the thought as output. *)
Lemma run_immediate_finish a goal log d :
  0 < maxIterations (config a) ->
  state a = initialState (systemPrompt (config a)) ->
  quiet (listeners a) ->
  makeDecision a
    (next_iteration
       (push_message (state a)
          {| role := RoleUser; content := Plain goal; msg_name := None |}))
    = inl d ->
  d_action d = None ->
  truthy (d_thought d) = true ->
  exists r a' log',
    run a goal log = (Returned r, a', log') /\
    iterations r = 1 /\ success r = true /\ output r = d_thought d /\
    res_error r = None.
Proof.
  intros Hk Hfresh Q Hd Ha Ht.
  destruct (run_quiet a Q goal log) as (s' & lg & Hloop & Hrun).
  eexists _, _, _. split; [exact Hrun|].
  rewrite run_loop_unfold in Hloop.
  unfold loop_guard in Hloop at 1. simpl in Hloop.
  rewrite Hfresh in Hloop at 1 2. simpl in Hloop.
  rewrite (proj2 (Z.ltb_lt _ _) Hk) in Hloop. simpl in Hloop.
  unfold loop_body, executeStep, executeStep_try in Hloop.
  rewrite Hd, Ha in Hloop. cbn [with_decision action thought] in Hloop.
  rewrite (emitEvent_quiet _ Q) in Hloop. rewrite Ha in Hloop.
  rewrite run_loop_unfold in Hloop. unfold loop_guard in Hloop.
  simpl in Hloop. rewrite andb_false_r in Hloop.
  inversion Hloop; subst. simpl. rewrite Hfresh. simpl. rewrite Ht.
  repeat split; reflexivity.
Qed.

(** One successful tool call under a ceiling of one: the run the event
    ordering property of the specification is about. *)
Lemma run_single_tool_call a goal log d act tl v out text :
  maxIterations (config a) = 1 ->
  state a = initialState (systemPrompt (config a)) ->
  quiet (listeners a) ->
  makeDecision a
    (next_iteration
       (push_message (state a)
          {| role := RoleUser; content := Plain goal; msg_name := None |}))
    = inl d ->
  d_action d = Some act ->
  map_get (tool act) (tools a) = Some tl ->
  inputSchema tl (input act) = inl v ->
  execute tl v = inl out ->
  JSON.stringify out = inl text ->
  let n := List.length (listeners a) in
  let st := {| step_iteration := 1; thought := d_thought d;
               action := Some act; observation := Some out;
               error := None |} in
  exists r a',
    run a goal log =
      (Returned r, a',
       log ++ deliveries n (EvStart (config a) goal)
           ++ deliveries n (EvToolCall (tool act) (input act))
           ++ deliveries n (EvToolResult (tool act) out)
           ++ deliveries n (EvStep st)
           ++ deliveries n (EvFinish r)) /\
    res_steps r = [st] /\ iterations r = 1 /\
    success r = false /\ res_error r = None.
Proof.
  intros Hk Hfresh Q Hd Ha Hg Hp Hx Hser n st.
  destruct (run_quiet a Q goal log) as (s' & lg & Hloop & Hrun).
  rewrite run_loop_unfold in Hloop.
  unfold loop_guard in Hloop at 1. simpl in Hloop.
  rewrite Hfresh in Hloop at 1 2. simpl in Hloop. rewrite Hk in Hloop.
  simpl in Hloop.
  unfold loop_body, executeStep, executeStep_try in Hloop.
  rewrite Hd, Ha in Hloop. rewrite (emitEvent_quiet _ Q) in Hloop.
  rewrite Hg, Hp, Hx in Hloop. rewrite (emitEvent_quiet _ Q) in Hloop.
  rewrite Hser in Hloop.
  cbn [with_observation with_decision action thought] in Hloop.
  rewrite (emitEvent_quiet _ Q) in Hloop. rewrite Ha in Hloop.
  rewrite run_loop_unfold in Hloop. unfold loop_guard in Hloop.
  simpl in Hloop. rewrite Hfresh, Hk in Hloop. simpl in Hloop.
  inversion Hloop; subst s' lg. clear Hloop.
  eexists _, _. split.
  - rewrite Hrun. unfold with_observation, with_decision. simpl.
    rewrite Ha, <- !app_assoc. reflexivity.
  - simpl. repeat split; reflexivity.
Qed.





(** ** Concrete runs *)


Lemma recorders_quiet n : quiet (repeat recorder n).
Proof. intros l ev Hin. apply repeat_spec in Hin. subst. reflexivity. Qed.


Lemma success_iff_finished_without_errors_witness :
  settled (state idle_agent) /\
  exists r a' log',
    run idle_agent "Test" [] = (Returned r, a', log') /\
    res_error r = None /\
    (success r = true <->
     isFinished (state a') = true /\
     forall st, In st (res_steps r) -> error st = None).
Proof.
  split; [apply initialState_settled|].
  eexists _, _, _. split; [reflexivity|]. split; [reflexivity|].
  eapply (@success_iff_finished_without_errors idle_agent "Test" []);
    [apply initialState_settled|reflexivity|reflexivity].
Defined.






End AgentFacts.

(** ** Tools and the system prompt *)

Module ToolFacts.
Import Core Observations Examples MapFacts.

(** ** Registration *)

Lemma registerTool_config t a : config (registerTool t a) = config a.
Proof. reflexivity. Qed.

Lemma registerTool_state t a : state (registerTool t a) = state a.
Proof. reflexivity. Qed.

Lemma register_has t category r r1 :
  Registry.register t category r = inl r1 ->
  map_has (name t) (Registry.reg_tools r1) = true.
Proof.
  unfold Registry.register. intros H.
  destruct (map_has (name t) (Registry.reg_tools r)); [discriminate|].
  destruct category as [c|]; [destruct (truthy c)|];
    inversion H; subst; simpl; apply map_has_set.
Qed.

(** C10.  [Agent.registerTool] has no failure path (it is a function to
    agents) and a second tool under a name takes the place of the first:
    the lookup the dispatch of a step makes, [this.tools.get(name)], then
    finds the second tool.  [ToolRegistry.register] instead throws
    "Tool already registered" for the second tool. *)
Theorem registerTool_replaces_duplicate a t t' :
  name t' = name t ->
  map_get (name t) (tools (registerTool t' (registerTool t a))) = Some t' /\
  forall category category' r r1,
    Registry.register t category r = inl r1 ->
    Registry.register t' category' r1 =
    inr (ThrowError (Error ("Tool already registered: " ++ name t')%string)).
Proof.
  intros Hn. split.
  - unfold registerTool. simpl. rewrite Hn. apply map_get_set_same.
  - intros category category' r r1 H. apply register_has in H.
    unfold Registry.register. rewrite Hn, H. reflexivity.
Qed.

Lemma registerTool_replaces_duplicate_witness :
  name lookup_v2 = name lookup_v1 /\
  map_get "lookup" (tools (registerTool lookup_v2 (registerTool lookup_v1 idle_agent)))
    = Some lookup_v2 /\
  Registry.register lookup_v1 None Registry.empty =
    inl {| Registry.reg_tools := [("lookup", lookup_v1)];
           Registry.categories := [] |} /\
  Registry.register lookup_v2 None
    {| Registry.reg_tools := [("lookup", lookup_v1)];
       Registry.categories := [] |} =
    inr (ThrowError (Error "Tool already registered: lookup")).
Proof.
  split; [reflexivity|].
  destruct (@registerTool_replaces_duplicate idle_agent lookup_v1 lookup_v2
              eq_refl) as (Hget & Hreg).
  split; [exact Hget|]. split; [reflexivity|].
  apply (Hreg None None Registry.empty). reflexivity.
Defined.

(** The step that follows dispatches to the tool registered last. *)
Lemma dispatch_uses_latest a t t' s log d v v' out text :
  name t' = name t ->
  quiet (listeners a) ->
  makeDecision a s = inl d ->
  d_action d = Some {| tool := name t; input := v |} ->
  inputSchema t' v = inl v' ->
  execute t' v' = inl out ->
  JSON.stringify out = inl text ->
  exists st s' log',
    executeStep (registerTool t' (registerTool t a)) s log = (inl st, s', log') /\
    observation st = Some out /\ error st = None.
Proof.
  intros Hn Q Hd Ha Hp Hx Hs.
  unfold executeStep, executeStep_try.
  change (makeDecision (registerTool t' (registerTool t a))) with (makeDecision a).
  rewrite Hd, Ha.
  assert (Q' : quiet (listeners (registerTool t' (registerTool t a)))) by exact Q.
  rewrite (AgentFacts.emitEvent_quiet _ Q'). cbn [tool input].
  assert (Hg : map_get (name t) (tools (registerTool t' (registerTool t a))) = Some t').
  { unfold registerTool. simpl. rewrite Hn. apply map_get_set_same. }
  rewrite Hg, Hp, Hx, (AgentFacts.emitEvent_quiet _ Q'), Hs.
  eexists _, _, _. split; [reflexivity|]. split; reflexivity.
Qed.

(** ** The system prompt *)

Lemma fold_registerTool_config ts a :
  config (fold_left (fun self t => registerTool t self) ts a) = config a.
Proof.
  revert a. induction ts as [|t ts IH]; intros a; simpl; [reflexivity|].
  rewrite IH. reflexivity.
Qed.

(** In [agent.ts] the generated prompt does not depend on the tools of the
    options: it is the prompt of an agent without tools. *)
Lemma constructor_prompt_ignores_tools decide options :
  opt_systemPrompt options = None ->
  systemPrompt (config (constructor decide options)) =
  defaultSystemPrompt
    {| cfg_name := opt_name options;
       cfg_description := opt_description options;
       maxIterations := default (opt_maxIterations options) 10;
       temperature := default (opt_temperature options) (QArith_base.Qmake 7 10);
       verbose := default (opt_verbose options) false;
       systemPrompt := EmptyString |} [].
Proof.
  intros Hp. unfold constructor. cbn [config].
  destruct (opt_tools options) as [ts|].
  - rewrite fold_registerTool_config. simpl. rewrite Hp. reflexivity.
  - simpl. rewrite Hp. reflexivity.
Qed.

(** Once built, the prompt stays: neither [registerTool] nor [run]
    touches the configuration. *)
Lemma systemPrompt_immutable a t goal log out a' log' :
  systemPrompt (config (registerTool t a)) = systemPrompt (config a) /\
  (run a goal log = (out, a', log') ->
   systemPrompt (config a') = systemPrompt (config a)).
Proof.
  split; [reflexivity|]. unfold run. intros H.
  destruct (emitEvent a (EvStart _ _) log) as [[t0|] log1].
  { inversion H; subst. reflexivity. }
  destruct (run_loop _ _ _) as [[r0 s2] log2].
  assert (C : forall t lg, run_catch a s2 t lg = (out, a', log') ->
            config a' = config a).
  { intros t1 lg Hc. unfold run_catch in Hc.
    destruct (emitEvent a (EvError _ _) lg) as [[t'|] lg'];
      inversion Hc; reflexivity. }
  destruct r0 as [t1|]; [erewrite C; [reflexivity|eassumption]|].
  destruct (emitEvent a (EvFinish _) log2) as [[t1|] log3].
  - erewrite C; [reflexivity|eassumption].
  - inversion H; subst. reflexivity.
Qed.

Lemma prefix_refl_app n post : String.prefix n (n ++ post)%string = true.
Proof.
  induction n as [|c n IH]; simpl; [destruct post; reflexivity|].
  destruct (ascii_dec c c); [exact IH|congruence].
Qed.

Lemma prefix_app n s1 s2 :
  String.prefix n s1 = true -> String.prefix n (s1 ++ s2)%string = true.
Proof.
  revert s1. induction n as [|c n IH]; intros s1 H.
  { destruct (s1 ++ s2)%string; reflexivity. }
  destruct s1 as [|b s1]; simpl in *; [discriminate|].
  destruct (ascii_dec c b); [apply IH, H|discriminate].
Qed.

Lemma includes_self n post : includes n (n ++ post)%string = true.
Proof.
  pose proof (prefix_refl_app n post) as P.
  destruct n as [|c n]; [destruct post; reflexivity|].
  simpl in *. rewrite P. reflexivity.
Qed.

Lemma includes_app_r n s1 s2 :
  includes n s2 = true -> includes n (s1 ++ s2)%string = true.
Proof.
  intros H. induction s1 as [|c s1 IH]; [exact H|].
  cbn [includes String.append]. rewrite IH.
  destruct (String.prefix n (String c (s1 ++ s2))); reflexivity.
Qed.

Lemma includes_app_l n s1 s2 :
  includes n s1 = true -> includes n (s1 ++ s2)%string = true.
Proof.
  induction s1 as [|c s1 IH].
  - destruct n; [intros _; destruct s2; reflexivity|discriminate].
  - cbn [includes String.append].
    destruct (String.prefix n (String c s1)) eqn:P.
    + intros _. apply prefix_app with (s2 := s2) in P.
      cbn [String.append] in P. rewrite P. reflexivity.
    + intros H. rewrite (IH H).
      destruct (String.prefix n (String c (s1 ++ s2))); reflexivity.
Qed.

Lemma append_empty_r (x : string) : (x ++ EmptyString)%string = x.
Proof. induction x as [|c x IH]; simpl; [reflexivity|]. rewrite IH. reflexivity. Qed.

Lemma includes_join sep x l :
  In x l -> includes x (join sep l) = true.
Proof.
  induction l as [|p l IH]; [contradiction|].
  intros [->|Hin].
  - destruct l; simpl.
    + rewrite <- (append_empty_r x) at 2. apply includes_self.
    + apply includes_self.
  - destruct l as [|q l]; [contradiction|].
    change (join sep (p :: q :: l)) with (p ++ sep ++ join sep (q :: l))%string.
    apply includes_app_r, includes_app_r, IH, Hin.
Qed.

Lemma fold_registerTool_tools ts a :
  tools (fold_left (fun self t => registerTool t self) ts a) =
  fold_left (fun m kv => map_set (fst kv) (snd kv) m)
            (List.map (fun t => (name t, t)) ts) (tools a).
Proof.
  revert a. induction ts as [|t ts IH]; intros a; simpl; [reflexivity|].
  rewrite IH. reflexivity.
Qed.

(** What the revision of the constructor achieves: with tools of distinct
    names and no prompt given, the line of every tool of the options is
    in the prompt. *)
Lemma phase0_prompt_lists_tools decide options ts t :
  opt_systemPrompt options = None ->
  opt_tools options = Some ts ->
  NoDup (List.map name ts) ->
  In t ts ->
  includes ("- " ++ name t ++ ": " ++ description t)%string
           (systemPrompt (config (Phase0.constructor decide options))) = true.
Proof.
  intros Hp Ht Hnd Hin. unfold Phase0.constructor. cbn [config systemPrompt].
  rewrite Hp, Ht. cbn [default].
  rewrite fold_registerTool_tools, fold_registerTool_config. cbn [tools config].
  rewrite fold_set_fresh.
  2:{ simpl. unfold map_keys. rewrite map_map. simpl. exact Hnd. }
  simpl app. unfold defaultSystemPrompt, map_values. rewrite !map_map. cbn [snd].
  set (line := fun t0 : Tool => ("- " ++ name t0 ++ ": " ++ description t0)%string).
  set (toolList := join nl (List.map line ts)).
  assert (Hl : includes (line t) toolList = true).
  { apply includes_join, in_map, Hin. }
  assert (Htr : truthy toolList = true).
  { unfold toolList. destruct ts as [|t0 [|t1 ts]]; [contradiction| |]; reflexivity. }
  rewrite Htr. fold (line t).
  do 11 apply includes_app_r. apply includes_app_l, Hl.
Qed.

(** C9 on the code of [agent.ts]: built with the calculator among its
    tools and no prompt of its own, the agent holds the tool, but its
    prompt says "(No tools available)" and names neither the tool nor
    its description.  The Phase 0 constructor, on the same options,
    lists the tool. *)
Theorem constructor_prompt_omits_tools :
  opt_systemPrompt calculator_options = None /\
  opt_tools calculator_options = Some [calculator] /\
  map_has "calculator"
    (tools (constructor placeholderDecision calculator_options)) = true /\
  includes "(No tools available)"
    (systemPrompt (config (constructor placeholderDecision calculator_options)))
    = true /\
  includes "calculator"
    (systemPrompt (config (constructor placeholderDecision calculator_options)))
    = false /\
  includes "Performs basic arithmetic operations"
    (systemPrompt (config (constructor placeholderDecision calculator_options)))
    = false /\
  includes "- calculator: Performs basic arithmetic operations"
    (systemPrompt
       (config (Phase0.constructor placeholderDecision calculator_options)))
    = true.
Proof. vm_compute. repeat split. Qed.

End ToolFacts.

(** ** The bounded store *)

Module ShortTermFacts.
Import ShortTerm MapFacts.

Lemma evict_under limit order st :
  Z.of_nat (List.length order) <= limit ->
  evict limit order st = Some (order, st).
Proof.
  intros H. destruct order as [|k rest]; simpl in *.
  - destruct (Z.gtb_spec 0 limit); [lia|reflexivity].
  - destruct (Z.gtb_spec (Z.pos (Pos.of_succ_nat (List.length rest))) limit);
      [lia|reflexivity].
Qed.

Lemma evict_one limit k rest st :
  Z.of_nat (List.length rest) = limit ->
  evict limit (k :: rest) st =
  Some (rest, if truthy k then map_delete k st else st).
Proof.
  intros H. cbn [evict].
  destruct (Z.gtb_spec (Z.of_nat (List.length (k :: rest))) limit) as [_|Hle].
  - apply evict_under. lia.
  - simpl List.length in Hle. lia.
Qed.

Lemma save_all_app es1 es2 m :
  save_all (es1 ++ es2) m =
  match save_all es1 m with
  | Some m' => save_all es2 m'
  | None => None
  end.
Proof.
  revert m. induction es1 as [|[k v] es1 IH]; intros m; simpl; [reflexivity|].
  destruct (save k v m); [apply IH|reflexivity].
Qed.

(** Saving a key the store does not hold, with room left. *)
Lemma save_new_key k v m :
  ~ In k (map_keys (store m)) ->
  save k v m =
  match evict (maxSize m) (insertionOrder m ++ [k]) (store m ++ [(k, v)]) with
  | Some (order', st') =>
      Some {| store := st'; maxSize := maxSize m; insertionOrder := order' |}
  | None => None
  end.
Proof.
  intros H. unfold save.
  assert (Hh : map_has k (store m) = false).
  { destruct (map_has k (store m)) eqn:E; [|reflexivity].
    apply map_has_in in E. contradiction. }
  rewrite Hh, (map_set_absent k v (store m) H). reflexivity.
Qed.

(** While there is room, distinct keys pile up in the order they came. *)
Lemma save_all_under es : forall es0 limit,
  NoDup (map_keys (es0 ++ es)) ->
  Z.of_nat (List.length (es0 ++ es)) <= limit ->
  save_all es {| store := es0; maxSize := limit;
                 insertionOrder := map_keys es0 |} =
  Some {| store := es0 ++ es; maxSize := limit;
          insertionOrder := map_keys (es0 ++ es) |}.
Proof.
  induction es as [|[k v] es IH]; intros es0 limit Hnd Hlen; simpl.
  - rewrite app_nil_r. reflexivity.
  - assert (Hk : ~ In k (map_keys es0)).
    { unfold map_keys in *. rewrite map_app in Hnd. simpl in Hnd.
      apply NoDup_remove_2 in Hnd. intros Hin. apply Hnd.
      apply in_or_app. left. exact Hin. }
    rewrite save_new_key by exact Hk. cbn [store maxSize insertionOrder].
    rewrite evict_under.
    2:{ unfold map_keys. rewrite length_app, length_map.
        rewrite length_app in Hlen. simpl in *. lia. }
    replace (map_keys es0 ++ [k]) with (map_keys (es0 ++ [(k, v)]))
      by (unfold map_keys; rewrite map_app; reflexivity).
    rewrite IH; rewrite <- app_assoc; simpl; auto.
Qed.

Lemma filter_out_shorter k (l : list string) :
  In k l ->
  (List.length (filter (fun k' => negb (String.eqb k' k)) l) < List.length l)%nat.
Proof.
  induction l as [|x l IH]; [contradiction|]. intros Hin. simpl.
  destruct (String.eqb_spec x k) as [->|Hne]; simpl.
  - pose proof (filter_length_le (fun k' => negb (String.eqb k' k)) l). lia.
  - destruct Hin as [->|Hin]; [congruence|]. apply IH in Hin. lia.
Qed.

(** Saving a key that is held, in a store within its capacity: the key
    moves to the end of the insertion order, nothing is evicted. *)
Lemma save_existing_refreshes k v m :
  map_has k (store m) = true ->
  In k (insertionOrder m) ->
  Z.of_nat (List.length (insertionOrder m)) <= maxSize m ->
  exists m',
    save k v m = Some m' /\
    insertionOrder m' =
      filter (fun k' => negb (String.eqb k' k)) (insertionOrder m) ++ [k] /\
    store m' = map_set k v (store m).
Proof.
  intros Hh Hin Hlen. unfold save. rewrite Hh.
  rewrite evict_under.
  - eexists. split; [reflexivity|]. split; reflexivity.
  - rewrite length_app. simpl.
    pose proof (filter_out_shorter k (insertionOrder m) Hin). lia.
Qed.

(** The eviction order of the specification, for a first key that is not
    the empty string: [n + 1] entries with distinct keys saved into a new
    store of capacity [n] leave the store holding all but the first, in
    the order they were saved. *)
Lemma fifo_eviction (n : nat) k1 v1 rest :
  List.length rest = n ->
  NoDup (k1 :: map_keys rest) ->
  k1 <> EmptyString ->
  exists m,
    save_all ((k1, v1) :: rest) (constructor (Some (Z.of_nat n))) = Some m /\
    store m = rest /\
    insertionOrder m = map_keys rest /\
    get k1 m = VUndefined /\
    forall k v, In (k, v) rest -> get k m = v.
Proof.
  intros Hlen Hnd Hk1.
  assert (Ht : truthy k1 = true) by (destruct k1; [congruence|reflexivity]).
  assert (Hfinal : forall m, store m = rest -> insertionOrder m = map_keys rest ->
            get k1 m = VUndefined /\ forall k v, In (k, v) rest -> get k m = v).
  { intros m Hs Ho. pose proof Hnd as Hnd0.
    apply NoDup_cons_iff in Hnd0. destruct Hnd0 as (Hnotin & Hnd').
    unfold get. rewrite Hs. split.
    - rewrite (map_get_absent k1 rest Hnotin). reflexivity.
    - intros k v Hin. rewrite (map_get_present k v rest Hnd' Hin). reflexivity. }
  destruct rest as [|e rest'] using rev_ind.
  - (* capacity 0: the entry evicts itself *)
    subst n. exists {| store := []; maxSize := 0; insertionOrder := [] |}.
    split.
    + unfold constructor. simpl. unfold save. simpl. rewrite Ht.
      rewrite String.eqb_refl. reflexivity.
    + split; [reflexivity|]. split; [reflexivity|]. apply Hfinal; reflexivity.
  - clear IHrest'. destruct e as [kl vl].
    change ((k1, v1) :: rest' ++ [(kl, vl)])
      with (((k1, v1) :: rest') ++ [(kl, vl)]).
    rewrite save_all_app.
    change (constructor (Some (Z.of_nat n)))
      with {| store := []; maxSize := Z.of_nat n;
              insertionOrder := map_keys (@nil (string * JsValue)) |}.
    rewrite length_app in Hlen. simpl in Hlen.
    assert (Hnd1 : NoDup (map_keys ((k1, v1) :: rest'))).
    { simpl. unfold map_keys in *. rewrite map_app in Hnd. simpl in Hnd.
      change (k1 :: List.map fst rest' ++ [kl])
        with ((k1 :: List.map fst rest') ++ [kl]) in Hnd.
      apply NoDup_remove_1 in Hnd. rewrite app_nil_r in Hnd. exact Hnd. }
    pose proof (@save_all_under ((k1, v1) :: rest') [] (Z.of_nat n)) as Hu.
    simpl app in Hu. rewrite Hu; [|exact Hnd1|simpl List.length; lia].
    clear Hu.
    assert (Hkl : ~ In kl (map_keys ((k1, v1) :: rest'))).
    { unfold map_keys in *. rewrite map_app in Hnd. simpl in Hnd.
      change (k1 :: List.map fst rest' ++ [kl])
        with ((k1 :: List.map fst rest') ++ [kl]) in Hnd.
      apply NoDup_remove_2 in Hnd. rewrite app_nil_r in Hnd. exact Hnd. }
    cbn [save_all]. rewrite save_new_key by exact Hkl.
    cbn [store maxSize insertionOrder map_keys List.map fst app].
    rewrite evict_one.
    2:{ rewrite length_app, length_map. simpl. lia. }
    rewrite Ht. cbn [map_delete]. rewrite String.eqb_refl.
    eexists. split; [reflexivity|]. cbn [store insertionOrder].
    assert (Ho : List.map fst rest' ++ [kl] = map_keys (rest' ++ [(kl, vl)])).
    { unfold map_keys. rewrite map_app. reflexivity. }
    split; [reflexivity|]. split; [exact Ho|].
    apply Hfinal; [reflexivity|exact Ho].
Qed.

Lemma fifo_eviction_witness :
  exists m,
    save_all [("k1", VNumber 1%float); ("k2", VNumber 2%float);
              ("k3", VNumber 3%float)]
             (constructor (Some 2)) = Some m /\
    get "k1" m = VUndefined /\
    get "k2" m = VNumber 2%float /\
    get "k3" m = VNumber 3%float.
Proof.
  destruct (@fifo_eviction 2 "k1" (VNumber 1%float)
              [("k2", VNumber 2%float); ("k3", VNumber 3%float)])
    as (m & Hs & _ & _ & H1 & Hr).
  - reflexivity.
  - repeat constructor; simpl; intuition discriminate.
  - discriminate.
  - exists m. split; [exact Hs|]. split; [exact H1|].
    split; apply Hr; simpl; auto.
Defined.

(** [get] takes the store and gives a value: it has no way to touch the
    insertion order.  Reading the oldest key before the store overflows
    does not save it from eviction. *)
Lemma get_does_not_refresh :
  exists m1 m2,
    save_all [("old", VNull); ("new", VNull)] (constructor (Some 2)) = Some m1 /\
    get "old" m1 = VNull /\
    save "next" VNull m1 = Some m2 /\
    get "old" m2 = VUndefined /\
    insertionOrder m2 = ["new"; "next"].
Proof.
  eexists _, _. split; [reflexivity|]. split; [reflexivity|].
  split; [reflexivity|]. split; reflexivity.
Qed.

(** C6 on the code: the eviction loop deletes the shifted key only when
    it is truthy ([if (oldestKey)]), and the empty string is not.  With
    capacity 1, after [save('', 1)] and [save('a', 2)] the key [''] has
    left the insertion order, but the map still holds it: [get('')]
    returns 1 and the store holds two entries. *)
Theorem empty_key_survives_eviction :
  exists m,
    save_all [(EmptyString, VNumber 1%float); ("a", VNumber 2%float)]
             (constructor (Some 1)) = Some m /\
    insertionOrder m = ["a"] /\
    get EmptyString m = VNumber 1%float /\
    get "a" m = VNumber 2%float /\
    size m = 2 /\ maxSize m = 1.
Proof.
  eexists. split; [vm_compute; reflexivity|]. repeat split.
Qed.

End ShortTermFacts.

(** ** The durable store *)

Module LongTermFacts.
Import JSON LongTerm MapFacts Examples.

(** ** JSON *)

Lemma json_safe_array items :
  json_safe (VArray items) <-> Forall json_safe items.
Proof.
  simpl. induction items as [|x items IH].
  - split; constructor.
  - rewrite IH. split.
    + intros (Hx & Hl). constructor; assumption.
    + intros H. inversion H; subst. auto.
Qed.

Lemma json_safe_object props :
  json_safe (VObject props) <->
  js_object props = props /\ Forall (fun kv => json_safe (snd kv)) props.
Proof.
  simpl. apply and_iff_compat_l.
  induction props as [|[k x] props IH].
  - split; constructor.
  - rewrite IH. split.
    + intros (Hx & Hl). constructor; assumption.
    + intros H. inversion H; subst. auto.
Qed.

(** A value that JSON represents exactly comes back from
    [JSON.parse(JSON.stringify(v))] as it was. *)
Lemma parse_stringify : forall v,
  json_safe v -> exists j, serialize v = inl (Some j) /\ value j = v.
Proof.
  fix IH 1. intros v Hs.
  destruct v as [| | b | x | z | s | items | props];
    try contradiction; try (eexists; split; reflexivity).
  - destruct Hs as [Hf Hz]. simpl. rewrite Hf, Hz.
    eexists. split; reflexivity.
  - apply json_safe_array in Hs.
    assert (L : exists js,
              (fix elements (l : list JsValue) : list Json + Thrown :=
                 match l with
                 | [] => inl []
                 | x :: rest =>
                     match serialize x with
                     | inr t => inr t
                     | inl j =>
                         match elements rest with
                         | inr t => inr t
                         | inl js =>
                             inl (match j with
                                  | Some j => j | None => JNull end :: js)
                         end
                     end
                 end) items = inl js /\
              List.map value js = items).
    { revert Hs. generalize items. fix IHl 1. intros [|x l] Hl.
      - exists []. split; reflexivity.
      - inversion Hl as [|? ? Hx Hl']; subst.
        destruct (IH x Hx) as (j & Hj & Hv).
        destruct (IHl l Hl') as (js & Hjs & Hvs).
        exists (j :: js). rewrite Hj, Hjs. simpl. rewrite Hv, Hvs.
        split; reflexivity. }
    destruct L as (js & Hjs & Hvs).
    exists (JArray js). simpl. rewrite Hjs. simpl. rewrite Hvs.
    split; reflexivity.
  - apply json_safe_object in Hs. destruct Hs as [Hord Hs].
    assert (L : exists ms,
              (fix members (ps : list (string * JsValue))
                   : list (string * Json) + Thrown :=
                 match ps with
                 | [] => inl []
                 | (k, x) :: rest =>
                     match serialize x with
                     | inr t => inr t
                     | inl j =>
                         match members rest with
                         | inr t => inr t
                         | inl ms =>
                             inl (match j with
                                  | Some j => (k, j) :: ms
                                  | None => ms
                                  end)
                         end
                     end
                 end) props = inl ms /\
              (fix props (ms : list (string * Json)) : list (string * JsValue) :=
                 match ms with
                 | [] => []
                 | (k, x) :: rest => (k, value x) :: props rest
                 end) ms = props).
    { revert Hs. generalize props. fix IHl 1. intros [|[k x] l] Hl.
      - exists []. split; reflexivity.
      - inversion Hl as [|? ? Hx Hl']; subst. simpl in Hx.
        destruct (IH x Hx) as (j & Hj & Hv).
        destruct (IHl l Hl') as (ms & Hms & Hvs).
        exists ((k, j) :: ms). rewrite Hj, Hms, Hv, Hvs. split; reflexivity. }
    destruct L as (ms & H1 & H2).
    exists (JObject ms). simpl. rewrite H1. simpl. rewrite H2, Hord.
    split; reflexivity.
Qed.

Lemma map_set_values (P : JsValue -> Prop) k v (m : JsMap JsValue) :
  Forall (fun kv => P (snd kv)) m -> P v ->
  Forall (fun kv => P (snd kv)) (map_set k v m).
Proof.
  intros Hm Hv. induction m as [|[k' v'] m IH]; simpl.
  - constructor; [exact Hv|constructor].
  - inversion Hm; subst. destruct (String.eqb k' k); constructor; auto.
Qed.

Lemma fold_set_values (P : JsValue -> Prop) (l acc : list (string * JsValue)) :
  Forall (fun kv => P (snd kv)) acc ->
  Forall (fun kv => P (snd kv)) l ->
  Forall (fun kv => P (snd kv))
         (fold_left (fun m kv => map_set (fst kv) (snd kv) m) l acc).
Proof.
  revert acc. induction l as [|[k v] l IH]; intros acc Ha Hl; simpl;
    [exact Ha|].
  inversion Hl; subst. apply IH; [|assumption].
  apply map_set_values; assumption.
Qed.

(** ** [persist] and [load] *)

Lemma add_dir_in ds d x : In x ds -> In x (add_dir ds d).
Proof.
  unfold add_dir. destruct (existsb (String.eqb d) ds); [auto|].
  intros H. apply in_or_app. left. exact H.
Qed.

Lemma add_dir_new ds d : In d (add_dir ds d).
Proof.
  unfold add_dir. destruct (existsb (String.eqb d) ds) eqn:E.
  - apply existsb_exists in E. destruct E as (y & Hy & He).
    apply String.eqb_eq in He. subst. exact Hy.
  - apply in_or_app. right. left. reflexivity.
Qed.

Lemma add_dirs_keep l : forall ds x,
  In x ds -> In x (fold_left add_dir l ds).
Proof.
  induction l as [|d l IH]; intros ds x H; simpl; [exact H|].
  apply IH. apply add_dir_in. exact H.
Qed.

Lemma add_dirs_in l : forall ds x,
  In x l -> In x (fold_left add_dir l ds).
Proof.
  induction l as [|d l IH]; intros ds x H; simpl; [contradiction|].
  destruct H as [<-|H]; [|apply IH; exact H].
  apply add_dirs_keep. apply add_dir_new.
Qed.

Lemma add_dirs_present l : forall ds,
  (forall x, In x l -> In x ds) -> fold_left add_dir l ds = ds.
Proof.
  induction l as [|d l IH]; intros ds H; simpl; [reflexivity|].
  assert (Hd : add_dir ds d = ds).
  { unfold add_dir.
    assert (E : existsb (String.eqb d) ds = true).
    { apply existsb_exists. exists d. split; [apply H; left; reflexivity|].
      apply String.eqb_refl. }
    rewrite E. reflexivity. }
  rewrite Hd. apply IH. intros x Hx. apply H. right. exact Hx.
Qed.

(** After [mkdir] the directory is there. *)
Lemma mkdir_made dir f f' :
  mkdir dir f = inl f' ->
  dir_exists dir f' = true /\
  files f' = files f /\ denied f' = denied f /\
  interrupted f' = interrupted f /\
  dirs f' = fold_left add_dir (with_ancestors dir) (dirs f) /\
  is_denied dir f = false.
Proof.
  unfold mkdir. destruct (is_denied dir f) eqn:Ed; [discriminate|].
  intros H. inversion H; subst f'; clear H.
  cbn [files dirs denied interrupted].
  split; [|auto 6].
  unfold dir_exists. cbn [dirs].
  destruct (is_root dir) eqn:Er; [reflexivity|]. cbn [orb].
  apply existsb_exists. exists dir. split; [|apply String.eqb_refl].
  apply add_dirs_in. unfold with_ancestors. cbn [chain]. rewrite Er.
  left. reflexivity.
Qed.

(** What a call of [persist] that resolved has done. *)
Lemma persist_resolved m h m1 h1 :
  persist m h = (None, m1, h1) ->
  exists doc,
    serialize (Object_fromEntries (store m)) = inl (Some doc) /\
    is_denied (storagePath m) (fs h) = false /\
    files (fs h1) = map_set (storagePath m) (JsonText doc) (files (fs h)) /\
    denied (fs h1) = denied (fs h) /\
    console h1 = console h /\
    store m1 = store m /\ storagePath m1 = storagePath m /\
    isDirty m1 = false.
Proof.
  unfold persist, persist_catch, stringify. intros H.
  destruct (mkdir (dirname (storagePath m)) (fs h)) as [f|t] eqn:Em;
    [|discriminate].
  apply mkdir_made in Em. destruct Em as (_ & Hf & Hd & _).
  destruct (serialize (Object_fromEntries (store m))) as [[doc|]|t] eqn:Es;
    try discriminate.
  unfold writeFile, is_denied in *. rewrite Hd, Hf in H.
  destruct (existsb (String.eqb (storagePath m)) (denied (fs h))) eqn:Ed;
    [discriminate|].
  destruct (negb (dir_exists (dirname (storagePath m)) f)); [discriminate|].
  destruct (map_get (storagePath m) (interrupted f)); [discriminate|].
  inversion H; subst. exists doc. simpl. repeat split.
Qed.

(** [load] has no failure path; when the file is missing or does not
    parse, the map is emptied and the dirty flag is left as it was. *)
Lemma load_missing_or_malformed m h :
  (map_get (storagePath m) (files (fs h)) = None \/
   exists text, map_get (storagePath m) (files (fs h)) = Some (RawText text)) ->
  exists h',
    load m h = ({| store := []; storagePath := storagePath m;
                   autoSaveTimer := autoSaveTimer m;
                   isDirty := isDirty m |}, h') /\
    fs h' = fs h.
Proof.
  intros H. unfold load, readFile.
  destruct (is_denied (storagePath m) (fs h)).
  { unfold load_catch. simpl. eexists. split; reflexivity. }
  destruct H as [H|(text & H)]; rewrite H; unfold load_catch; simpl;
    eexists; split; reflexivity.
Qed.

(** A [load] that finds a JSON object clears the flag. *)
Lemma load_object_clears m h props :
  is_denied (storagePath m) (fs h) = false ->
  map_get (storagePath m) (files (fs h)) = Some (JsonText (JObject props)) ->
  exists st, load m h = ({| store := st; storagePath := storagePath m;
                            autoSaveTimer := autoSaveTimer m;
                            isDirty := false |}, h).
Proof.
  intros Hd Hf. unfold load, readFile. rewrite Hd, Hf. simpl.
  eexists. reflexivity.
Qed.

(** The first three stages of the dirty flag. *)
Lemma dirty_flag_lifecycle options k v h m1 h1 :
  isDirty (constructor options) = false /\
  isDirty (save k v (constructor options)) = true /\
  (persist (save k v (constructor options)) h = (None, m1, h1) ->
   isDirty m1 = false).
Proof.
  split; [reflexivity|]. split; [reflexivity|].
  intros H. apply persist_resolved in H.
  destruct H as (doc & _ & _ & _ & _ & _ & _ & _ & Hd). exact Hd.
Qed.

Lemma export_json_safe m :
  Forall (fun kv => json_safe (snd kv)) (store m) ->
  json_safe (export m).
Proof.
  intros Hsafe. unfold export, Object_fromEntries.
  apply json_safe_object. split; [apply OrderFacts.js_object_fixed|].
  assert (Hm : Forall (fun kv => json_safe (snd kv))
                      (map_of_entries (store m))).
  { unfold map_of_entries. apply fold_set_values; [constructor|exact Hsafe]. }
  rewrite Forall_forall in *. intros kv Hin. apply Hm.
  apply OrderFacts.js_object_in. exact Hin.
Qed.

(** C7, as the code has it.  When the values held are values JSON
    represents exactly (no [undefined], no BigInt, no number that is not
    finite, no [-0]) and [persist()] resolves, a new instance on the same
    path that loads what was written exports the same object, and is
    clean. *)
Theorem persist_load_roundtrip m h m1 h1 options :
  Forall (fun kv => json_safe (snd kv)) (store m) ->
  persist m h = (None, m1, h1) ->
  opt_storagePath options = storagePath m ->
  exists m2,
    load (constructor options) h1 = (m2, h1) /\
    export m2 = export m /\
    isDirty m2 = false.
Proof.
  intros Hsafe Hp Hpath. apply persist_resolved in Hp.
  destruct Hp as (doc & Hdoc & Hden & Hfiles & Hdenied & _).
  pose proof (export_json_safe m Hsafe) as Hobj. unfold export in Hobj.
  destruct (parse_stringify _ Hobj) as (j & Hj & Hv).
  assert (j = doc) as -> by congruence.
  unfold load, readFile. cbn [storagePath constructor]. rewrite Hpath.
  assert (Hden1 : is_denied (storagePath m) (fs h1) = false).
  { unfold is_denied in *. rewrite Hdenied. exact Hden. }
  rewrite Hden1, Hfiles, map_get_set_same. cbn [parse]. rewrite Hv.
  cbn [Object_fromEntries Object_entries].
  eexists. split; [reflexivity|]. split; [|reflexivity].
  unfold export, Object_fromEntries. cbn [store].
  rewrite (map_of_entries_fresh _ (OrderFacts.js_object_nodup (store m))).
  rewrite OrderFacts.js_object_fixed. reflexivity.
Qed.

Lemma persist_load_roundtrip_witness :
  Forall (fun kv => json_safe (snd kv)) (store memory_with_index_keys) /\
  keys memory_with_index_keys = ["10"; "b"; "1"] /\
  exists m1 h1 m2,
    persist memory_with_index_keys empty_host = (None, m1, h1) /\
    load (constructor memory_options) h1 = (m2, h1) /\
    export m2 = export memory_with_index_keys /\
    isDirty m2 = false /\
    keys m2 = ["1"; "10"; "b"] /\
    get "1" m2 = VNumber 0.5%float.
Proof.
  assert (Hsafe : Forall (fun kv => json_safe (snd kv))
                         (store memory_with_index_keys)).
  { repeat constructor. }
  split; [exact Hsafe|]. split; [reflexivity|].
  eexists _, _.
  assert (P : persist memory_with_index_keys empty_host = (None, _, _))
    by reflexivity.
  destruct (@persist_load_roundtrip memory_with_index_keys empty_host _ _
              memory_options Hsafe P eq_refl) as (m2 & Hl & He & Hd).
  exists m2. split; [exact P|]. split; [exact Hl|]. split; [exact He|].
  split; [exact Hd|].
  pose proof Hl as Hl'. vm_compute in Hl'. inversion Hl'; subst m2.
  split; reflexivity.
Defined.

(** C7 as worded fails on the code: [JSON.stringify] writes [NaN] as
    [null], so a key saved with [NaN] comes back holding [null]. *)
Lemma nan_value_changed_on_roundtrip :
  exists m1 h1 m2,
    persist memory_with_nan empty_host = (None, m1, h1) /\
    load (constructor memory_options) h1 = (m2, h1) /\
    export memory_with_nan = VObject [("score", VNumber nan)] /\
    export m2 = VObject [("score", VNull)] /\
    export m2 <> export memory_with_nan.
Proof.
  eexists _, _, _.
  split; [reflexivity|]. split; [reflexivity|].
  split; [reflexivity|]. split; [reflexivity|]. discriminate.
Qed.

(** Likewise a key saved with [undefined] is left out of the file and is
    gone after the round trip. *)
Lemma undefined_value_lost_on_roundtrip :
  exists m1 h1 m2,
    persist memory_with_undefined empty_host = (None, m1, h1) /\
    load (constructor memory_options) h1 = (m2, h1) /\
    export memory_with_undefined = VObject [("k", VUndefined)] /\
    export m2 = VObject [] /\
    export m2 <> export memory_with_undefined.
Proof.
  eexists _, _, _.
  split; [reflexivity|]. split; [reflexivity|].
  split; [reflexivity|]. split; [reflexivity|]. discriminate.
Qed.

(** And [-0] is written as [0]: it comes back as [+0]. *)
Lemma negative_zero_changed_on_roundtrip :
  exists m1 h1 m2,
    persist memory_with_negative_zero empty_host = (None, m1, h1) /\
    load (constructor memory_options) h1 = (m2, h1) /\
    get "delta" memory_with_negative_zero = VNumber (-0)%float /\
    get "delta" m2 = VNumber 0%float /\
    export m2 <> export memory_with_negative_zero.
Proof.
  eexists _, _, _.
  split; [reflexivity|]. split; [reflexivity|].
  split; [reflexivity|]. split; [reflexivity|].
  intros H.
  apply (f_equal (fun v => match v with
                           | VObject [(_, VNumber x)] => is_neg_zero x
                           | _ => false
                           end)) in H.
  vm_compute in H. discriminate.
Qed.

(** With a BigInt among the values [persist()] rejects, after the
    directory was made and before the file is opened; the store stays
    dirty. *)
Lemma persist_rejects_bigint :
  exists h1,
    persist memory_with_bigint empty_host =
      (Some BigIntError, memory_with_bigint, h1) /\
    files (fs h1) = [] /\ dirs (fs h1) = ["/tmp"] /\
    console h1 = ["Error persisting long-term memory:"].
Proof. eexists. split; [reflexivity|]. repeat split. Qed.

(** C8 on the code: the [catch] block of [load] empties the map and
    leaves [isDirty] alone.  An instance made dirty by one [save] and
    then loaded from a path with no file, or with a file that is not
    JSON, holds nothing and still reports [isDirty = true]; the call
    does not throw, and the malformed file is reported on the console. *)
Theorem load_failure_keeps_dirty :
  isDirty (constructor memory_options) = false /\
  isDirty dirty_memory = true /\
  store (fst (load dirty_memory empty_host)) = [] /\
  isDirty (fst (load dirty_memory empty_host)) = true /\
  store (fst (load dirty_memory corrupted_host)) = [] /\
  isDirty (fst (load dirty_memory corrupted_host)) = true /\
  console (snd (load dirty_memory corrupted_host)) =
    ["Error loading long-term memory:"].
Proof. vm_compute. repeat split. Qed.

End LongTermFacts.

(* ================================================================== *)
(** * Further facts about maps: deletion *)
(* ================================================================== *)

Module DeleteFacts.
Import MapFacts.

Section WithValues.
Variable V : Type.
Implicit Types (m : JsMap V) (k : string) (v : V).

Lemma map_get_delete_other k k' m :
  k' <> k -> map_get k' (map_delete k m) = map_get k' m.
Proof.
  intros Hne. induction m as [|[k0 v0] m IH]; simpl; [reflexivity|].
  destruct (String.eqb_spec k0 k) as [->|Hk]; simpl.
  - destruct (String.eqb_spec k k'); [congruence|reflexivity].
  - destruct (String.eqb k0 k'); [reflexivity|exact IH].
Qed.

Lemma map_delete_keys_incl k k' m :
  In k' (map_keys (map_delete k m)) -> In k' (map_keys m).
Proof.
  induction m as [|[k0 v0] m IH]; simpl; [tauto|].
  destruct (String.eqb k0 k); simpl; [tauto|].
  intros [H|H]; [left; exact H|right; apply IH; exact H].
Qed.

Lemma map_delete_nodup k m :
  NoDup (map_keys m) -> NoDup (map_keys (map_delete k m)).
Proof.
  induction m as [|[k0 v0] m IH]; simpl; intros H; [exact H|].
  inversion H as [|? ? Hn Hd]; subst.
  destruct (String.eqb k0 k); simpl; [exact Hd|].
  constructor; [|apply IH; exact Hd].
  intros Hin. apply Hn. eapply map_delete_keys_incl. exact Hin.
Qed.

Lemma map_delete_keys k k' m :
  NoDup (map_keys m) ->
  (In k' (map_keys (map_delete k m)) <-> In k' (map_keys m) /\ k' <> k).
Proof.
  induction m as [|[k0 v0] m IH]; simpl; intros H; [tauto|].
  inversion H as [|? ? Hn Hd]; subst.
  destruct (String.eqb_spec k0 k) as [->|Hk]; simpl.
  - split.
    + intros Hin. split; [right; exact Hin|]. intros ->. contradiction.
    + intros [[He|Hin] Hne]; [congruence|exact Hin].
  - rewrite (IH Hd). split.
    + intros [He|[Hin Hne]]; [subst; split; [left; reflexivity|congruence]|].
      split; [right; exact Hin|exact Hne].
    + intros [[He|Hin] Hne]; [left; exact He|right; split; assumption].
Qed.

Lemma map_get_delete_same k m :
  NoDup (map_keys m) -> map_get k (map_delete k m) = None.
Proof.
  intros H. apply map_get_absent. intros Hin.
  apply (map_delete_keys k k m H) in Hin. destruct Hin as [_ Hne].
  congruence.
Qed.

Lemma map_delete_absent k m :
  ~ In k (map_keys m) -> map_delete k m = m.
Proof.
  induction m as [|[k0 v0] m IH]; simpl; intros H; [reflexivity|].
  destruct (String.eqb_spec k0 k) as [->|Hk].
  - exfalso. apply H. left. reflexivity.
  - rewrite IH; [reflexivity|]. intros Hin. apply H. right. exact Hin.
Qed.

Lemma map_has_false k m : map_has k m = false <-> ~ In k (map_keys m).
Proof.
  split.
  - intros H Hin. apply map_has_in in Hin. congruence.
  - intros H. destruct (map_has k m) eqn:E; [|reflexivity].
    apply map_has_in in E. contradiction.
Qed.

Lemma map_get_in k v m : map_get k m = Some v -> In (k, v) m.
Proof.
  induction m as [|[k0 v0] m IH]; simpl; [discriminate|].
  destruct (String.eqb_spec k0 k) as [->|Hk].
  - intros H. inversion H; subst. left. reflexivity.
  - intros H. right. apply IH. exact H.
Qed.

Lemma map_set_set k v v' m :
  map_set k v (map_set k v' m) = map_set k v m.
Proof.
  induction m as [|[k0 v0] m IH]; simpl.
  - rewrite String.eqb_refl. reflexivity.
  - destruct (String.eqb k0 k) eqn:E; simpl; rewrite E; [reflexivity|].
    rewrite IH. reflexivity.
Qed.

(** Setting the entries of a list without repeated keys, one by one. *)
Lemma fold_set_get k (l : list (string * V)) : forall acc,
  NoDup (map_keys l) ->
  map_get k (fold_left (fun st kv => map_set (fst kv) (snd kv) st) l acc) =
  match map_get k l with
  | Some v => Some v
  | None => map_get k acc
  end.
Proof.
  induction l as [|[k0 v0] l IH]; intros acc Hnd; cbn; [reflexivity|].
  inversion Hnd as [|? ? Hn Hd]; subst.
  rewrite (IH _ Hd). destruct (String.eqb_spec k0 k) as [->|Hk].
  - rewrite (map_get_absent k l Hn). apply map_get_set_same.
  - destruct (map_get k l); [reflexivity|].
    apply map_get_set_other. congruence.
Qed.

End WithValues.

End DeleteFacts.

(* ================================================================== *)
(** * Further properties of the agent *)
(* ================================================================== *)

Module RunFacts.
Import Core Observations Examples Invariants MoreExamples AgentFacts.

Lemma broadcast_app n l1 l2 :
  broadcast n (l1 ++ l2) = broadcast n l1 ++ broadcast n l2.
Proof. unfold broadcast. apply flat_map_app. Qed.

(** ** One pass with listeners that do not throw *)

Ltac pass_done :=
  eexists; split; [|split; [|split]];
  [ unfold step_events, broadcast; cbn;
    rewrite ?app_nil_r, <- ?app_assoc; reflexivity
  | reflexivity
  | cbn; rewrite ?app_nil_r; reflexivity
  | reflexivity ].

Lemma loop_body_trace a s log :
  quiet (listeners a) ->
  exists st s1,
    loop_body a s log =
      (None, s1, log ++ broadcast (List.length (listeners a)) (step_events st)) /\
    steps s1 = steps s ++ [st] /\
    messages s1 = messages s ++ step_messages st /\
    step_iteration st = iteration s + 1.
Proof.
  intro Q. unfold loop_body, executeStep, executeStep_try.
  destruct (makeDecision a (next_iteration s)) as [[th [act|]]|t]; cbn.
  - rewrite (@emitEvent_quiet a Q).
    destruct (map_get (tool act) (tools a)) as [tl|].
    + destruct (inputSchema tl (input act)) as [v|t].
      * destruct (Types.execute tl v) as [out|t].
        -- rewrite (@emitEvent_quiet a Q).
           destruct (JSON.stringify out) as [text|t] eqn:Hs.
           ++ rewrite !(@emitEvent_quiet a Q).
              exists {| step_iteration := iteration s + 1; thought := th;
                        action := Some act; observation := Some out;
                        error := None |}.
              eexists; split; [|split; [|split]].
              ** unfold step_events, broadcast; cbn.
                 rewrite ?app_nil_r, <- ?app_assoc. reflexivity.
              ** reflexivity.
              ** unfold step_messages. cbn [action observation error].
                 rewrite Hs. reflexivity.
              ** reflexivity.
           ++ rewrite !(@emitEvent_quiet a Q).
              exists {| step_iteration := iteration s + 1; thought := th;
                        action := Some act; observation := Some out;
                        error := Some (asError t) |}.
              pass_done.
        -- rewrite !(@emitEvent_quiet a Q).
           exists {| step_iteration := iteration s + 1; thought := th;
                     action := Some act; observation := None;
                     error := Some (asError t) |}.
           pass_done.
      * rewrite !(@emitEvent_quiet a Q).
        exists {| step_iteration := iteration s + 1; thought := th;
                  action := Some act; observation := None;
                  error := Some (asError t) |}.
        pass_done.
    + rewrite !(@emitEvent_quiet a Q).
      exists {| step_iteration := iteration s + 1; thought := th;
                action := Some act; observation := None;
                error := Some (Error ("Tool not found: " ++ tool act)%string) |}.
      pass_done.
  - rewrite !(@emitEvent_quiet a Q).
    exists {| step_iteration := iteration s + 1; thought := th;
              action := None; observation := None; error := None |}.
    pass_done.
  - rewrite !(@emitEvent_quiet a Q).
    exists {| step_iteration := iteration s + 1; thought := EmptyString;
              action := None; observation := None;
              error := Some (asError t) |}.
    pass_done.
Qed.

Lemma run_loop_trace a :
  quiet (listeners a) ->
  forall s log,
  exists news s',
    run_loop a s log =
      (None, s',
       log ++ broadcast (List.length (listeners a)) (flat_map step_events news)) /\
    steps s' = steps s ++ news /\
    messages s' = messages s ++ flat_map step_messages news.
Proof.
  intros Q s log.
  apply (@run_loop_ind a (fun s log res =>
    exists news s',
      res = (None, s',
             log ++ broadcast (List.length (listeners a))
                              (flat_map step_events news)) /\
      steps s' = steps s ++ news /\
      messages s' = messages s ++ flat_map step_messages news)).
  - intros s0 log0 _. exists [], s0. cbn. rewrite !app_nil_r. auto.
  - intros s0 log0 t s1 log1 _ Hb.
    destruct (@loop_body_trace a s0 log0 Q) as (st & s2 & Hb' & _).
    rewrite Hb in Hb'. discriminate.
  - intros s0 log0 s1 log1 _ Hb (news & s' & Hr & Hs & Hm).
    destruct (@loop_body_trace a s0 log0 Q) as (st & s2 & Hb' & Hs2 & Hm2 & _).
    rewrite Hb in Hb'. inversion Hb'; subst s2 log1; clear Hb'.
    exists (st :: news), s'. split; [|split].
    + rewrite Hr. cbn [flat_map]. rewrite broadcast_app, <- app_assoc.
      reflexivity.
    + rewrite Hs, Hs2, <- app_assoc. reflexivity.
    + rewrite Hm, Hm2, <- app_assoc. reflexivity.
Qed.



(** X2.  With listeners that do not throw, a run appends to the message
    history the user message with the input and then, for each step it
    records, in order, one tool message with the serialised output and the
    name of the tool if the step has an observation and no error, and
    nothing otherwise: no assistant message, nothing for a step whose
    tool failed, and nothing for a step whose output [JSON.stringify]
    threw on. *)
Theorem run_message_history a goal log :
  quiet (listeners a) ->
  exists news r a' log',
    run a goal log = (Returned r, a', log') /\
    res_steps r = steps (state a) ++ news /\
    messages (state a') =
      messages (state a) ++ [user_message goal] ++ flat_map step_messages news.
Proof.
  intros Q.
  destruct (@run_loop_trace a Q
              (push_message (state a) (user_message goal))
              (log ++ deliveries (List.length (listeners a))
                                 (EvStart (config a) goal)))
    as (news & s' & Hl & Hs & Hm).
  exists news, (result_of s'), (with_state a s').
  eexists. split; [|split].
  - unfold run. rewrite (@emitEvent_quiet a Q).
    fold (user_message goal). rewrite Hl.
    rewrite (@emitEvent_quiet a Q). reflexivity.
  - cbn. rewrite Hs. reflexivity.
  - cbn. rewrite Hm. cbn. rewrite <- app_assoc. reflexivity.
Qed.

Lemma run_message_history_witness :
  quiet (listeners two_step_agent) /\
  exists news r a' log',
    run two_step_agent "Add 5 and 3" [] = (Returned r, a', log') /\
    res_steps r = steps (state two_step_agent) ++ news /\
    messages (state a') =
      messages (state two_step_agent) ++ [user_message "Add 5 and 3"]
        ++ flat_map step_messages news.
Proof.
  split.
  - exact (recorders_quiet 1).
  - exact (@run_message_history two_step_agent "Add 5 and 3" []
             (recorders_quiet 1)).
Defined.

(** ** Numbering *)

Lemma executeStep_try_number a s st log r st' s' log' :
  executeStep_try a s st log = (r, st', s', log') ->
  step_iteration st' = step_iteration st.
Proof.
  unfold executeStep_try. intro H.
  destruct (makeDecision a s) as [d|t]; [|inversion H; reflexivity].
  destruct (d_action d) as [act|]; [|inversion H; reflexivity].
  destruct (emitEvent a (EvToolCall _ _) log) as [[t|] lg];
    [inversion H; reflexivity|].
  destruct (map_get (tool act) (tools a)) as [tl|];
    [|inversion H; reflexivity].
  destruct (inputSchema tl (input act)) as [v|t];
    [|inversion H; reflexivity].
  destruct (Types.execute tl v) as [out|t]; [|inversion H; reflexivity].
  destruct (emitEvent a (EvToolResult _ _) lg) as [[t|] lg'];
    [inversion H; reflexivity|].
  destruct (JSON.stringify out) as [text|t]; inversion H; reflexivity.
Qed.

Lemma executeStep_number a s log st s' log' :
  executeStep a s log = (inl st, s', log') ->
  step_iteration st = iteration s.
Proof.
  unfold executeStep. intro H.
  destruct (executeStep_try a s _ log) as [[[r st0] s0] lg] eqn:E.
  apply executeStep_try_number in E. cbn in E.
  destruct r as [t|].
  - destruct (emitEvent a (EvError _ _) lg) as [[t'|] lg'];
      inversion H; subst. exact E.
  - inversion H; subst. exact E.
Qed.

Lemma loop_body_number a s log s1 log1 :
  loop_body a s log = (None, s1, log1) ->
  exists st, steps s1 = steps s ++ [st] /\
             step_iteration st = iteration s + 1 /\
             iteration s1 = iteration s + 1.
Proof.
  intro H. pose proof (loop_body_iteration _ _ _ H) as Hi.
  unfold loop_body in H.
  destruct (executeStep a (next_iteration s) log) as [[[st|t] s0] lg] eqn:E;
    [|discriminate].
  pose proof (executeStep_number _ _ _ E) as Hn.
  apply executeStep_control in E. destruct E as (_ & Hs & _).
  destruct (emitEvent a (EvStep st) lg) as [[t|] lg']; [discriminate|].
  exists st. inversion H; subst s1 log1. split; [|split].
  - destruct (action st); cbn; rewrite Hs; reflexivity.
  - rewrite Hn. reflexivity.
  - destruct (action st); cbn in *; lia.
Qed.

Lemma numbered_push s s1 st :
  numbered s ->
  steps s1 = steps s ++ [st] ->
  step_iteration st = iteration s + 1 ->
  iteration s1 = iteration s + 1 ->
  numbered s1.
Proof.
  intros [Hm Hi] Hs Hn Hi1. unfold numbered.
  rewrite Hs, length_app, map_app, Hm. cbn [List.length List.map].
  rewrite Nat.add_1_r, seq_S, map_app. cbn [List.map].
  split.
  - f_equal. f_equal. rewrite Hn, Hi. lia.
  - rewrite Hi1, Hi. lia.
Qed.

Lemma run_loop_numbered a s log s' log' :
  numbered s -> run_loop a s log = (None, s', log') -> numbered s'.
Proof.
  revert s' log'.
  apply (@run_loop_ind a (fun s log res =>
    forall s' log', numbered s -> res = (None, s', log') -> numbered s')).
  - intros s0 log0 _ s' log' N H. inversion H; subst. exact N.
  - intros; discriminate.
  - intros s0 log0 s1 log1 _ Hb IH s' log' N H.
    destruct (loop_body_number _ _ _ Hb) as (st & Hs & Hn & Hi).
    apply (IH s' log'); [|exact H].
    eapply numbered_push; eauto.
Qed.

(** X3.  On an agent whose recorded steps are numbered 1, 2, ... with the
    counter equal to their number (a new agent, an agent after [reset()]),
    a run that returns without [Result.error] leaves the state so, and its
    result has as many steps as [iterations], step number [i] carrying the
    iteration [i]. *)
Theorem run_numbers_steps a goal log r a' log' :
  numbered (state a) ->
  run a goal log = (Returned r, a', log') ->
  res_error r = None ->
  numbered (state a') /\
  iterations r = Z.of_nat (List.length (res_steps r)) /\
  List.map step_iteration (res_steps r) =
    List.map Z.of_nat (seq 1 (List.length (res_steps r))).
Proof.
  intros N H He.
  destruct (run_inv _ _ _ H) as [[t Ht]|(log1 & r0 & s2 & log2 & _ & Hl & Ha & Hc)];
    [discriminate|].
  destruct Hc as [(Hr0 & Hout & _)|[e Hout]].
  - subst r0. inversion Hout; subst r a'. cbn.
    assert (N2 : numbered s2).
    { eapply run_loop_numbered; [|exact Hl].
      destruct N as [N1 N2]. split; cbn; assumption. }
    split; [exact N2|]. destruct N2 as [N1 N2]. split; assumption.
  - inversion Hout; subst r. cbn in He. discriminate.
Qed.

Lemma run_numbers_steps_witness :
  exists r a' log',
    numbered (state two_step_agent) /\
    run two_step_agent "Add 5 and 3" [] = (Returned r, a', log') /\
    res_error r = None /\
    iterations r = 2 /\
    List.map step_iteration (res_steps r) = [1; 2].
Proof.
  eexists; eexists; eexists.
  assert (N : numbered (state two_step_agent)) by (split; reflexivity).
  assert (R : run two_step_agent "Add 5 and 3" [] = _) by (vm_compute; reflexivity).
  split; [exact N|]. split; [exact R|]. split; [reflexivity|].
  destruct (@run_numbers_steps two_step_agent "Add 5 and 3" [] _ _ _ N R eq_refl)
    as (_ & Hi & Hm).
  split; [exact Hi | exact Hm].
Defined.

(** ** Running again *)


Lemma loop_guard_push_message a s m :
  loop_guard a (push_message s m) = loop_guard a s.
Proof. reflexivity. Qed.



(** X5.  A recorded step with an error stays in the state until
    [reset()]: every result a later run returns has [success] off,
    whatever that run does. *)
Theorem recorded_error_blocks_success a goal log r a' log' st :
  In st (steps (state a)) ->
  error st <> None ->
  run a goal log = (Returned r, a', log') ->
  success r = false /\ In st (res_steps r).
Proof.
  intros Hin He H.
  destruct (run_inv _ _ _ H) as [[t Ht]|(log1 & r0 & s2 & log2 & _ & Hl & Ha & Hc)];
    [discriminate|].
  apply run_loop_steps_prefix in Hl. destruct Hl as [more Hs].
  cbn in Hs.
  assert (Hin2 : In st (steps s2)).
  { rewrite Hs. apply in_or_app. left. exact Hin. }
  destruct Hc as [(_ & Hout & _)|[e Hout]]; inversion Hout; subst r; cbn.
  - split; [|exact Hin2].
    assert (Hx : existsb has_error (steps s2) = true).
    { apply existsb_exists. exists st. split; [exact Hin2|].
      unfold has_error. destruct (error st); [reflexivity|congruence]. }
    rewrite Hx. apply andb_false_r.
  - split; [reflexivity|exact Hin2].
Qed.

Lemma recorded_error_blocks_success_witness :
  In ghost_step (steps (state after_ghost_run)) /\
  error ghost_step <> None /\
  exists r a' log',
    run after_ghost_run "Again" [] = (Returned r, a', log') /\
    success r = false /\ In ghost_step (res_steps r).
Proof.
  assert (Hin : In ghost_step (steps (state after_ghost_run)))
    by (left; reflexivity).
  assert (He : error ghost_step <> None) by discriminate.
  split; [exact Hin|]. split; [exact He|].
  destruct (@run_returns after_ghost_run (recorders_quiet 2) "Again" [])
    as (s' & log' & R).
  exists (result_of s'), (with_state after_ghost_run s'), log'.
  split; [exact R|].
  exact (@recorded_error_blocks_success after_ghost_run "Again" [] _ _ _
           ghost_step Hin He R).
Defined.

(** ** Listeners that throw *)

Lemma emit_from_stops before l after ev t :
  quiet before ->
  l ev = Some t ->
  forall i log,
    emit_from i (before ++ l :: after) ev log =
    (Some t, log ++ List.map (fun j => (j, ev))
                             (seq i (S (List.length before)))).
Proof.
  intros Q Hl. induction before as [|b before IH]; intros i log.
  - cbn. rewrite Hl. reflexivity.
  - cbn [app emit_from]. rewrite (Q b ev (or_introl eq_refl)).
    rewrite IH.
    + cbn [List.length seq List.map]. rewrite <- app_assoc. reflexivity.
    + intros l0 ev0 H0. apply Q. right. exact H0.
Qed.

(** X6.  [emitEvent] stops at the first listener that throws.  When that
    happens on [start], [run] rejects with what the listener threw: the
    listeners registered after it are never called, no message is pushed
    and no step runs, and there is neither an [error] nor a [finish]
    event. *)
Theorem start_listener_failure_rejects a goal log before l after t :
  listeners a = before ++ l :: after ->
  quiet before ->
  l (EvStart (config a) goal) = Some t ->
  run a goal log =
    (Rejected t, a,
     log ++ deliveries (S (List.length before)) (EvStart (config a) goal)).
Proof.
  intros Hls Q Hl. unfold run, emitEvent. rewrite Hls.
  rewrite (@emit_from_stops before l after _ t Q Hl). reflexivity.
Qed.

Lemma start_listener_failure_rejects_witness :
  listeners guarded_agent = [recorder] ++ thrower :: [recorder] /\
  quiet [recorder] /\
  thrower (EvStart (config guarded_agent) "Test") =
    Some (ThrowError (Error "listener failed")) /\
  run guarded_agent "Test" [] =
    (Rejected (ThrowError (Error "listener failed")), guarded_agent,
     [] ++ deliveries 2 (EvStart (config guarded_agent) "Test")).
Proof.
  assert (Hls : listeners guarded_agent = [recorder] ++ thrower :: [recorder])
    by reflexivity.
  assert (Hl : thrower (EvStart (config guarded_agent) "Test") =
               Some (ThrowError (Error "listener failed"))) by reflexivity.
  split; [exact Hls|]. split; [exact (recorders_quiet 1)|]. split; [exact Hl|].
  exact (@start_listener_failure_rejects guarded_agent "Test" [] [recorder]
           thrower [recorder] _ Hls (recorders_quiet 1) Hl).
Defined.

(** ** The [run] of the Phase 0 revision *)



(** ** [reset()] *)

Lemma run_agent_shape a goal log out a' log' :
  run a goal log = (out, a', log') -> exists s, a' = with_state a s.
Proof.
  unfold run, run_catch. intros H.
  destruct (emitEvent a (EvStart (config a) goal) log) as [[t|] lg].
  - inversion H; subst. exists (state a'). destruct a'; reflexivity.
  - destruct (run_loop a _ lg) as [[[t|] s] lg2].
    + destruct (emitEvent a (EvError _ _) lg2) as [[t'|] lg3];
        inversion H; subst; eexists; reflexivity.
    + destruct (emitEvent a (EvFinish _) lg2) as [[t|] lg3].
      * destruct (emitEvent a (EvError _ _) lg3) as [[t'|] lg4];
          inversion H; subst; eexists; reflexivity.
      * inversion H; subst; eexists; reflexivity.
Qed.

Lemma reset_with_state a s :
  state a = initialState (systemPrompt (config a)) ->
  reset (with_state a s) = a.
Proof.
  destruct a as [c ts ls st md]. cbn. intros ->. reflexivity.
Qed.

(** X25.  [reset()] undoes a run: whatever a run on a newly constructed
    agent did (also when it rejected or returned [Result.error]),
    [reset()] afterwards gives back the agent as it was constructed
    (time stamps apart), with its configuration, prompt, tools and
    listeners, the counter at 0 and the system message as the only
    message. *)
Theorem reset_restores_constructed_agent decide options goal log out a' log' :
  run (constructor decide options) goal log = (out, a', log') ->
  reset a' = constructor decide options.
Proof.
  intros H. destruct (run_agent_shape _ _ _ H) as [s ->].
  apply reset_with_state. apply constructor_state.
Qed.

Lemma reset_restores_constructed_agent_witness :
  exists out a' log',
    run two_step_agent "Add 5 and 3" [] = (out, a', log') /\
    iteration (state a') = 2 /\
    reset a' = two_step_agent.
Proof.
  eexists; eexists; eexists.
  assert (R : run two_step_agent "Add 5 and 3" [] = _) by (vm_compute; reflexivity).
  split; [exact R|]. split; [reflexivity|].
  exact (@reset_restores_constructed_agent sum_then_done
           (options 2 [calculator] [recorder]) "Add 5 and 3" [] _ _ _ R).
Defined.

End RunFacts.

(* ================================================================== *)
(** * Further properties of the tool registry *)
(* ================================================================== *)

Module RegistryFacts.
Import Registry MapFacts DeleteFacts Invariants MoreExamples.

(** ** Maps and sets *)

Lemma map_has_set_mono (V : Type) k n (v : V) m :
  map_has n m = true -> map_has n (map_set k v m) = true.
Proof.
  intros H. destruct (String.eqb_spec n k) as [->|Hd].
  - apply map_has_set.
  - unfold map_has in *. rewrite map_get_set_other by exact Hd. exact H.
Qed.

Lemma map_get_map (A B : Type) (f : A -> B) c (cats : JsMap A) :
  map_get c (List.map (fun p => (fst p, f (snd p))) cats) =
  option_map f (map_get c cats).
Proof.
  induction cats as [|[k0 v0] cats IH]; simpl; [reflexivity|].
  destruct (String.eqb k0 c); [reflexivity|exact IH].
Qed.

Lemma map_keys_map (A B : Type) (f : A -> B) (cats : JsMap A) :
  map_keys (List.map (fun p => (fst p, f (snd p))) cats) = map_keys cats.
Proof.
  unfold map_keys. rewrite map_map. reflexivity.
Qed.

Lemma existsb_eqb_in x xs : existsb (String.eqb x) xs = true <-> In x xs.
Proof.
  rewrite existsb_exists. split.
  - intros (y & Hy & He). apply String.eqb_eq in He. subst. exact Hy.
  - intros H. exists x. split; [exact H|apply String.eqb_refl].
Qed.

Lemma set_add_in n x xs : In n (set_add x xs) <-> n = x \/ In n xs.
Proof.
  unfold set_add. destruct (existsb (String.eqb x) xs) eqn:E.
  - apply existsb_eqb_in in E. split; [tauto|].
    intros [->|H]; assumption.
  - rewrite in_app_iff. cbn. split.
    + intros [H|[H|[]]]; [right; exact H|left; symmetry; exact H].
    + intros [H|H]; [right; left; symmetry; exact H|left; exact H].
Qed.

Lemma set_add_nodup x xs : NoDup xs -> NoDup (set_add x xs).
Proof.
  intros H. unfold set_add. destruct (existsb (String.eqb x) xs) eqn:E;
    [exact H|].
  apply NoDup_app; [exact H|repeat constructor; cbn; tauto|].
  intros y Hy [<-|[]].
  apply existsb_eqb_in in Hy. congruence.
Qed.

Lemma set_delete_in n x xs : In n (set_delete x xs) <-> In n xs /\ n <> x.
Proof.
  unfold set_delete. rewrite filter_In. split; intros [H1 H2]; split;
    try exact H1.
  - intros ->. rewrite String.eqb_refl in H2. discriminate.
  - destruct (String.eqb_spec n x); [contradiction|reflexivity].
Qed.

Lemma lookup_all_in names ts t :
  In t (lookup_all names ts) <->
  exists n, In n names /\ map_get n ts = Some t.
Proof.
  induction names as [|n0 names IH]; cbn.
  - split; [tauto|]. intros (n & [] & _).
  - destruct (map_get n0 ts) as [t0|] eqn:E; cbn; rewrite IH; split.
    + intros [<-|(n & Hn & Hg)]; [exists n0; auto|exists n; auto].
    + intros (n & [<-|Hn] & Hg); [left; congruence|right; exists n; auto].
    + intros (n & Hn & Hg). exists n; auto.
    + intros (n & [<-|Hn] & Hg); [congruence|exists n; auto].
Qed.

Lemma lookup_all_names names ts :
  (forall n, In n names -> map_has n ts = true) ->
  (forall n t, map_get n ts = Some t -> name t = n) ->
  List.map name (lookup_all names ts) = names.
Proof.
  intros Hhas Hname. induction names as [|n0 names IH]; cbn; [reflexivity|].
  pose proof (Hhas n0 (or_introl eq_refl)) as H0. unfold map_has in H0.
  destruct (map_get n0 ts) as [t0|] eqn:E; [|discriminate].
  cbn. rewrite (Hname _ _ E). f_equal. apply IH.
  intros n Hn. apply Hhas. right. exact Hn.
Qed.

(** ** What [register] does *)

Lemma register_inv t c r r' :
  register t c r = inl r' ->
  has (name t) r = false /\
  reg_tools r' = map_set (name t) t (reg_tools r) /\
  ((exists cat, c = Some cat /\ truthy cat = true /\
      categories r' =
        map_set cat (set_add (name t) (members_of cat r)) (categories r)) \/
   ((c = None \/ exists cat, c = Some cat /\ truthy cat = false) /\
    categories r' = categories r)).
Proof.
  unfold register, has, members_of. intros H.
  destruct (map_has (name t) (reg_tools r)) eqn:Hh; [discriminate|].
  split; [reflexivity|].
  destruct c as [cat|].
  - destruct (truthy cat) eqn:Ht.
    + inversion H; subst r'; clear H. cbn. split; [reflexivity|].
      left. exists cat. split; [reflexivity|]. split; [exact Ht|].
      destruct (map_has cat (categories r)) eqn:Hc.
      * reflexivity.
      * rewrite map_get_set_same, map_set_set.
        unfold map_has in Hc. destruct (map_get cat (categories r));
          [discriminate|reflexivity].
    + inversion H; subst r'; clear H. cbn. split; [reflexivity|].
      right. split; [right; exists cat; auto|reflexivity].
  - inversion H; subst r'; clear H. cbn. split; [reflexivity|].
    right. split; [left; reflexivity|reflexivity].
Qed.

Lemma consistent_empty : consistent empty.
Proof.
  unfold consistent; cbn. split; [constructor|]. split; [constructor|].
  split; [discriminate|]. split; discriminate.
Qed.

Lemma consistent_register t c r r' :
  consistent r -> register t c r = inl r' -> consistent r'.
Proof.
  intros (Ht & Hc & Hn & Hm & Hx) H.
  destruct (register_inv _ _ _ H) as (Hfree & Hts & Hcats).
  unfold has in Hfree.
  assert (Hn' : forall n t0, map_get n (reg_tools r') = Some t0 -> name t0 = n).
  { intros n t0. rewrite Hts. destruct (String.eqb_spec n (name t)) as [->|Hd].
    - rewrite map_get_set_same. intros E. inversion E; subst. reflexivity.
    - rewrite map_get_set_other by exact Hd. apply Hn. }
  unfold consistent. rewrite Hts.
  split; [apply map_set_nodup; exact Ht|].
  destruct Hcats as [(cat & -> & Htr & Hcs)|[_ Hcs]]; rewrite Hcs.
  - split; [apply map_set_nodup; exact Hc|].
    split; [rewrite <- Hts; exact Hn'|].
    assert (Hold : NoDup (members_of cat r) /\
                   forall n, In n (members_of cat r) ->
                             map_has n (reg_tools r) = true).
    { unfold members_of. destruct (map_get cat (categories r)) as [ms|] eqn:E.
      - apply (Hm cat ms E).
      - split; [constructor|]. intros n []. }
    split.
    + intros c members. destruct (String.eqb_spec c cat) as [->|Hd].
      * rewrite map_get_set_same. intros E. inversion E; subst members.
        split; [apply set_add_nodup; apply Hold|].
        intros n Hin. apply set_add_in in Hin. destruct Hin as [->|Hin].
        -- apply map_has_set.
        -- apply map_has_set_mono. apply Hold. exact Hin.
      * rewrite map_get_set_other by exact Hd. intros E.
        destruct (Hm c members E) as [Hnd Hall]. split; [exact Hnd|].
        intros n Hin. apply map_has_set_mono. apply Hall. exact Hin.
    + assert (Hnew : forall c2 m2,
                c2 <> cat -> map_get c2 (categories r) = Some m2 ->
                forall n, In n (set_add (name t) (members_of cat r)) ->
                          In n m2 -> False).
      { intros c2 m2 Hd E2 n Hin Hin2. apply set_add_in in Hin.
        destruct Hin as [->|Hin].
        - destruct (Hm c2 m2 E2) as [_ Hall]. rewrite (Hall _ Hin2) in Hfree.
          discriminate.
        - unfold members_of in Hin.
          destruct (map_get cat (categories r)) as [ms|] eqn:E;
            [|contradiction].
          apply Hd. symmetry. exact (Hx cat c2 ms m2 n E E2 Hin Hin2). }
      intros c1 c2 m1 m2 n.
      destruct (String.eqb_spec c1 cat) as [->|Hd1];
        destruct (String.eqb_spec c2 cat) as [->|Hd2]; try reflexivity.
      * rewrite map_get_set_same, map_get_set_other by exact Hd2.
        intros E1 E2 H1 H2. inversion E1; subst m1.
        exfalso. exact (Hnew c2 m2 Hd2 E2 n H1 H2).
      * rewrite map_get_set_same, map_get_set_other by exact Hd1.
        intros E1 E2 H1 H2. inversion E2; subst m2.
        exfalso. exact (Hnew c1 m1 Hd1 E1 n H2 H1).
      * rewrite !map_get_set_other by assumption. apply Hx.
  - split; [exact Hc|]. split; [rewrite <- Hts; exact Hn'|]. split.
    + intros c0 members E. destruct (Hm c0 members E) as [Hnd Hall].
      split; [exact Hnd|]. intros n Hin. apply map_has_set_mono.
      apply Hall. exact Hin.
    + exact Hx.
Qed.

Lemma consistent_unregister toolName r :
  consistent r -> consistent (snd (unregister toolName r)).
Proof.
  intros (Ht & Hc & Hn & Hm & Hx). unfold consistent, unregister.
  cbn [snd reg_tools categories].
  split; [apply map_delete_nodup; exact Ht|].
  split; [rewrite map_keys_map; exact Hc|].
  split.
  { intros n t. destruct (String.eqb_spec n toolName) as [->|Hd].
    - rewrite (@map_get_delete_same _ toolName _ Ht). discriminate.
    - rewrite map_get_delete_other by exact Hd. apply Hn. }
  split.
  - intros c members. rewrite map_get_map.
    destruct (map_get c (categories r)) as [ms|] eqn:E; [|discriminate].
    cbn. intros E'. inversion E'; subst members.
    destruct (Hm c ms E) as [Hnd Hall]. split.
    + apply NoDup_filter. exact Hnd.
    + intros n Hin. apply set_delete_in in Hin. destruct Hin as [Hin Hd].
      unfold map_has. rewrite map_get_delete_other by exact Hd.
      apply Hall. exact Hin.
  - intros c1 c2 m1 m2 n. rewrite !map_get_map.
    destruct (map_get c1 (categories r)) as [ms1|] eqn:E1; [|discriminate].
    destruct (map_get c2 (categories r)) as [ms2|] eqn:E2; [|discriminate].
    cbn. intros E1' E2' H1 H2. inversion E1'; inversion E2'; subst.
    apply set_delete_in in H1, H2.
    exact (Hx c1 c2 ms1 ms2 n E1 E2 (proj1 H1) (proj1 H2)).
Qed.

Lemma built_consistent r : built r -> consistent r.
Proof.
  induction 1 as [|t c r r' _ IH H|n r _ IH|r _ _].
  - exact consistent_empty.
  - exact (@consistent_register t c r r' IH H).
  - apply consistent_unregister. exact IH.
  - exact consistent_empty.
Qed.

Lemma built_sample_registry : built sample_registry.
Proof.
  apply (@built_register Examples.lookup_v1 None
           {| reg_tools := [("calculator", Examples.calculator)];
              categories := [("math", ["calculator"])] |});
    [|reflexivity].
  apply (@built_register Examples.calculator (Some "math") empty);
    [|reflexivity].
  apply built_empty.
Qed.

(** X15.  A successful [register(tool, category)] makes [get], [has] and
    [execute] find the tool under its name, leaves every other name as it
    was, and, with a non-empty category, makes [getByCategory] list the
    tool; the name was free before. *)
Theorem register_then_lookup t c r r' :
  register t c r = inl r' ->
  has (name t) r = false /\
  get (name t) r' = Some t /\
  has (name t) r' = true /\
  (forall n, n <> name t -> get n r' = get n r) /\
  (forall v, execute (name t) v r' =
             match inputSchema t v with
             | inr e => inr e
             | inl validated => Types.execute t validated
             end) /\
  (forall cat, c = Some cat -> truthy cat = true ->
               In t (getByCategory cat r') /\ In cat (getCategories r')).
Proof.
  intros H. destruct (register_inv _ _ _ H) as (Hfree & Hts & Hcats).
  assert (Hg : get (name t) r' = Some t).
  { unfold get. rewrite Hts. apply map_get_set_same. }
  split; [exact Hfree|]. split; [exact Hg|].
  split; [unfold has, map_has; unfold get in Hg; rewrite Hg; reflexivity|].
  split.
  { intros n Hd. unfold get. rewrite Hts. apply map_get_set_other. exact Hd. }
  split.
  { intros v. unfold execute. unfold get in Hg. rewrite Hg. reflexivity. }
  intros cat -> Htr.
  destruct Hcats as [(cat' & Hc & _ & Hcs)|[[Hc|(cat' & Hc & Hf)] _]];
    [inversion Hc; subst cat'|discriminate|inversion Hc; congruence].
  split.
  - unfold getByCategory. rewrite Hcs, map_get_set_same.
    apply lookup_all_in. exists (name t). split; [|exact Hg].
    apply set_add_in. left. reflexivity.
  - unfold getCategories. rewrite Hcs. apply map_has_in. apply map_has_set.
Qed.

Lemma register_then_lookup_witness :
  exists r',
    register Examples.calculator (Some "math") empty = inl r' /\
    get "calculator" r' = Some Examples.calculator /\
    In Examples.calculator (getByCategory "math" r') /\
    execute "calculator"
      (VObject [("a", VNumber 5%float); ("b", VNumber 3%float)]) r' =
      inl (VNumber 8%float).
Proof.
  eexists.
  assert (R : register Examples.calculator (Some "math") empty = inl _)
    by reflexivity.
  split; [exact R|].
  destruct (@register_then_lookup Examples.calculator (Some "math") empty _ R)
    as (_ & Hg & _ & _ & He & Hc).
  split; [exact Hg|]. split; [exact (proj1 (Hc "math" eq_refl eq_refl))|].
  exact (He (VObject [("a", VNumber 5%float); ("b", VNumber 3%float)])).
Defined.

(** X16.  In every registry built with [register], [unregister] and
    [clear], [getByCategory] returns exactly one tool for each name
    recorded in the category (its filter drops nothing), each returned
    tool is the one [get] returns for its name, and no tool is returned
    for two categories. *)
Theorem categories_list_registered_tools r :
  built r ->
  (forall c members,
     map_get c (categories r) = Some members ->
     List.map name (getByCategory c r) = members /\ NoDup members) /\
  (forall c t, In t (getByCategory c r) -> get (name t) r = Some t) /\
  (forall c1 c2 t1 t2,
     In t1 (getByCategory c1 r) -> In t2 (getByCategory c2 r) ->
     name t1 = name t2 -> c1 = c2).
Proof.
  intros B. apply built_consistent in B.
  destruct B as (Ht & Hc & Hn & Hm & Hx).
  assert (Hin : forall c t, In t (getByCategory c r) ->
            exists ms, map_get c (categories r) = Some ms /\
                       In (name t) ms /\ get (name t) r = Some t).
  { intros c t. unfold getByCategory, get.
    destruct (map_get c (categories r)) as [ms|] eqn:E; [|intros []].
    intros H. apply lookup_all_in in H. destruct H as (n & Hn1 & Hg).
    pose proof (Hn _ _ Hg) as Hname. subst n. exists ms. auto. }
  split; [|split].
  - intros c members E. destruct (Hm c members E) as [Hnd Hall].
    split; [|exact Hnd]. unfold getByCategory. rewrite E.
    apply lookup_all_names; assumption.
  - intros c t H. destruct (Hin c t H) as (ms & _ & _ & Hg). exact Hg.
  - intros c1 c2 t1 t2 H1 H2 He.
    destruct (Hin c1 t1 H1) as (ms1 & E1 & I1 & _).
    destruct (Hin c2 t2 H2) as (ms2 & E2 & I2 & _).
    rewrite He in I1. exact (Hx c1 c2 ms1 ms2 (name t2) E1 E2 I1 I2).
Qed.

Lemma categories_list_registered_tools_witness :
  built sample_registry /\
  List.map name (getByCategory "math" sample_registry) = ["calculator"].
Proof.
  split; [exact built_sample_registry|].
  destruct (@categories_list_registered_tools sample_registry
              built_sample_registry) as (H & _ & _).
  exact (proj1 (H "math" ["calculator"] eq_refl)).
Defined.

(** X17.  In such a registry [unregister(name)] returns whether the name
    was registered; afterwards [get] and [has] do not find it, [execute]
    throws 'Tool not found', no category lists it, every other name is as
    before, and the categories stay listed, also the ones left empty. *)
Theorem unregister_removes_everywhere toolName r :
  built r ->
  let removed := fst (unregister toolName r) in
  let r' := snd (unregister toolName r) in
  removed = has toolName r /\
  get toolName r' = None /\
  has toolName r' = false /\
  (forall v, execute toolName v r' =
             inr (ThrowError (Error ("Tool not found: " ++ toolName)%string))) /\
  (forall c t, In t (getByCategory c r') -> name t <> toolName) /\
  (forall n, n <> toolName -> get n r' = get n r) /\
  getCategories r' = getCategories r.
Proof.
  intros B removed r'. pose proof (built_unregister toolName B) as B'.
  apply built_consistent in B. destruct B as (Ht & _).
  assert (Hg : get toolName r' = None).
  { unfold get, r', unregister. cbn.
    apply (@map_get_delete_same _ toolName _ Ht). }
  split; [reflexivity|]. split; [exact Hg|].
  split; [unfold has, map_has; unfold get in Hg; rewrite Hg; reflexivity|].
  split.
  { intros v. unfold execute. unfold get in Hg. rewrite Hg. reflexivity. }
  split.
  { intros c t H He.
    apply built_consistent in B'. fold r' in B'.
    destruct B' as (_ & _ & Hn' & _).
    unfold getByCategory in H.
    destruct (map_get c (categories r')) as [ms|]; [|contradiction].
    apply lookup_all_in in H. destruct H as (n & _ & Hgn).
    pose proof (Hn' _ _ Hgn) as Hname. rewrite He in Hname. subst n.
    unfold get in Hg. congruence. }
  split.
  { intros n Hd. unfold get, r', unregister. cbn.
    apply map_get_delete_other. exact Hd. }
  unfold getCategories, r', unregister. cbn. apply map_keys_map.
Qed.

Lemma unregister_removes_everywhere_witness :
  built sample_registry /\
  fst (unregister "calculator" sample_registry) = true /\
  get "calculator" (snd (unregister "calculator" sample_registry)) = None /\
  getByCategory "math" (snd (unregister "calculator" sample_registry)) = [] /\
  getCategories (snd (unregister "calculator" sample_registry)) = ["math"].
Proof.
  split; [exact built_sample_registry|].
  destruct (@unregister_removes_everywhere "calculator" sample_registry
              built_sample_registry) as (Hr & Hg & _ & _ & _ & _ & Hc).
  split; [exact Hr|]. split; [exact Hg|]. split; [reflexivity|exact Hc].
Defined.

(** X18.  A tool is replaced by [unregister] followed by [register]: the
    second call always succeeds, [get] returns the new tool, and a tool of
    that name belongs to the new category only, whatever category the old
    one was in. *)
Theorem reregister_moves_category t cat r :
  built r -> truthy cat = true ->
  exists r',
    register t (Some cat) (snd (unregister (name t) r)) = inl r' /\
    get (name t) r' = Some t /\
    In t (getByCategory cat r') /\
    forall c t', In t' (getByCategory c r') -> name t' = name t ->
                 c = cat /\ t' = t.
Proof.
  intros B Htr.
  pose proof (built_unregister (name t) B) as B1.
  pose proof (built_consistent B) as (Ht & _).
  destruct (register t (Some cat) (snd (unregister (name t) r)))
    as [r'|e] eqn:R.
  2:{ unfold register, unregister in R. cbn in R. unfold map_has in R.
      rewrite (@map_get_delete_same _ (name t) _ Ht) in R.
      rewrite Htr in R. discriminate. }
  pose proof (@built_register t (Some cat) _ r' B1 R) as B2.
  apply built_consistent in B2. destruct B2 as (_ & _ & Hn & Hm & Hx).
  destruct (register_inv _ _ _ R) as (_ & Hts & Hcats).
  assert (Hg : get (name t) r' = Some t).
  { unfold get. rewrite Hts. apply map_get_set_same. }
  destruct Hcats as [(cat' & Hc & _ & Hcs)|[[Hc|(cat' & Hc & Hf)] _]];
    [inversion Hc; subst cat'|discriminate|inversion Hc; congruence].
  assert (Hmem : map_get cat (categories r') =
                 Some (set_add (name t)
                         (members_of cat (snd (unregister (name t) r))))).
  { rewrite Hcs. apply map_get_set_same. }
  exists r'. split; [reflexivity|]. split; [exact Hg|]. split.
  - unfold getByCategory. rewrite Hmem. apply lookup_all_in.
    exists (name t). split; [|exact Hg]. apply set_add_in. left. reflexivity.
  - intros c t' H He. unfold getByCategory in H.
    destruct (map_get c (categories r')) as [ms|] eqn:E; [|contradiction].
    apply lookup_all_in in H. destruct H as (n & Hin & Hgn).
    pose proof (Hn _ _ Hgn) as Hname. subst n. rewrite He in Hin, Hgn.
    split.
    + refine (Hx c cat ms _ (name t) E Hmem Hin _).
      apply set_add_in. left. reflexivity.
    + unfold get in Hg. congruence.
Qed.

Lemma reregister_moves_category_witness :
  built sample_registry /\
  truthy "tools" = true /\
  exists r',
    register Examples.calculator (Some "tools")
      (snd (unregister (name Examples.calculator) sample_registry)) = inl r' /\
    get (name Examples.calculator) r' = Some Examples.calculator /\
    In Examples.calculator (getByCategory "tools" r') /\
    forall c t', In t' (getByCategory c r') ->
                 name t' = name Examples.calculator ->
                 c = "tools" /\ t' = Examples.calculator.
Proof.
  split; [exact built_sample_registry|]. split; [reflexivity|].
  exact (@reregister_moves_category Examples.calculator "tools" sample_registry
           built_sample_registry eq_refl).
Defined.

End RegistryFacts.

(* ================================================================== *)
(** * Further properties of the bounded store *)
(* ================================================================== *)

Module StoreFacts.
Import ShortTerm MapFacts DeleteFacts Invariants MoreExamples ShortTermFacts.

(** ** The eviction loop *)

Lemma evict_negative limit :
  limit < 0 -> forall order st, evict limit order st = None.
Proof.
  intros H. induction order as [|k rest IH]; intros st; cbn [evict].
  - destruct (Z.gtb_spec (Z.of_nat (List.length (@nil string))) limit);
      [reflexivity|cbn in *; lia].
  - destruct (Z.gtb_spec (Z.of_nat (List.length (k :: rest))) limit);
      [apply IH|lia].
Qed.

Lemma evict_total limit :
  0 <= limit -> forall order st, exists r, evict limit order st = Some r.
Proof.
  intros H. induction order as [|k rest IH]; intros st; cbn [evict].
  - destruct (Z.gtb_spec (Z.of_nat (List.length (@nil string))) limit);
      [cbn in *; lia|eexists; reflexivity].
  - destruct (Z.gtb_spec (Z.of_nat (List.length (k :: rest))) limit);
      [apply IH|eexists; reflexivity].
Qed.

(** X8.  [save] returns exactly when the capacity is not negative: with a
    negative [maxSize] the eviction loop empties the order array and then
    spins on it, whatever the key, the value and the contents. *)
Theorem save_returns_iff_capacity_not_negative k v m :
  (exists m', save k v m = Some m') <-> 0 <= maxSize m.
Proof.
  unfold save. split.
  - intros [m' H]. destruct (Z.lt_ge_cases (maxSize m) 0) as [Hneg|Hok];
      [|exact Hok].
    rewrite (evict_negative Hneg) in H. discriminate.
  - intros H.
    destruct (evict_total H
                ((if map_has k (store m)
                  then filter (fun k0 => negb (String.eqb k0 k)) (insertionOrder m)
                  else insertionOrder m) ++ [k])
                (map_set k v (store m))) as [[order' st'] E].
    rewrite E. eexists. reflexivity.
Qed.

(** ** The order array and the map move together *)

Lemma truthy_nonempty k : k <> EmptyString -> truthy k = true.
Proof. destruct k; [congruence|reflexivity]. Qed.

Lemma in_filter_other (k k' : string) l :
  In k' (filter (fun k0 => negb (String.eqb k0 k)) l) <-> In k' l /\ k' <> k.
Proof.
  rewrite filter_In. split; intros [H1 H2]; split; try exact H1.
  - intros ->. rewrite String.eqb_refl in H2. discriminate.
  - destruct (String.eqb_spec k' k); [contradiction|reflexivity].
Qed.

Lemma in_step_lengths m :
  in_step m -> List.length (store m) = List.length (insertionOrder m).
Proof.
  intros (Ho & Hk & Hio & _ & _).
  rewrite <- (length_map fst (store m)). fold (map_keys (store m)).
  apply Nat.le_antisymm; apply NoDup_incl_length; try assumption;
    intros x Hx; apply Hio; exact Hx.
Qed.

Lemma in_step_capacity m : in_step m -> 0 <= maxSize m.
Proof. intros (_ & _ & _ & _ & H). lia. Qed.

Lemma in_step_delete k m : in_step m -> in_step (delete k m).
Proof.
  intros (Ho & Hk & Hio & Hne & Hlen). unfold in_step, delete. cbn [store insertionOrder maxSize].
  split; [apply NoDup_filter; exact Ho|].
  split; [apply map_delete_nodup; exact Hk|].
  split; [|split].
  - intros k'. rewrite in_filter_other, (map_delete_keys k k' _ Hk), Hio.
    reflexivity.
  - intros k' H. apply in_filter_other in H. apply Hne. tauto.
  - pose proof (filter_length_le (fun k0 => negb (String.eqb k0 k))
                                 (insertionOrder m)). lia.
Qed.

(** What [save] does to a store in step, case by case. *)
Lemma save_spec k v m :
  in_step m -> k <> EmptyString ->
  exists m',
    save k v m = Some m' /\ in_step m' /\ maxSize m' = maxSize m /\
    (((map_has k (store m) = true \/
       Z.of_nat (List.length (insertionOrder m)) < maxSize m) /\
      store m' = map_set k v (store m))
     \/
     (map_has k (store m) = false /\
      Z.of_nat (List.length (insertionOrder m)) = maxSize m /\
      exists o rest,
        insertionOrder m = o :: rest /\ o <> k /\
        store m' = map_delete o (map_set k v (store m)) /\
        insertionOrder m' = rest ++ [k])
     \/
     (maxSize m = 0 /\ store m' = [] /\ insertionOrder m' = [])).
Proof.
  intros S Hk. pose proof (in_step_lengths S) as Hlens.
  destruct S as (Ho & Hks & Hio & Hne & Hlen).
  unfold save.
  destruct (map_has k (store m)) eqn:Hhas.
  - (* the key is there: it moves to the end *)
    assert (Hin : In k (insertionOrder m)).
    { apply Hio. apply map_has_in. exact Hhas. }
    pose proof (filter_out_shorter k (insertionOrder m) Hin) as Hshort.
    rewrite evict_under by (rewrite length_app; cbn; lia).
    eexists. split; [reflexivity|]. split; [|split; [reflexivity|]].
    + unfold in_step; cbn [store insertionOrder maxSize]. split; [|split; [|split; [|split]]].
      * apply NoDup_app; [apply NoDup_filter; exact Ho| repeat constructor; cbn; tauto|].
        intros x Hx [Hx'|[]]. subst x. apply in_filter_other in Hx. tauto.
      * apply map_set_nodup. exact Hks.
      * intros k'. rewrite map_set_keys, Hhas, in_app_iff, in_filter_other.
        rewrite <- Hio. cbn. split.
        -- intros [[H _]|[H|[]]]; [exact H|subst; exact Hin].
        -- intros H. destruct (String.eqb_spec k' k) as [->|Hd];
             [right; left; reflexivity|left; split; assumption].
      * intros k' H. apply in_app_iff in H. destruct H as [H|[H|[]]].
        -- apply in_filter_other in H. apply Hne. tauto.
        -- subst. exact Hk.
      * rewrite length_app. cbn. lia.
    + left. split; [left; reflexivity|reflexivity].
  - (* a new key *)
    assert (Hnk : ~ In k (map_keys (store m))).
    { apply map_has_false. exact Hhas. }
    assert (Hno : ~ In k (insertionOrder m)).
    { intros H. apply Hnk. apply Hio. exact H. }
    destruct (Z.lt_ge_cases (Z.of_nat (List.length (insertionOrder m)))
                            (maxSize m)) as [Hroom|Hfull].
    + rewrite evict_under by (rewrite length_app; cbn; lia).
      eexists. split; [reflexivity|]. split; [|split; [reflexivity|]].
      * unfold in_step; cbn [store insertionOrder maxSize]. split; [|split; [|split; [|split]]].
        -- apply NoDup_app; [exact Ho|repeat constructor; cbn; tauto|].
           intros x Hx [Hx'|[]]. subst x. contradiction.
        -- apply map_set_nodup. exact Hks.
        -- intros k'. rewrite map_set_keys, Hhas, !in_app_iff, Hio.
           reflexivity.
        -- intros k' H. apply in_app_iff in H. destruct H as [H|[H|[]]].
           ++ apply Hne. exact H.
           ++ subst. exact Hk.
        -- rewrite length_app. cbn. lia.
      * left. split; [right; exact Hroom|reflexivity].
    + assert (Heq : Z.of_nat (List.length (insertionOrder m)) = maxSize m)
        by lia.
      destruct (insertionOrder m) as [|o rest] eqn:Eo.
      * (* capacity 0 *)
        cbn in Heq. rewrite <- Heq.
        assert (Hst : store m = []).
        { destruct (store m); [reflexivity|]. cbn in Hlens. discriminate. }
        rewrite Hst. cbn. rewrite (truthy_nonempty Hk).
        cbn. rewrite String.eqb_refl. cbn.
        eexists. split; [reflexivity|]. split; [|split; [reflexivity|]].
        -- unfold in_step; cbn [store insertionOrder maxSize]. split; [constructor|]. split; [constructor|].
           split; [tauto|]. split; [tauto|lia].
        -- right. right. auto.
      * assert (Hok : o <> k).
        { intros ->. apply Hno. left. reflexivity. }
        assert (Hon : o <> EmptyString).
        { apply Hne. left. reflexivity. }
        inversion Ho as [|? ? Horest Hrest]; subst.
        cbn [app]. rewrite evict_one by (rewrite length_app; cbn in *; lia).
        rewrite (truthy_nonempty Hon).
        eexists. split; [reflexivity|]. split; [|split; [reflexivity|]].
        -- assert (Hks' : NoDup (map_keys (map_set k v (store m))))
             by (apply map_set_nodup; exact Hks).
           unfold in_step; cbn [store insertionOrder maxSize]. split; [|split; [|split; [|split]]].
           ++ apply NoDup_app; [exact Hrest|repeat constructor; cbn; tauto|].
              intros x Hx [Hx'|[]]. subst x. apply Hno. right. exact Hx.
           ++ apply map_delete_nodup. exact Hks'.
           ++ intros k'. rewrite (map_delete_keys o k' _ Hks').
              rewrite map_set_keys, Hhas, !in_app_iff, <- Hio. cbn. split.
              ** intros [H|[H|[]]].
                 --- split; [left; right; exact H|]. intros ->. contradiction.
                 --- subst. split; [right; left; reflexivity|congruence].
              ** intros [[[H|H]|[H|[]]] Hd];
                   [congruence|left; exact H|right; left; exact H].
           ++ intros k' H. apply in_app_iff in H. destruct H as [H|[H|[]]].
              ** apply Hne. right. exact H.
              ** subst. exact Hk.
           ++ rewrite length_app. cbn in *. lia.
        -- right. left. split; [reflexivity|]. split; [exact Heq|].
           exists o, rest. auto.
Qed.

Lemma kept_in_step m : kept m -> in_step m.
Proof.
  induction 1 as [n Hn|k v m m' _ IH Hk Hs|k m _ IH|m _ IH].
  - unfold in_step; cbn. split; [constructor|]. split; [constructor|].
    split; [tauto|]. split; [tauto|exact Hn].
  - destruct (save_spec v IH Hk) as (m'' & Hs' & S' & _).
    rewrite Hs in Hs'. inversion Hs'; subst. exact S'.
  - apply in_step_delete. exact IH.
  - pose proof (in_step_capacity IH).
    unfold in_step; cbn. split; [constructor|]. split; [constructor|].
    split; [tauto|]. split; [tauto|assumption].
Qed.

Lemma kept_full_store : kept full_store.
Proof.
  apply (@kept_save "k2" (VNumber 2%float)
           {| store := [("k1", VNumber 1%float)]; maxSize := 2;
              insertionOrder := ["k1"] |});
    [|discriminate|reflexivity].
  apply (@kept_save "k1" (VNumber 1%float) (constructor (Some 2)));
    [|discriminate|reflexivity].
  apply kept_new. lia.
Qed.

(** X9.  Every store built by [new ShortTermMemory(n)] with [n >= 0] and
    calls of [save] (with keys other than ['']), [delete] and [clear]
    holds at most [maxSize] entries, and the order array lists exactly the
    keys of the map, each once. *)
Theorem store_within_capacity m :
  kept m ->
  size m <= maxSize m /\
  size m = Z.of_nat (List.length (insertionOrder m)) /\
  NoDup (insertionOrder m) /\
  (forall k, In k (keys m) <-> In k (insertionOrder m)).
Proof.
  intros K. apply kept_in_step in K. pose proof (in_step_lengths K) as Hl.
  destruct K as (Ho & Hk & Hio & _ & Hlen).
  unfold size, map_size, keys. rewrite Hl.
  split; [exact Hlen|]. split; [reflexivity|]. split; [exact Ho|].
  intros k. symmetry. apply Hio.
Qed.

Lemma store_within_capacity_witness :
  kept full_store /\
  size full_store <= maxSize full_store /\
  size full_store = Z.of_nat (List.length (insertionOrder full_store)) /\
  NoDup (insertionOrder full_store) /\
  (forall k, In k (keys full_store) <-> In k (insertionOrder full_store)).
Proof.
  split; [exact kept_full_store|].
  exact (@store_within_capacity full_store kept_full_store).
Defined.

(** X10.  On such a store with capacity at least 1, [save(key, value)]
    (key other than ['']) makes [get(key)] return the value and changes
    no other key, except that it evicts the oldest key, and only that
    one, exactly when the key is new and the store is full. *)
Theorem save_evicts_only_oldest_when_full k v m :
  kept m -> k <> EmptyString -> 1 <= maxSize m ->
  exists m',
    save k v m = Some m' /\
    get k m' = v /\
    (forall k', k' <> k ->
       get k' m' = get k' m \/
       (get k' m' = VUndefined /\ hd_error (insertionOrder m) = Some k')) /\
    (map_has k (store m) = true \/ size m < maxSize m ->
     forall k', k' <> k -> get k' m' = get k' m) /\
    (map_has k (store m) = false -> size m = maxSize m ->
     exists oldest,
       hd_error (insertionOrder m) = Some oldest /\
       get oldest m' = VUndefined).
Proof.
  intros K Hk Hcap. apply kept_in_step in K.
  pose proof (in_step_lengths K) as Hl.
  destruct (save_spec v K Hk) as (m' & Hs & S' & _ & Hcase).
  assert (Hnd : NoDup (map_keys (map_set k v (store m)))).
  { apply map_set_nodup. destruct K as (_ & H & _). exact H. }
  exists m'. split; [exact Hs|]. unfold get, size, map_size. rewrite Hl.
  destruct Hcase as [[Hc Hst]|[(Hhas & Hfull & o & rest & Ho & Hok & Hst & _)|(H0 & _)]].
  - rewrite Hst. split; [rewrite map_get_set_same; reflexivity|].
    assert (Hsame : forall k', k' <> k ->
              match map_get k' (map_set k v (store m)) with
              | Some v0 => v0 | None => VUndefined end =
              match map_get k' (store m) with
              | Some v0 => v0 | None => VUndefined end).
    { intros k' Hd. rewrite map_get_set_other by exact Hd. reflexivity. }
    split; [intros k' Hd; left; apply Hsame; exact Hd|].
    split; [intros _; exact Hsame|].
    intros Hhas Hfull. destruct Hc as [Hc|Hc]; [congruence|lia].
  - rewrite Hst, Ho.
    split.
    { rewrite map_get_delete_other by congruence.
      rewrite map_get_set_same. reflexivity. }
    split.
    { intros k' Hd. destruct (String.eqb_spec k' o) as [->|Hdo].
      - right. rewrite (@map_get_delete_same _ o _ Hnd). split; reflexivity.
      - left. rewrite map_get_delete_other by exact Hdo.
        rewrite map_get_set_other by exact Hd. reflexivity. }
    split.
    { intros [Hc|Hc]; [congruence|]. rewrite Ho in Hfull. lia. }
    intros _ _. exists o. split; [reflexivity|].
    rewrite (@map_get_delete_same _ o _ Hnd). reflexivity.
  - lia.
Qed.

Lemma save_evicts_only_oldest_when_full_witness :
  kept full_store /\ "k3" <> EmptyString /\ 1 <= maxSize full_store /\
  exists m',
    save "k3" (VNumber 3%float) full_store = Some m' /\
    get "k3" m' = VNumber 3%float /\
    (exists oldest,
       hd_error (insertionOrder full_store) = Some oldest /\
       get oldest m' = VUndefined).
Proof.
  assert (Hk : "k3" <> EmptyString) by discriminate.
  assert (Hc : 1 <= maxSize full_store) by (cbn; lia).
  split; [exact kept_full_store|]. split; [exact Hk|]. split; [exact Hc|].
  destruct (@save_evicts_only_oldest_when_full "k3" (VNumber 3%float)
              full_store kept_full_store Hk Hc)
    as (m' & Hs & Hg & _ & _ & Hfull).
  exists m'. split; [exact Hs|]. split; [exact Hg|].
  apply Hfull; reflexivity.
Defined.

(** X11.  A store of capacity 0 accepts every [save] and keeps nothing:
    the entry is evicted by the call that wrote it. *)
Theorem capacity_zero_keeps_nothing k v m :
  kept m -> maxSize m = 0 -> k <> EmptyString ->
  exists m',
    save k v m = Some m' /\ keys m' = [] /\ size m' = 0 /\
    get k m' = VUndefined.
Proof.
  intros K H0 Hk. apply kept_in_step in K.
  destruct (save_spec v K Hk) as (m' & Hs & S' & _ & Hcase).
  exists m'. split; [exact Hs|].
  assert (Hst : store m' = []).
  { destruct Hcase as [[[Hc|Hc] Hst]|[(Hhas & Hfull & o & rest & Ho & _)|(_ & Hst & _)]].
    - apply map_has_in in Hc. destruct K as (_ & _ & Hio & _ & Hlen).
      apply Hio in Hc. destruct (insertionOrder m); [contradiction|].
      cbn in Hlen. lia.
    - lia.
    - rewrite Ho in Hfull. cbn in Hfull. lia.
    - exact Hst. }
  unfold keys, size, get. rewrite Hst. auto.
Qed.

Lemma capacity_zero_keeps_nothing_witness :
  kept (constructor (Some 0)) /\ maxSize (constructor (Some 0)) = 0 /\
  "a" <> EmptyString /\
  exists m',
    save "a" (VNumber 1%float) (constructor (Some 0)) = Some m' /\
    keys m' = [] /\ size m' = 0 /\ get "a" m' = VUndefined.
Proof.
  assert (K : kept (constructor (Some 0))) by (apply kept_new; lia).
  assert (Hk : "a" <> EmptyString) by discriminate.
  split; [exact K|]. split; [reflexivity|]. split; [exact Hk|].
  exact (@capacity_zero_keeps_nothing "a" (VNumber 1%float)
           (constructor (Some 0)) K eq_refl Hk).
Defined.

(** X12.  [delete] frees a slot: after deleting a key the store holds,
    saving a new key (other than ['']) evicts nothing; the deleted key
    reads as [undefined] and every other key keeps its value. *)
Theorem delete_frees_a_slot k k2 v m :
  kept m -> In k (keys m) -> k2 <> EmptyString -> ~ In k2 (keys m) ->
  exists m',
    save k2 v (delete k m) = Some m' /\
    get k2 m' = v /\
    get k m' = VUndefined /\
    forall k', k' <> k -> k' <> k2 -> get k' m' = get k' m.
Proof.
  intros K Hin Hk2 Hnew. apply kept_in_step in K.
  assert (Hd : k <> k2) by (intros ->; contradiction).
  pose proof (in_step_delete k K) as Sd.
  destruct (save_spec v Sd Hk2) as (m' & Hs & _ & _ & Hcase).
  destruct K as (Ho & Hks & Hio & Hne & Hlen).
  assert (Hino : In k (insertionOrder m)) by (apply Hio; exact Hin).
  pose proof (filter_out_shorter k (insertionOrder m) Hino) as Hshort.
  exists m'. split; [exact Hs|]. unfold get.
  destruct Hcase as [[_ Hst]|[(_ & Hfull & _)|(H0 & _)]].
  - rewrite Hst. cbn [store delete].
    split; [rewrite map_get_set_same; reflexivity|].
    split.
    + rewrite map_get_set_other by exact Hd.
      rewrite (@map_get_delete_same _ k _ Hks). reflexivity.
    + intros k' H1 H2. rewrite map_get_set_other by exact H2.
      rewrite map_get_delete_other by exact H1. reflexivity.
  - cbn in Hfull. lia.
  - cbn in H0. destruct (insertionOrder m); [contradiction|]. cbn in Hlen. lia.
Qed.

Lemma delete_frees_a_slot_witness :
  kept full_store /\ In "k2" (keys full_store) /\ "k3" <> EmptyString /\
  ~ In "k3" (keys full_store) /\
  exists m',
    save "k3" (VNumber 3%float) (delete "k2" full_store) = Some m' /\
    get "k3" m' = VNumber 3%float /\
    get "k2" m' = VUndefined /\
    forall k', k' <> "k2" -> k' <> "k3" -> get k' m' = get k' full_store.
Proof.
  assert (Hin : In "k2" (keys full_store)) by (right; left; reflexivity).
  assert (Hk : "k3" <> EmptyString) by discriminate.
  assert (Hnew : ~ In "k3" (keys full_store)).
  { intros [H|[H|[]]]; discriminate. }
  split; [exact kept_full_store|]. split; [exact Hin|]. split; [exact Hk|].
  split; [exact Hnew|].
  exact (@delete_frees_a_slot "k2" "k3" (VNumber 3%float) full_store
           kept_full_store Hin Hk Hnew).
Defined.

(** ** [getRecent] *)

Lemma slice_from_incl (A : Type) start (l : list A) x :
  In x (slice_from start l) -> In x l.
Proof.
  unfold slice_from. intros H.
  rewrite <- (firstn_skipn
    (Z.to_nat (if start <? 0
               then Z.max (Z.of_nat (List.length l) + start) 0
               else Z.min start (Z.of_nat (List.length l)))) l).
  apply in_or_app. right. exact H.
Qed.

Lemma slice_from_zero (A : Type) (l : list A) : slice_from 0 l = l.
Proof.
  unfold slice_from. cbn.
  replace (Z.min 0 (Z.of_nat (List.length l))) with 0 by lia.
  reflexivity.
Qed.

(** X13.  [getRecent(0)] does not return the empty list: [slice(-0)] is
    [slice(0)], so it returns what [getRecent(length)] returns, every
    entry with a defined value; and whatever [getRecent(count)] returns
    for any count is among these. *)
Theorem getRecent_zero_returns_all m :
  getRecent 0 m =
    filter (fun entry => negb (is_undefined (snd entry)))
           (List.map (fun key => (key, get key m)) (insertionOrder m)) /\
  getRecent 0 m = getRecent (Z.of_nat (List.length (insertionOrder m))) m /\
  forall count entry, In entry (getRecent count m) -> In entry (getRecent 0 m).
Proof.
  assert (H0 : getRecent 0 m =
    filter (fun entry => negb (is_undefined (snd entry)))
           (List.map (fun key => (key, get key m)) (insertionOrder m))).
  { unfold getRecent. cbn [Z.opp]. rewrite slice_from_zero. reflexivity. }
  split; [exact H0|]. split.
  - rewrite H0. unfold getRecent, slice_from.
    destruct (insertionOrder m) as [|k0 rest] eqn:E; [reflexivity|].
    rewrite <- E.
    assert (Hlt : (- Z.of_nat (List.length (insertionOrder m)) <? 0) = true).
    { apply Z.ltb_lt. rewrite E. cbn. lia. }
    rewrite Hlt.
    replace (Z.max (Z.of_nat (List.length (insertionOrder m)) +
                    - Z.of_nat (List.length (insertionOrder m))) 0) with 0 by lia.
    reflexivity.
  - intros count entry H. rewrite H0. unfold getRecent in H.
    apply filter_In in H. destruct H as [H Hd]. apply filter_In.
    split; [|exact Hd].
    apply in_map_iff in H. destruct H as (key & He & Hk).
    apply in_map_iff. exists key. split; [exact He|].
    eapply slice_from_incl. exact Hk.
Qed.

(** X14.  For a positive [count], when no key of the order array holds
    [undefined], [getRecent(count)] returns the last [min(count, length)]
    keys of the order array, oldest first, each with its value. *)
Theorem getRecent_returns_last_entries count m :
  0 < count ->
  (forall k, In k (insertionOrder m) -> get k m <> VUndefined) ->
  let len := Z.of_nat (List.length (insertionOrder m)) in
  let n := Z.min count len in
  getRecent count m =
    List.map (fun key => (key, get key m))
             (skipn (Z.to_nat (len - n)) (insertionOrder m)) /\
  Z.of_nat (List.length (getRecent count m)) = n.
Proof.
  intros Hc Hdef len n.
  assert (Hs : slice_from (- count) (insertionOrder m) =
               skipn (Z.to_nat (len - n)) (insertionOrder m)).
  { unfold slice_from. fold len.
    assert (Hlt : (- count <? 0) = true) by (apply Z.ltb_lt; lia).
    rewrite Hlt. f_equal. f_equal. unfold n. lia. }
  assert (Hf : getRecent count m =
               List.map (fun key => (key, get key m))
                        (skipn (Z.to_nat (len - n)) (insertionOrder m))).
  { unfold getRecent. rewrite Hs.
    apply forallb_filter_id. apply forallb_forall.
    intros entry H. apply in_map_iff in H. destruct H as (key & He & Hk).
    subst entry. cbn.
    assert (Hin : In key (insertionOrder m)).
    { rewrite <- (firstn_skipn (Z.to_nat (len - n)) (insertionOrder m)).
      apply in_or_app. right. exact Hk. }
    apply Hdef in Hin. destruct (get key m); try reflexivity. congruence. }
  split; [exact Hf|].
  rewrite Hf, length_map, length_skipn. unfold n, len. lia.
Qed.

Lemma getRecent_returns_last_entries_witness :
  0 < 1 /\
  (forall k, In k (insertionOrder full_store) ->
             get k full_store <> VUndefined) /\
  getRecent 1 full_store = [("k2", VNumber 2%float)].
Proof.
  assert (Hc : 0 < 1) by lia.
  assert (Hd : forall k, In k (insertionOrder full_store) ->
                         get k full_store <> VUndefined).
  { intros k [H|[H|[]]]; subst; discriminate. }
  split; [exact Hc|]. split; [exact Hd|].
  destruct (@getRecent_returns_last_entries 1 full_store Hc Hd) as [H _].
  exact H.
Defined.

End StoreFacts.

(* ================================================================== *)
(** * Further properties of the durable store *)
(* ================================================================== *)

Module DurableFacts.
Import JSON LongTerm MapFacts DeleteFacts Examples MoreExamples.

Lemma writeFile_others path data f f' r p :
  writeFile path data f = (f', r) ->
  p <> path ->
  map_get p (files f') = map_get p (files f).
Proof.
  unfold writeFile. intros H Hp.
  destruct (is_denied path f); [inversion H; reflexivity|].
  destruct (negb (dir_exists (dirname path) f)); [inversion H; reflexivity|].
  destruct (map_get path (interrupted f)); inversion H; cbn;
    apply map_get_set_other; exact Hp.
Qed.

Lemma writeFile_failed path data f f' t :
  writeFile path data f = (f', Some t) ->
  map_get path (files f') = map_get path (files f) \/
  exists part, map_get path (files f') = Some (RawText part).
Proof.
  unfold writeFile. intros H.
  destruct (is_denied path f); [inversion H; auto|].
  destruct (negb (dir_exists (dirname path) f)); [inversion H; auto|].
  destruct (map_get path (interrupted f)) as [part|]; inversion H; cbn.
  right. exists part. apply map_get_set_same.
Qed.

(** X19.  A [persist()] that rejects leaves the store and the dirty flag
    as they were, writes one line with [console.error] and throws the
    error again.  On disk it changes no file but the storage file, which
    is as before or is left with part of the text, which is not JSON; a
    [dispose()] after it tries the write again when the store is
    dirty. *)
Theorem failed_persist_keeps_state m h t m1 h1 :
  persist m h = (Some t, m1, h1) ->
  m1 = m /\
  console h1 = console h ++ ["Error persisting long-term memory:"] /\
  (forall p, p <> storagePath m ->
     map_get p (files (fs h1)) = map_get p (files (fs h))) /\
  (map_get (storagePath m) (files (fs h1)) =
     map_get (storagePath m) (files (fs h)) \/
   exists part,
     map_get (storagePath m) (files (fs h1)) = Some (RawText part)) /\
  dispose m1 h1 = if isDirty m then persist m h1 else (None, m, h1).
Proof.
  unfold persist. intros H.
  assert (G : m1 = m /\
              console h1 = console h ++ ["Error persisting long-term memory:"] /\
              (forall p, p <> storagePath m ->
                 map_get p (files (fs h1)) = map_get p (files (fs h))) /\
              (map_get (storagePath m) (files (fs h1)) =
                 map_get (storagePath m) (files (fs h)) \/
               exists part,
                 map_get (storagePath m) (files (fs h1)) = Some (RawText part))).
  { destruct (mkdir (dirname (storagePath m)) (fs h)) as [f|e] eqn:Em.
    - apply LongTermFacts.mkdir_made in Em. destruct Em as (_ & Hf & _).
      destruct (stringify (Object_fromEntries (store m))) as [[doc|]|e] eqn:Es.
      + destruct (writeFile (storagePath m) (JsonText doc) f) as [f' [e|]] eqn:Ew;
          [|discriminate].
        unfold persist_catch in H. inversion H; subst. cbn [fs console].
        split; [reflexivity|]. split; [reflexivity|]. rewrite <- Hf. split.
        * intros p Hp. eapply writeFile_others; eauto.
        * eapply writeFile_failed; eauto.
      + unfold persist_catch in H. inversion H; subst. cbn [fs console].
        rewrite Hf. auto.
      + unfold persist_catch in H. inversion H; subst. cbn [fs console].
        rewrite Hf. auto.
    - unfold persist_catch in H. inversion H; subst. cbn [fs console]. auto. }
  destruct G as (-> & Hc & Ho & Hs). split; [reflexivity|].
  split; [exact Hc|]. split; [exact Ho|]. split; [exact Hs|]. reflexivity.
Qed.

Lemma failed_persist_keeps_state_witness :
  exists t m1 h1,
    persist dirty_memory full_disk_host = (Some t, m1, h1) /\
    m1 = dirty_memory /\
    isDirty m1 = true /\
    console h1 = ["Error persisting long-term memory:"] /\
    map_get "/tmp/other.json" (files (fs h1)) = Some (JsonText (JObject [])) /\
    map_get "/tmp/test-memory.json" (files (fs full_disk_host)) =
      Some (JsonText (JObject [])) /\
    map_get "/tmp/test-memory.json" (files (fs h1)) = Some (RawText "{").
Proof.
  eexists; eexists; eexists.
  assert (R : persist dirty_memory full_disk_host = (Some _, _, _)) by reflexivity.
  split; [exact R|].
  destruct (@failed_persist_keeps_state dirty_memory full_disk_host _ _ _ R)
    as (Hm & Hc & Ho & _).
  split; [exact Hm|]. split; [reflexivity|]. split; [exact Hc|].
  split; [exact (Ho "/tmp/other.json" ltac:(discriminate))|].
  split; reflexivity.
Defined.

(** X20.  [persist()] is idempotent: after a [persist()] that resolves, a
    second one resolves too and leaves the files and the store as they
    are, and [dispose()] writes nothing, the store being clean. *)
Theorem persist_is_idempotent m h m1 h1 :
  persist m h = (None, m1, h1) ->
  persist m1 h1 = (None, m1, h1) /\
  dispose m1 h1 = (None, m1, h1) /\
  isDirty m1 = false.
Proof.
  unfold persist. intros H.
  destruct (mkdir (dirname (storagePath m)) (fs h)) as [f|e] eqn:Em;
    [|discriminate].
  pose proof (LongTermFacts.mkdir_made _ _ Em)
    as (Hex & Hfiles & Hden & Hint & Hdirs & Hdd).
  destruct (stringify (Object_fromEntries (store m))) as [[doc|]|e] eqn:Ed;
    try discriminate.
  destruct (writeFile (storagePath m) (JsonText doc) f) as [f' [e|]] eqn:Ew;
    [discriminate|].
  inversion H; subst m1 h1; clear H.
  unfold writeFile in Ew.
  destruct (is_denied (storagePath m) f) eqn:Edp; [discriminate|].
  destruct (negb (dir_exists (dirname (storagePath m)) f)) eqn:Edir;
    [discriminate|].
  destruct (map_get (storagePath m) (interrupted f)) eqn:Ei; [discriminate|].
  inversion Ew; subst f'; clear Ew.
  set (f2 := {| files := map_set (storagePath m) (JsonText doc) (files f);
                dirs := dirs f; denied := denied f;
                interrupted := interrupted f |}).
  assert (M : mkdir (dirname (storagePath m)) f2 = inl f2).
  { unfold mkdir, is_denied. cbn [denied dirs files interrupted f2].
    unfold is_denied in Hdd. rewrite <- Hden in Hdd. rewrite Hdd.
    rewrite LongTermFacts.add_dirs_present; [reflexivity|].
    intros x Hx. rewrite Hdirs. apply LongTermFacts.add_dirs_in. exact Hx. }
  assert (W : writeFile (storagePath m) (JsonText doc) f2 = (f2, None)).
  { unfold writeFile, is_denied, dir_exists in *.
    cbn [denied dirs files interrupted f2].
    rewrite Edp, Edir, Ei, map_set_set. reflexivity. }
  assert (P : persist
                {| store := store m; storagePath := storagePath m;
                   autoSaveTimer := autoSaveTimer m; isDirty := false |}
                {| fs := f2; console := console h |} =
              (None,
               {| store := store m; storagePath := storagePath m;
                  autoSaveTimer := autoSaveTimer m; isDirty := false |},
               {| fs := f2; console := console h |})).
  { unfold persist. cbn [store storagePath autoSaveTimer isDirty fs console].
    rewrite M, Ed, W. reflexivity. }
  split; [exact P|]. split; reflexivity.
Qed.

Lemma persist_is_idempotent_witness :
  exists m1 h1,
    persist saved_memory empty_host = (None, m1, h1) /\
    persist m1 h1 = (None, m1, h1) /\
    dispose m1 h1 = (None, m1, h1) /\
    isDirty m1 = false.
Proof.
  eexists; eexists.
  assert (R : persist saved_memory empty_host = (None, _, _)) by reflexivity.
  split; [exact R|].
  exact (@persist_is_idempotent saved_memory empty_host _ _ R).
Defined.

(** X21.  [load()] replaces the map, it does not merge: what the store
    holds after [load()] depends on the file alone, so two instances on
    the same path hold the same entries after loading, whatever each held
    before; entries saved and not yet persisted are gone. *)
Theorem load_replaces_memory m m' h :
  storagePath m = storagePath m' ->
  store (fst (load m h)) = store (fst (load m' h)) /\
  snd (load m h) = snd (load m' h) /\
  fs (snd (load m h)) = fs h.
Proof.
  intros Hp. unfold load. rewrite <- Hp.
  destruct (readFile (storagePath m) (fs h)) as [data|t].
  - destruct (parse data) as [parsed|t].
    + destruct (Object_entries parsed) as [entries|t].
      * cbn. auto.
      * unfold load_catch. cbn. split; [reflexivity|]. split; [reflexivity|].
        destruct t as [e|x]; [destruct (code e) as [c|];
          [destruct (String.eqb c "ENOENT")|]|]; reflexivity.
    + unfold load_catch. cbn. split; [reflexivity|]. split; [reflexivity|].
      destruct t as [e|x]; [destruct (code e) as [c|];
        [destruct (String.eqb c "ENOENT")|]|]; reflexivity.
  - unfold load_catch. cbn. split; [reflexivity|]. split; [reflexivity|].
    destruct t as [e|x]; [destruct (code e) as [c|];
      [destruct (String.eqb c "ENOENT")|]|]; reflexivity.
Qed.

Lemma load_replaces_memory_witness :
  storagePath dirty_memory = storagePath (constructor memory_options) /\
  store dirty_memory = [("key1", VString "value1")] /\
  store (fst (load dirty_memory empty_host)) = [] /\
  store (fst (load dirty_memory empty_host)) =
    store (fst (load (constructor memory_options) empty_host)).
Proof.
  assert (Hp : storagePath dirty_memory =
               storagePath (constructor memory_options)) by reflexivity.
  split; [exact Hp|]. split; [reflexivity|]. split; [reflexivity|].
  exact (proj1 (@load_replaces_memory dirty_memory
                  (constructor memory_options) empty_host Hp)).
Defined.

(** X22.  [import] merges: importing what another store exports sets
    every exported key to the exported value and leaves the other keys of
    the importing store alone; a new store that imports an export then
    exports the same object, and is dirty. *)
Theorem import_merges_export m options :
  exists entries,
    Object_entries (export m) = inl entries /\
    (forall m2 k,
       get k (import entries m2) =
       match map_get k entries with
       | Some v => v
       | None => get k m2
       end) /\
    export (import entries (constructor options)) = export m /\
    isDirty (import entries (constructor options)) = true.
Proof.
  exists (js_object (store m)). split; [reflexivity|]. split; [|split].
  - intros m2 k. unfold get, import. cbn [store].
    rewrite fold_set_get by apply OrderFacts.js_object_nodup.
    destruct (map_get k (js_object (store m))); reflexivity.
  - unfold export, import, Object_fromEntries. cbn [store constructor].
    fold (map_of_entries (js_object (store m))).
    rewrite (map_of_entries_fresh _ (OrderFacts.js_object_nodup (store m))).
    rewrite OrderFacts.js_object_fixed. reflexivity.
  - reflexivity.
Qed.

End DurableFacts.

(* ================================================================== *)
(** * Properties of the router *)
(* ================================================================== *)

Module RouterFacts.
Import Core Observations Examples Invariants MoreExamples AgentFacts Router.

Lemma tallied_zero : tallied zero_stats.
Proof. unfold tallied; cbn. lia. Qed.

Lemma tallied_update used st : tallied st -> tallied (updateStats used st).
Proof.
  unfold tallied, updateStats. intros (H1 & H2 & H3).
  destruct used; cbn; lia.
Qed.

(** X23.  The counters of the router add up: starting from counters that
    do (a new router, a router after [resetStats()]), an execution that
    resolves adds one to [totalExecutions] and one to exactly one of
    [runtimeExecutions] and [placeholderExecutions], according to the
    [usedRuntime] it reports, and sets the rate to their quotient; an
    execution that rejects (an unknown agent, a listener that throws on
    [start]) leaves the counters alone. *)
Theorem router_counters_add_up available agentName goal r log out r' log' :
  tallied (stats r) ->
  executeWithFallback available agentName goal r log = (out, r', log') ->
  tallied (stats r') /\
  (forall res, out = Returned res ->
     totalExecutions (stats r') = totalExecutions (stats r) + 1 /\
     runtimeExecutions (stats r') =
       runtimeExecutions (stats r) + (if usedRuntime res then 1 else 0) /\
     placeholderExecutions (stats r') =
       placeholderExecutions (stats r) + (if usedRuntime res then 0 else 1) /\
     runtimeAvailabilityRate (stats r') =
       QArith_base.Qmake (runtimeExecutions (stats r'))
                         (Z.to_pos (totalExecutions (stats r'))) /\
     (available = false -> usedRuntime res = false)) /\
  (forall t, out = Rejected t -> stats r' = stats r) /\
  (map_get agentName (agents r) = None ->
   out = Rejected (ThrowError
                     (Error ("Agent '" ++ agentName ++ "' not registered")%string))
   /\ r' = r /\ log' = log).
Proof.
  intros T H. unfold executeWithFallback in H.
  destruct (map_get agentName (agents r)) as [agent|] eqn:Ea.
  - destruct (Phase0.run agent goal log) as [[[res|t] agent'] lg] eqn:Er;
      inversion H; subst out r' log'; clear H; cbn [stats].
    + split; [apply tallied_update; exact T|].
      split; [|split; [discriminate|discriminate]].
      intros res0 E. inversion E; subst res0; clear E. cbn [usedRuntime].
      destruct T as (T1 & T2 & T3). unfold updateStats.
      destruct (available && detectRuntimeUsage res) eqn:Eu; cbn.
      * repeat split; try lia. intros ->. discriminate.
      * repeat split; lia.
    + split; [exact T|]. split; [discriminate|].
      split; [reflexivity|discriminate].
  - inversion H; subst out r' log'; clear H.
    split; [exact T|]. split; [discriminate|]. split; [reflexivity|].
    intros _. auto.
Qed.

Lemma router_counters_add_up_witness :
  exists out r' log',
    tallied (stats sample_router) /\
    executeWithFallback true "Test Agent" "Test" sample_router [] =
      (out, r', log') /\
    tallied (stats r') /\ totalExecutions (stats r') = 1.
Proof.
  eexists; eexists; eexists.
  assert (R : executeWithFallback true "Test Agent" "Test" sample_router [] = _)
    by (vm_compute; reflexivity).
  split; [exact tallied_zero|]. split; [exact R|].
  destruct (@router_counters_add_up true "Test Agent" "Test" sample_router []
              _ _ _ tallied_zero R) as (T & _).
  split; [exact T|reflexivity].
Defined.

(** ** Agents that decide by the placeholder *)

Lemma phase0_placeholder_run a goal log :
  quiet (listeners a) ->
  (forall s, makeDecision a s = placeholderDecision s) ->
  iteration (state a) < maxIterations (Core.config a) ->
  exists st r a' log',
    Phase0.run a goal log = (Returned r, a', log') /\
    res_steps r = steps (state a) ++ [st] /\
    steps (state a') = steps (state a) ++ [st] /\
    iteration (state a') = iteration (state a) + 1 /\
    listeners a' = listeners a /\
    makeDecision a' = makeDecision a /\
    Core.config a' = Core.config a.
Proof.
  intros Q Hd Hlt. unfold Phase0.run.
  set (a0 := with_state a (Phase0.unfinished (state a))).
  assert (Q0 : quiet (listeners a0)) by exact Q.
  destruct (@run_quiet a0 Q0 goal log) as (s' & lg & Hl & Hr).
  rewrite run_loop_unfold in Hl.
  assert (Hg : loop_guard a0
                 (push_message (state a0)
                    {| role := RoleUser; content := Plain goal;
                       msg_name := None |}) = true).
  { unfold loop_guard. cbn. apply andb_true_iff. split; [|reflexivity].
    apply Z.ltb_lt. exact Hlt. }
  rewrite Hg in Hl.
  unfold loop_body, executeStep, executeStep_try in Hl.
  change (makeDecision a0) with (makeDecision a) in Hl.
  rewrite Hd in Hl. cbn [placeholderDecision d_action d_thought] in Hl.
  rewrite (@emitEvent_quiet a0 Q0) in Hl.
  cbn [action with_decision thought] in Hl.
  rewrite run_loop_unfold in Hl.
  match type of Hl with
  | (if loop_guard _ ?s then _ else _) = _ =>
      assert (Hg2 : loop_guard a0 s = false)
        by (unfold loop_guard; cbn; apply andb_false_r)
  end.
  rewrite Hg2 in Hl. inversion Hl; subst s' lg; clear Hl.
  eexists; eexists; eexists; eexists.
  split; [exact Hr|]. cbn. repeat split; reflexivity.
Qed.

(** X24.  [usedRuntime] is read off the number of steps the agent has
    recorded since its last [reset()].  For a registered agent that
    decides by the placeholder, has recorded no step, has listeners that
    do not throw and a ceiling that leaves room for two more iterations
    ([iteration + 2 <= maxIterations]), with the runtime importable: the
    first execution reports [usedRuntime = false], and the second
    execution of the same agent through the router reports
    [usedRuntime = true] and is counted under [runtimeExecutions], the
    agent never having used a runtime. *)
Theorem second_execution_reported_as_runtime agentName a goal1 goal2 r log :
  map_get agentName (agents r) = Some a ->
  quiet (listeners a) ->
  (forall s, makeDecision a s = placeholderDecision s) ->
  steps (state a) = [] ->
  iteration (state a) + 2 <= maxIterations (Core.config a) ->
  exists res1 r1 log1 res2 r2 log2,
    executeWithFallback true agentName goal1 r log =
      (Returned res1, r1, log1) /\
    usedRuntime res1 = false /\
    executeWithFallback true agentName goal2 r1 log1 =
      (Returned res2, r2, log2) /\
    usedRuntime res2 = true /\
    List.length (res_steps (result res2)) = 2%nat /\
    runtimeExecutions (stats r2) = runtimeExecutions (stats r) + 1 /\
    placeholderExecutions (stats r2) = placeholderExecutions (stats r) + 1.
Proof.
  intros Ha Q Hd Hs Hlt.
  destruct (@phase0_placeholder_run a goal1 log Q Hd ltac:(lia))
    as (st1 & x1 & a1 & lg1 & R1 & Hs1 & Hsa1 & Hi1 & Hl1 & Hm1 & Hc1).
  assert (Q1 : quiet (listeners a1)) by (rewrite Hl1; exact Q).
  assert (Hd1 : forall s, makeDecision a1 s = placeholderDecision s)
    by (rewrite Hm1; exact Hd).
  destruct (@phase0_placeholder_run a1 goal2 lg1 Q1 Hd1
              ltac:(rewrite Hc1, Hi1; lia))
    as (st2 & x2 & a2 & lg2 & R2 & Hs2 & _).
  rewrite Hs in Hs1. cbn in Hs1. rewrite Hsa1, Hs in Hs2. cbn in Hs2.
  eexists; eexists; eexists; eexists; eexists; eexists.
  split.
  { unfold executeWithFallback. rewrite Ha, R1. reflexivity. }
  split.
  { cbn. unfold detectRuntimeUsage. rewrite Hs1. reflexivity. }
  split.
  { unfold executeWithFallback. cbn [agents]. rewrite MapFacts.map_get_set_same.
    rewrite R2. reflexivity. }
  split.
  { cbn. unfold detectRuntimeUsage. rewrite Hs2. reflexivity. }
  split.
  { cbn. rewrite Hs2. reflexivity. }
  cbn. unfold detectRuntimeUsage. rewrite Hs1, Hs2. cbn. split; lia.
Qed.

Lemma second_execution_reported_as_runtime_witness :
  map_get "Test Agent" (agents sample_router) = Some placeholder_agent /\
  quiet (listeners placeholder_agent) /\
  (forall s, makeDecision placeholder_agent s = placeholderDecision s) /\
  steps (state placeholder_agent) = [] /\
  iteration (state placeholder_agent) + 2 <=
    maxIterations (Core.config placeholder_agent) /\
  exists res1 r1 log1 res2 r2 log2,
    executeWithFallback true "Test Agent" "one" sample_router [] =
      (Returned res1, r1, log1) /\
    usedRuntime res1 = false /\
    executeWithFallback true "Test Agent" "two" r1 log1 =
      (Returned res2, r2, log2) /\
    usedRuntime res2 = true /\
    List.length (res_steps (result res2)) = 2%nat /\
    runtimeExecutions (stats r2) = runtimeExecutions (stats sample_router) + 1 /\
    placeholderExecutions (stats r2) =
      placeholderExecutions (stats sample_router) + 1.
Proof.
  assert (Ha : map_get "Test Agent" (agents sample_router) =
               Some placeholder_agent) by reflexivity.
  assert (Hd : forall s, makeDecision placeholder_agent s =
                         placeholderDecision s) by reflexivity.
  assert (Hs : steps (state placeholder_agent) = []) by reflexivity.
  assert (Hlt : iteration (state placeholder_agent) + 2 <=
                maxIterations (Core.config placeholder_agent))
    by (vm_compute; discriminate).
  split; [exact Ha|]. split; [exact (recorders_quiet 1)|].
  split; [exact Hd|]. split; [exact Hs|]. split; [exact Hlt|].
  exact (@second_execution_reported_as_runtime "Test Agent" placeholder_agent
           "one" "two" sample_router [] Ha (recorders_quiet 1) Hd Hs Hlt).
Defined.

End RouterFacts.

